(** * PrintVault printer data pipeline: extraction, merge and ordering

    A shallow embedding of [extract_fdm.py], [extract_sla.py] and
    [main_build.py].  Python [str] values are lists of characters (the ASCII
    range is modelled; [lower] only touches [A-Z]), Python [float] values are
    IEEE-754 binary64 numbers as given by the standard library's executable
    [spec_float], exceptions are an explicit error result, and the network is
    an explicit input of the extractors. *)

From Stdlib Require Import String.
From Stdlib Require Import List Ascii ZArith Bool Lia Arith.
From Stdlib Require Import Sorting.Permutation Sorting.Sorted.
From Stdlib Require Import Floats.SpecFloat.
Import ListNotations.

Set Implicit Arguments.

(** ** Python strings *)

Module Str.

Definition str := list ascii.

Definition lit (s : String.string) : str := String.list_ascii_of_string s.

Definition code (c : ascii) : N := N_of_ascii c.

Definition in_range (lo hi : N) (c : ascii) : bool :=
  (N.leb lo (code c) && N.leb (code c) hi)%bool.

Definition is_upper : ascii -> bool := in_range 65 90.
Definition is_lower : ascii -> bool := in_range 97 122.
Definition is_digit : ascii -> bool := in_range 48 57.

(** [str.isspace] on the ASCII range: TAB..CR, FS..US and the space. *)
Definition is_space (c : ascii) : bool :=
  (in_range 9 13 c || in_range 28 32 c)%bool.

Definition lower_char (c : ascii) : ascii :=
  if is_upper c then ascii_of_N (code c + 32) else c.

(** [s.lower()] *)
Definition lower (s : str) : str := map lower_char s.

Fixpoint drop_while (p : ascii -> bool) (s : str) : str :=
  match s with
  | [] => []
  | c :: s' => if p c then drop_while p s' else s
  end.

Definition strip_with (p : ascii -> bool) (s : str) : str :=
  rev (drop_while p (rev (drop_while p s))).

(** [s.strip()] *)
Definition strip : str -> str := strip_with is_space.

Definition eqb (a b : str) : bool :=
  if list_eq_dec ascii_dec a b then true else false.

(** [s.startswith(p)] *)
Fixpoint starts_with (p s : str) : bool :=
  match p, s with
  | [], _ => true
  | _ :: _, [] => false
  | a :: p', b :: s' => (Ascii.eqb a b && starts_with p' s')%bool
  end.

(** [s.endswith(p)] *)
Definition ends_with (p s : str) : bool := starts_with (rev p) (rev s).

(** [sub in s] *)
Fixpoint contains (sub s : str) : bool :=
  match s with
  | [] => starts_with sub []
  | _ :: s' => (starts_with sub s || contains sub s')%bool
  end.

(** [s.replace(old, new)] for a non-empty [old]: occurrences are replaced
    from left to right without overlap.  [skip] counts the characters of an
    occurrence that are still to be dropped. *)
Fixpoint replace_from (old new : str) (s : str) (skip : nat) : str :=
  match s with
  | [] => []
  | c :: s' =>
      match skip with
      | S k => replace_from old new s' k
      | O =>
          if starts_with old s
          then new ++ replace_from old new s' (length old - 1)
          else c :: replace_from old new s' 0
      end
  end.

Definition replace (old new s : str) : str := replace_from old new s 0.

(** [s.split(sep)] for a one-character separator. *)
Fixpoint split (sep : ascii) (s : str) : list str :=
  match s with
  | [] => [[]]
  | c :: s' =>
      if Ascii.eqb c sep then [] :: split sep s'
      else match split sep s' with
           | [] => [[c]]
           | w :: ws => (c :: w) :: ws
           end
  end.

(** Code-point order on characters and the lexicographic order on strings
    that Python uses for [<] and for sorting. *)
Fixpoint compare (a b : str) : comparison :=
  match a, b with
  | [], [] => Eq
  | [], _ :: _ => Lt
  | _ :: _, [] => Gt
  | x :: a', y :: b' =>
      match N.compare (code x) (code y) with
      | Eq => compare a' b'
      | c => c
      end
  end.

End Str.

Import Str.

(** ** Exceptions *)

Inductive exn : Type :=
| ValueError
| TypeError
| AttributeError
| OverflowError.

Inductive result (A : Type) : Type :=
| Ok (a : A)
| Raise (e : exn).

Arguments Ok {A} a.
Arguments Raise {A} e.

Definition bind {A B : Type} (m : result A) (f : A -> result B) : result B :=
  match m with
  | Ok a => f a
  | Raise e => Raise e
  end.

Notation "x <- m ;; k" := (bind m (fun x => k))
  (at level 61, m at next level, right associativity).

(** ** Python floats (binary64) *)

Module Float.

Definition prec : Z := 53.
Definition emax : Z := 1024.

Definition float := spec_float.

Definition zero : float := S754_zero false.
Definition nan : float := S754_nan.

Definition ltb : float -> float -> bool := SFltb.
Definition leb : float -> float -> bool := SFleb.
Definition eqb : float -> float -> bool := SFeqb.
Definition sub : float -> float -> float := SFsub prec emax.

(** The binary64 number nearest to [n / d] (ties to even); the quotient is
    taken with enough bits for the rounding position to be known exactly. *)
Definition of_ratio (sgn : bool) (n d : positive) : float :=
  let e' := Z.min (fexp prec emax (Zdigits2 (Zpos n) - Zdigits2 (Zpos d))) 0 in
  let m' := Z.shiftl (Zpos n) (- e') in
  let '(q, r) := Z.div_eucl m' (Zpos d) in
  binary_round_aux prec emax sgn q e' (new_location (Zpos d) r).

(** The binary64 number nearest to [m * 10^e]. *)
Definition of_decimal (sgn : bool) (m : Z) (e : Z) : float :=
  match m with
  | Zpos p =>
      if (0 <=? e)%Z then of_ratio sgn (p * Z.to_pos (10 ^ e)) 1
      else of_ratio sgn p (Z.to_pos (10 ^ (- e)))
  | _ => S754_zero sgn
  end.

(** [float(n)] for a Python int. *)
Definition of_int (z : Z) : result float :=
  match binary_normalize prec emax z 0 false with
  | S754_infinity _ => Raise OverflowError
  | f => Ok f
  end.

(** Nearest integer to [a / b], ties to even ([b > 0]). *)
Definition div_half_even (a b : Z) : Z :=
  let '(q, r) := Z.div_eucl a b in
  match (2 * r ?= b)%Z with
  | Lt => q
  | Gt => (q + 1)%Z
  | Eq => if Z.even q then q else (q + 1)%Z
  end.

(** [round(x, 2)]: the exact binary value is rounded to two decimals (ties to
    even) and the decimal result is converted back to binary64. *)
Definition round2 (x : float) : float :=
  match x with
  | S754_finite s m e =>
      let n := if (0 <=? e)%Z then (100 * Zpos m * 2 ^ e)%Z
               else div_half_even (100 * Zpos m) (2 ^ (- e)) in
      match n with
      | Zpos p => of_ratio s p 100
      | _ => S754_zero s
      end
  | _ => x
  end.

(** *** [float(s)] for a string *)

(** C [isspace] in the C locale, the set that [float] strips. *)
Definition is_c_space (c : ascii) : bool :=
  (in_range 9 13 c || in_range 32 32 c)%bool.

Definition digit_val (c : ascii) : Z := Z.of_N (code c) - 48.

(** Underscores may only stand between two digits; they are removed. *)
Fixpoint drop_underscores (prev : option ascii) (s : str) : option str :=
  match s with
  | [] =>
      match prev with
      | Some "_"%char => None
      | _ => Some []
      end
  | c :: s' =>
      if Ascii.eqb c "_"
      then match prev with
           | Some p => if is_digit p then drop_underscores (Some c) s' else None
           | None => None
           end
      else
        let ok := match prev with
                  | Some "_"%char => is_digit c
                  | _ => true
                  end in
        if ok then option_map (cons c) (drop_underscores (Some c) s') else None
  end.

(** Reads a maximal run of digits: accumulated value, digit count, rest. *)
Fixpoint digits (s : str) (acc : Z) (n : nat) : Z * nat * str :=
  match s with
  | c :: s' => if is_digit c then digits s' (10 * acc + digit_val c)%Z (S n)
               else (acc, n, s)
  | [] => (acc, n, s)
  end.

Definition sign (s : str) : bool * str :=
  match s with
  | "-"%char :: s' => (true, s')
  | "+"%char :: s' => (false, s')
  | _ => (false, s)
  end.

Definition parse_inf_nan (s : str) : option float :=
  let '(sg, r) := sign s in
  let r := lower r in
  if Str.eqb r (lit "inf") || Str.eqb r (lit "infinity") then Some (S754_infinity sg)
  else if Str.eqb r (lit "nan") then Some S754_nan
  else None.

Definition parse_decimal (s : str) : option float :=
  let '(sg, s1) := sign s in
  let '(ip, ni, s2) := digits s1 0 0 in
  let '(m, nf, s3) :=
    match s2 with
    | "."%char :: t => digits t ip 0
    | _ => (ip, 0, s2)
    end in
  if (ni + nf =? 0)%nat then None
  else
    match s3 with
    | [] => Some (of_decimal sg m (- Z.of_nat nf))
    | c :: t =>
        if Ascii.eqb (lower_char c) "e" then
          let '(esg, t1) := sign t in
          let '(ev, ne, t2) := digits t1 0 0 in
          match ne, t2 with
          | S _, [] =>
              Some (of_decimal sg m ((if esg then - ev else ev) - Z.of_nat nf))
          | _, _ => None
          end
        else None
    end.

Definition of_str (s : str) : result float :=
  let s := strip_with is_c_space s in
  let body := if existsb (Ascii.eqb "_") s then drop_underscores None s
              else Some s in
  match body with
  | None => Raise ValueError
  | Some b =>
      match parse_inf_nan b with
      | Some f => Ok f
      | None =>
          match parse_decimal b with
          | Some f => Ok f
          | None => Raise ValueError
          end
      end
  end.

(** Python's [max] and [min] over a non-empty list keep the first element
    and replace it only on a strict comparison, which is always false when a
    NaN is involved. *)
Definition max_list (x : float) (l : list float) : float :=
  fold_left (fun m y => if ltb m y then y else m) l x.

Definition min_list (x : float) (l : list float) : float :=
  fold_left (fun m y => if ltb y m then y else m) l x.

Definition ten : float := S754_finite false 5629499534213120 (-49).

End Float.

Import Float.

(** ** Regular expressions

    The three patterns of the program only repeat one-character classes, so
    the engine has a greedy star over a class, a greedy option, sequencing
    and capturing groups.  Matching backtracks like Python's [re]: a star
    first takes as many characters as it can and gives them back one at a
    time.  The captured groups of the program's patterns are never inside an
    option. *)

Module Re.

Inductive regex : Type :=
| Eps
| Chr (p : ascii -> bool)
| Star (p : ascii -> bool)
| Opt (r : regex)
| Seq (r1 r2 : regex)
| Group (r : regex).

Section Run.
Variable R : Type.

Fixpoint star (p : ascii -> bool) (s : str) (n : nat)
         (k : str -> nat -> option R) : option R :=
  match s with
  | c :: s' =>
      if p c then
        match star p s' (S n) k with
        | Some r => Some r
        | None => k s n
        end
      else k s n
  | [] => k s n
  end.

(** [run r s n caps k]: match [r] at the head of [s], [n] characters of
    the attempt being consumed already, then continue with [k]. *)
Fixpoint run (r : regex) (s : str) (n : nat) (caps : list str)
         (k : str -> nat -> list str -> option R) : option R :=
  match r with
  | Eps => k s n caps
  | Chr p =>
      match s with
      | c :: s' => if p c then k s' (S n) caps else None
      | [] => None
      end
  | Star p => star p s n (fun s' n' => k s' n' caps)
  | Opt r' =>
      match run r' s n caps k with
      | Some x => Some x
      | None => k s n caps
      end
  | Seq r1 r2 => run r1 s n caps (fun s' n' caps' => run r2 s' n' caps' k)
  | Group r' =>
      run r' s n caps
          (fun s' n' caps' => k s' n' (caps' ++ [firstn (n' - n) s]))
  end.
End Run.

(** A match at the head of [s]: its length and its groups. *)
Definition match_here (r : regex) (s : str) : option (nat * list str) :=
  run r s 0 [] (fun _ n caps => Some (n, caps)).

(** [re.findall(r, s)]: leftmost matches, scanned from left to right without
    overlap.  [skip] counts the characters of the last match that are
    still to be passed. *)
Fixpoint findall_from (r : regex) (s : str) (skip : nat) : list (list str) :=
  match s with
  | [] =>
      match skip, match_here r [] with
      | O, Some (_, caps) => [caps]
      | _, _ => []
      end
  | _ :: s' =>
      match skip with
      | S k => findall_from r s' k
      | O =>
          match match_here r s with
          | Some (n, caps) => caps :: findall_from r s' (n - 1)
          | None => findall_from r s' 0
          end
      end
  end.

Definition findall (r : regex) (s : str) : list (list str) :=
  findall_from r s 0.

(** [re.sub(r, '', s)] for a pattern that matches no empty string. *)
Fixpoint delete_from (r : regex) (s : str) (skip : nat) : str :=
  match s with
  | [] => []
  | c :: s' =>
      match skip with
      | S k => delete_from r s' k
      | O =>
          match match_here r s with
          | Some (S n, _) => delete_from r s' n
          | _ => c :: delete_from r s' 0
          end
      end
  end.

Definition delete_all (r : regex) (s : str) : str := delete_from r s 0.

(** Building blocks. *)
Definition seq (rs : list regex) : regex := fold_right Seq Eps rs.
Definition chr (c : ascii) : regex := Chr (Ascii.eqb c).
Definition chr_i (c : ascii) : regex := Chr (fun x => Ascii.eqb (lower_char x) c).
Definition word (s : str) : regex := seq (map chr s).
Definition word_i (s : str) : regex := seq (map chr_i s).
Definition plus (p : ascii -> bool) : regex := Seq (Chr p) (Star p).

Definition cls_w (c : ascii) : bool :=
  (is_digit c || is_upper c || is_lower c || Ascii.eqb c "_")%bool.
Definition dquote : ascii := ascii_of_nat 34.
Definition cls_not_quote (c : ascii) : bool := negb (Ascii.eqb c dquote).
Definition cls_num (c : ascii) : bool := (is_digit c || Ascii.eqb c ".")%bool.
Definition cls_dot (c : ascii) : bool := negb (Ascii.eqb c (ascii_of_nat 10)).
Definition ws : regex := Star is_space.

End Re.

(** ** Values of parsed JSON documents *)

#[local] Unset Elimination Schemes.

Inductive pyval : Type :=
| PNone
| PBool (b : bool)
| PInt (z : Z)
| PFloat (f : float)
| PStr (s : str)
| PList (l : list pyval)
| PDict (d : list (str * pyval)).

#[local] Set Elimination Schemes.

(** The items of a dict, keys unique; lookup by key. *)
Fixpoint dict_get {V : Type} (d : list (str * V)) (k : str) : option V :=
  match d with
  | [] => None
  | (k', v) :: d' => if Str.eqb k' k then Some v else dict_get d' k
  end.

Definition dict_has {V : Type} (d : list (str * V)) (k : str) : bool :=
  match dict_get d k with
  | Some _ => true
  | None => false
  end.

(** [d.get(k, default)] *)
Definition get_default {V : Type} (d : list (str * V)) (k : str) (v : V) : V :=
  match dict_get d k with
  | Some x => x
  | None => v
  end.

(** [not v] *)
Definition falsy (v : pyval) : bool :=
  match v with
  | PNone => true
  | PBool b => negb b
  | PInt z => Z.eqb z 0
  | PFloat f => Float.eqb f zero
  | PStr s => match s with [] => true | _ => false end
  | PList l => match l with [] => true | _ => false end
  | PDict d => match d with [] => true | _ => false end
  end.

(** [float(v)] *)
Definition py_float (v : pyval) : result float :=
  match v with
  | PBool b => Float.of_int (if b then 1 else 0)
  | PInt z => Float.of_int z
  | PFloat f => Ok f
  | PStr s => Float.of_str s
  | PNone | PList _ | PDict _ => Raise TypeError
  end.

(** ** The printer record *)

Record volume : Type := Volume { x : float; y : float; z : float }.

Record printer : Type := Printer {
  brand : str;
  model : str;
  technology : str;
  vol : volume;
  image_url : option str;
  source : str
}.

(** The sort key of both [sort] calls: [(p['brand'].lower(), p['model'].lower())],
    compared as Python compares tuples of strings. *)
Definition sort_key (p : printer) : str * str := (lower (brand p), lower (model p)).

Definition key_compare (a b : str * str) : comparison :=
  match Str.compare (fst a) (fst b) with
  | Eq => Str.compare (snd a) (snd b)
  | c => c
  end.

Definition key_leb (a b : str * str) : bool :=
  match key_compare a b with
  | Gt => false
  | _ => true
  end.

(** [list.sort(key=...)] is stable; on a list it returns what a stable
    insertion sort returns. *)
Fixpoint insert_sorted (p : printer) (l : list printer) : list printer :=
  match l with
  | [] => [p]
  | q :: l' =>
      if key_leb (sort_key p) (sort_key q) then p :: l
      else q :: insert_sorted p l'
  end.

Definition sort_printers (l : list printer) : list printer :=
  fold_right insert_sorted [] l.

(** The key of the [seen] sets of both extractors:
    [f"{brand.lower()}|{model.lower()}"]. *)
Definition unique_key (b m : str) : str := lower b ++ lit "|" ++ lower m.

(** ** extract_fdm.py *)

Module Fdm.

Definition BLACKLIST_KEYWORDS : list str :=
  [ lit "hotend"; lit "hot end"; lit "all-metal"; lit "nozzle"; lit "plate";
    lit "kit"; lit "extruder"; lit "sheet"; lit "smooth"; lit "textured";
    lit "satin"; lit "cool"; lit "engineering"; lit "high temp";
    lit "hardened"; lit "chamber"; lit "auxiliary" ].

(** One entry of [printable_area]: what the loop body appends to
    [x_coords] and to [y_coords]. *)
Definition add_point (acc : list float * list float) (point : pyval)
  : list float * list float :=
  let '(xs, ys) := acc in
  match point with
  | PStr s =>
      if contains (lit "x") s then
        match split "x" s with
        | p0 :: p1 :: _ =>
            match Float.of_str p0 with
            | Ok fx =>
                match Float.of_str p1 with
                | Ok fy => (xs ++ [fx], ys ++ [fy])
                | Raise _ => (xs ++ [fx], ys)
                end
            | Raise _ => acc
            end
        | _ => acc
        end
      else acc
  | _ => acc
  end.

Definition coords (area : list pyval) : list float * list float :=
  fold_left add_point area ([], []).

Definition span (l : list float) : float :=
  match l with
  | [] => zero
  | a :: l' => Float.round2 (Float.sub (Float.max_list a l') (Float.min_list a l'))
  end.

(** Method 1: the footprint after the [printable_area] block; the initial
    [0] entries are the float zero. *)
Definition polygon_footprint (data : list (str * pyval)) : float * float :=
  match dict_get data (lit "printable_area") with
  | Some (PList area) =>
      if (4 <=? length area)%nat then
        match coords area with
        | ((_ :: _) as xs, (_ :: _) as ys) => (span xs, span ys)
        | _ => (zero, zero)
        end
      else (zero, zero)
  | _ => (zero, zero)
  end.

(** The height; the initial [0] is the float zero here too. *)
Definition height (data : list (str * pyval)) : result float :=
  match dict_get data (lit "printable_height") with
  | Some v => py_float v
  | None =>
      match dict_get data (lit "machine_max_print_height") with
      | Some v => py_float v
      | None => Ok zero
      end
  end.

Definition parse_volume (data : list (str * pyval)) : result volume :=
  let '(px, py) := polygon_footprint data in
  xy <- (if Float.eqb px zero then
           bx <- py_float (get_default data (lit "bed_width") (PInt 0)) ;;
           by_ <- py_float (get_default data (lit "bed_depth") (PInt 0)) ;;
           Ok (bx, by_)
         else Ok (px, py)) ;;
  h <- height data ;;
  Ok (Volume (fst xy) (snd xy) h).

(** [\s+\d+(\.\d+)?\s*(mm)?\s*nozzle], ignoring case *)
Definition nozzle_spec : Re.regex :=
  Re.seq [ Re.plus is_space; Re.plus is_digit;
           Re.Opt (Re.Group (Re.Seq (Re.chr ".") (Re.plus is_digit)));
           Re.ws; Re.Opt (Re.Group (Re.word_i (lit "mm"))); Re.ws;
           Re.word_i (lit "nozzle") ].

(** [\s*\(.*nozzle.*\)], ignoring case *)
Definition nozzle_paren : Re.regex :=
  Re.seq [ Re.ws; Re.chr "("; Re.Star Re.cls_dot; Re.word_i (lit "nozzle");
           Re.Star Re.cls_dot; Re.chr ")" ].

Definition get_base_model_name (name brand : str) : str :=
  let name :=
    if starts_with (lower brand ++ lit " ") (lower name)
    then strip (skipn (length brand + 1) name)
    else name in
  let name := Re.delete_all nozzle_spec name in
  let name := Re.delete_all nozzle_paren name in
  strip name.

Definition is_blacklisted (name : str) : bool :=
  existsb (fun kw => contains kw (lower name)) BLACKLIST_KEYWORDS.

(** The network, as the helpers [get_brands], [get_machine_files],
    [parse_machine_json] and [find_image_url] report it. *)
Record file_info : Type := FileInfo {
  fi_name : str;
  fi_download_url : option str
}.

Record upstream : Type := Upstream {
  get_brands : list str;
  get_machine_files : str -> list file_info;
  parse_machine_json : str -> option pyval;
  find_image_url : str -> str -> option str
}.

(** [key in data] for the values a JSON document can be. *)
Definition has_key (data : pyval) (k : str) : result bool :=
  match data with
  | PDict d => Ok (dict_has d k)
  | PList l =>
      Ok (existsb (fun v => match v with PStr s => Str.eqb s k | _ => false end) l)
  | PStr s => Ok (contains k s)
  | _ => Raise TypeError
  end.

(** [data.get('printer_model', data.get('name', stem))] *)
Definition raw_name_of (d : list (str * pyval)) (file_name : str) : pyval :=
  get_default d (lit "printer_model")
    (get_default d (lit "name")
       (PStr (replace (lit ".json") [] file_name))).

Definition state : Type := list printer * list str.

(** The body of the inner loop for one candidate file. *)
Definition step (up : upstream) (b : str) (st : state) (fi : file_info)
  : result state :=
  match fi_download_url fi with
  | None | Some [] => Ok st
  | Some url =>
      match parse_machine_json up url with
      | None => Ok st
      | Some data =>
          if falsy data then Ok st
          else
            has_area <- has_key data (lit "printable_area") ;;
            has_height <- (if has_area then Ok true
                           else has_key data (lit "printable_height")) ;;
            if negb has_height then Ok st
            else
              match data with
              | PDict d =>
                  match raw_name_of d (fi_name fi) with
                  | PStr raw_name =>
                      if is_blacklisted raw_name then Ok st
                      else
                        let m := get_base_model_name raw_name b in
                        let key := unique_key b m in
                        if existsb (Str.eqb key) (snd st) then Ok st
                        else
                          let seen := key :: snd st in
                          v <- parse_volume d ;;
                          if Float.ltb (x v) ten then Ok (fst st, seen)
                          else
                            Ok (fst st ++
                                  [Printer b m (lit "FDM") v
                                           (find_image_url up b m)
                                           (lit "OrcaSlicer")],
                                seen)
                  | _ => Raise AttributeError
                  end
              | _ => Raise AttributeError
              end
      end
  end.

Fixpoint fold_result {A S : Type} (f : S -> A -> result S) (l : list A) (s : S)
  : result S :=
  match l with
  | [] => Ok s
  | a :: l' => s' <- f s a ;; fold_result f l' s'
  end.

Definition extract_fdm_printers (up : upstream) : result (list printer) :=
  st <- fold_result
          (fun st b => fold_result (step up b) (get_machine_files up b) st)
          (get_brands up) ([], []) ;;
  Ok (fst st).

End Fdm.

(** ** extract_sla.py *)

Module Sla.

Definition BLACKLIST_MODELS : list str :=
  [ lit "custom"; lit "default"; lit "generic"; lit "unknown"; lit "test" ].

(** What [requests.get] followed by [raise_for_status] can do: raise one of
    the [RequestException]s of the transport, or deliver a response, whose
    status is turned into an [HTTPError] when it is a client or server error
    status (400 to 599). *)
Inductive transport_error : Type :=
| ConnectionError
| Timeout
| TooManyRedirects.

Inductive http_outcome : Type :=
| Failed (e : transport_error)
| Response (status : Z) (text : str).

Definition raises_for_status (status : Z) : bool :=
  ((400 <=? status) && (status <? 600))%Z.

Definition fetch_machine_cs (o : http_outcome) : str :=
  match o with
  | Failed _ => []
  | Response status text => if raises_for_status status then [] else text
  end.

(** [new\s*\(\s*PrinterBrand\.(\w+)\s*,\s*Q([^Q]+)Q\s*,\s*(\d+)\s*,\s*(\d+)\s*,
     \s*([\d.]+)f?\s*,\s*([\d.]+)f?\s*,\s*([\d.]+)f?], where [Q] stands
    for the double quote character. *)
Definition pattern : Re.regex :=
  let comma := Re.seq [ Re.ws; Re.chr ","; Re.ws ] in
  let num := Re.Seq (Re.Group (Re.plus Re.cls_num)) (Re.Opt (Re.chr "f")) in
  Re.seq [ Re.word (lit "new"); Re.ws; Re.chr "("; Re.ws;
           Re.word (lit "PrinterBrand"); Re.chr ".";
           Re.Group (Re.plus Re.cls_w); comma;
           Re.chr Re.dquote; Re.Group (Re.plus Re.cls_not_quote);
           Re.chr Re.dquote; comma;
           Re.Group (Re.plus is_digit); comma;
           Re.Group (Re.plus is_digit); comma;
           num; comma; num; comma; num ].

Definition state : Type := list printer * list str.

(** The loop body for one match. *)
Definition step (st : state) (m : list str) : result state :=
  match m with
  | [b; mdl; res_x; res_y; display_width; display_height; machine_z] =>
      if existsb (Str.eqb (lower mdl)) BLACKLIST_MODELS then Ok st
      else
        let key := unique_key b mdl in
        if existsb (Str.eqb key) (snd st) then Ok st
        else
          let seen := key :: snd st in
          vx <- Float.of_str display_width ;;
          vy <- Float.of_str display_height ;;
          vz <- Float.of_str machine_z ;;
          Ok (fst st ++
                [Printer b mdl (lit "SLA")
                         (Volume (Float.round2 vx) (Float.round2 vy) (Float.round2 vz))
                         None (lit "UVtools")],
              seen)
  | _ => Raise ValueError
  end.

Definition parse_machines (cs_content : str) : result (list printer) :=
  st <- Fdm.fold_result step (Re.findall pattern cs_content) ([], []) ;;
  Ok (fst st).

Definition extract_sla_printers (o : http_outcome) : result (list printer) :=
  match fetch_machine_cs o with
  | [] => Ok []
  | cs_content =>
      printers <- parse_machines cs_content ;;
      Ok (sort_printers printers)
  end.

End Sla.

(** ** main_build.py *)

Module Build.

Definition brand_norm (b : str) : str :=
  replace (lit " ") (lit "_") (strip (lower b)).

Definition model_norm (m : str) : str :=
  replace (lit "-") (lit "_") (replace (lit " ") (lit "_") (strip (lower m))).

Definition normalize_key (b m : str) : str :=
  brand_norm b ++ lit "|" ++ model_norm m.

(** [d[k] = v] on an insertion-ordered dict: an existing key keeps its
    place and takes the new value, a new key goes last. *)
Fixpoint dict_set {V : Type} (d : list (str * V)) (k : str) (v : V)
  : list (str * V) :=
  match d with
  | [] => [(k, v)]
  | (k', v') :: d' =>
      if Str.eqb k' k then (k', v) :: d' else (k', v') :: dict_set d' k v
  end.

Definition tech_key (suffix : str) (p : printer) : str :=
  normalize_key (brand p) (model p) ++ suffix.

Definition add_all (suffix : str) (l : list printer) (d : list (str * printer))
  : list (str * printer) :=
  fold_left (fun d p => dict_set d (tech_key suffix p) p) l d.

Definition merged (fdm_list sla_list : list printer) : list (str * printer) :=
  add_all (lit "|sla") sla_list (add_all (lit "|fdm") fdm_list []).

Definition merge_printers (fdm_list sla_list : list printer) : list printer :=
  sort_printers (map snd (merged fdm_list sla_list)).

(** The printer list that [main] saves. *)
Definition all_printers (up : Fdm.upstream) (o : Sla.http_outcome)
  : result (list printer) :=
  fdm_printers <- Fdm.extract_fdm_printers up ;;
  sla_printers <- Sla.extract_sla_printers o ;;
  Ok (merge_printers fdm_printers sla_printers).

End Build.

(** ** Notions used in the statements *)

(** The order of the final list: case-insensitive (brand, model). *)
Definition key_le (p q : printer) : Prop :=
  key_leb (sort_key p) (sort_key q) = true.

Definition has_sort_key (k : str * str) (p : printer) : bool :=
  (Str.eqb (fst (sort_key p)) (fst k) && Str.eqb (snd (sort_key p)) (snd k))%bool.

(** The normalized key of a record and its normalized
    (brand, model, technology) triple. *)
Definition norm_key (p : printer) : str :=
  Build.normalize_key (brand p) (model p).

Definition norm_triple (p : printer) : str * str * str :=
  (Build.brand_norm (brand p), Build.model_norm (model p), technology p).

Definition has_norm_key (k : str) (p : printer) : bool :=
  Str.eqb (norm_key p) k.

(** The last record of a list that has a given normalized key. *)
Definition last_with_key (k : str) (l : list printer) : option printer :=
  fold_left (fun acc p => if has_norm_key k p then Some p else acc) l None.


(** Whole millimetres as a float. *)
Definition mm (n : Z) : float := Float.of_decimal false n 0.

(** Two records of one resin printer, spelt with a space and with a hyphen. *)
Definition mars_a : printer :=
  Printer (lit "Elegoo") (lit "Mars 3") (lit "SLA")
          (Volume (mm 143) (mm 90) (mm 175)) None (lit "OrcaSlicer").

Definition mars_b : printer :=
  Printer (lit "Elegoo") (lit "Mars-3") (lit "SLA")
          (Volume (mm 143) (mm 90) (mm 175)) None (lit "UVtools").

(** An upstream with one brand whose machine directory lists the given
    files; two of them describe one printer, spelt with a hyphen and with a
    space. *)
Definition ender_json (name : str) (width : Z) : pyval :=
  PDict [ (lit "printer_model", PStr name);
          (lit "printable_height", PInt 250);
          (lit "bed_width", PInt width);
          (lit "bed_depth", PInt width) ].

Definition file_hyphen : Fdm.file_info :=
  Fdm.FileInfo (lit "Ender-3.json") (Some (lit "raw/Ender-3.json")).

Definition file_space : Fdm.file_info :=
  Fdm.FileInfo (lit "Ender 3.json") (Some (lit "raw/Ender 3.json")).

Definition creality (files : list Fdm.file_info) : Fdm.upstream :=
  Fdm.Upstream [lit "Creality"] (fun _ => files)
    (fun url =>
       if Str.eqb url (lit "raw/Ender-3.json") then Some (ender_json (lit "Ender-3") 220)
       else if Str.eqb url (lit "raw/Ender 3.json") then Some (ender_json (lit "Ender 3") 235)
       else None)
    (fun _ _ => None).

Definition ender (name : str) (width : Z) : printer :=
  Printer (lit "Creality") name (lit "FDM")
          (Volume (mm width) (mm width) (mm 250)) None (lit "OrcaSlicer").

(** A resin machine whose display is narrower than 10 mm, as a line of
    [Machine.cs]. *)
Definition tiny_line : str :=
  lit "new(PrinterBrand.Tiny, " ++ [Re.dquote] ++ lit "Nano" ++ [Re.dquote]
  ++ lit ", 480, 320, 9.6f, 5.4f, 20f, FlipDirection.None),".

(** What the threshold test of the FDM extractor lets through. *)
Definition not_below_threshold (p : printer) : Prop :=
  Float.ltb (x (vol p)) Float.ten = false.

(** The chain as the specification words it: the first non-empty value
    wins. *)
Definition first_non_empty_name (d : list (str * pyval)) (file_name : str)
  : pyval :=
  let stem := PStr (replace (lit ".json") [] file_name) in
  let by_name :=
    match dict_get d (lit "name") with
    | Some v => if falsy v then stem else v
    | None => stem
    end in
  match dict_get d (lit "printer_model") with
  | Some v => if falsy v then by_name else v
  | None => by_name
  end.

(** A machine file with an empty model field and a name. *)
Definition empty_model_json : list (str * pyval) :=
  [ (lit "printer_model", PStr []);
    (lit "name", PStr (lit "Ender 3"));
    (lit "printable_height", PInt 250) ].

(** The coordinates of a well-formed 'WxH' entry of [printable_area]. *)
Definition point_of (v : pyval) : option (float * float) :=
  match v with
  | PStr s =>
      if contains (lit "x") s then
        match split "x" s with
        | p0 :: p1 :: _ =>
            match Float.of_str p0, Float.of_str p1 with
            | Ok a, Ok b => Some (a, b)
            | _, _ => None
            end
        | _ => None
        end
      else None
  | _ => None
  end.

Definition polygon_json (points : list string) (extra : list (str * pyval))
  : list (str * pyval) :=
  (lit "printable_area", PList (map (fun s => PStr (lit s)) points)) :: extra.

(** The rectangle of the scenario and the triangle made of its first three
    corners. *)
Definition rectangle : list string := ["0x0"; "250x0"; "250x210"; "0x210"]%string.
Definition triangle : list string := ["0x0"; "250x0"; "250x210"]%string.

Definition corners (n : nat) : list (float * float) :=
  firstn n [ (zero, zero); (mm 250, zero); (mm 250, mm 210); (zero, mm 210) ].

(** A fetch that delivers no document. *)
Definition fetch_failed (o : Sla.http_outcome) : Prop :=
  match o with
  | Sla.Failed _ => True
  | Sla.Response status _ => (400 <= status < 600)%Z
  end.

(** A text of ASCII characters (code points below 128): on these [lower]
    and [strip] are [str.lower] and [str.strip]. *)
Definition ascii_only (s : str) : bool :=
  forallb (fun c => N.ltb (code c) 128) s.

(** What [normalize_key] does to a character of the brand and of the
    model, once lower-cased and stripped. *)
Definition brand_char (c : ascii) : ascii :=
  if Ascii.eqb " " c then "_"%char else c.

Definition model_char (c : ascii) : ascii :=
  if Ascii.eqb "-" (brand_char c) then "_"%char else brand_char c.

(** A definition line of [Machine.cs] up to its seventh value. *)
Definition machine_line (brand_name model_name values : string) : str :=
  lit "new(PrinterBrand." ++ lit brand_name ++ lit ", " ++ [Re.dquote]
  ++ lit model_name ++ [Re.dquote] ++ lit ", " ++ lit values.

Definition newline : ascii := ascii_of_nat 10.

(** One machine listed twice, with a space and with a hyphen. *)
Definition two_mars : str :=
  machine_line "Elegoo" "Mars 3" "4098, 2560, 143.43f, 89.6f, 175f),"
  ++ [newline]
  ++ machine_line "Elegoo" "Mars-3" "4098, 2560, 143.43f, 89.6f, 175f),".

(** The line of the scenario up to its seventh value, and its record. *)
Definition photon_line : str :=
  machine_line "Anycubic" "Photon M3" "4096, 2560, 163.84f, 102.40f, 180f".

Definition photon_m3 : printer :=
  Printer (lit "Anycubic") (lit "Photon M3") (lit "SLA")
          (Volume (Float.of_decimal false 16384 (-2))
                  (Float.of_decimal false 1024 (-1))
                  (mm 180))
          None (lit "UVtools").

(** An earlier definition of the same machine with other values. *)
Definition photon_draft : str :=
  machine_line "Anycubic" "Photon M3" "4096, 2560, 160f, 100f, 170f),".

(** The seven groups that the pattern captures on the scenario line. *)
Definition photon_groups : list str :=
  [ lit "Anycubic"; lit "Photon M3"; lit "4096"; lit "2560";
    lit "163.84"; lit "102.40"; lit "180" ].

(** ** find_image_url (extract_fdm.py) over an explicit HEAD oracle *)

Module Probe.

Definition GITHUB_RAW_BASE : str :=
  lit "https://raw.githubusercontent.com/SoftFever/OrcaSlicer/main".

Definition PROFILES_PATH : str := lit "resources/profiles".

(** The two candidate URLs, in the order they are tried. *)
Definition candidates (brand_name model_name : str) : list str :=
  let safe_name := replace (lit " ") (lit "_") (brand_name ++ lit " " ++ model_name) in
  [ GITHUB_RAW_BASE ++ lit "/" ++ PROFILES_PATH ++ lit "/" ++ brand_name
      ++ lit "/" ++ brand_name ++ lit " " ++ model_name ++ lit "_cover.png";
    GITHUB_RAW_BASE ++ lit "/" ++ PROFILES_PATH ++ lit "/" ++ brand_name
      ++ lit "/" ++ safe_name ++ lit "_cover.png" ].

(** [url.replace(' ', '%20')] *)
Definition quote_spaces (url : str) : str := replace (lit " ") (lit "%20") url.

(** The loop over the candidates; [head url] is the status code that
    [requests.head] reports, [None] when it raises a [RequestException]. *)
Fixpoint probe (head : str -> option Z) (urls : list str) : option str :=
  match urls with
  | [] => None
  | url :: rest =>
      match head (quote_spaces url) with
      | Some status =>
          if (status =? 200)%Z then Some (quote_spaces url) else probe head rest
      | None => probe head rest
      end
  end.

Definition find_image_url (head : str -> option Z) (brand_name model_name : str)
  : option str :=
  probe head (candidates brand_name model_name).

End Probe.

(** ** generate_metadata (main_build.py) *)

Module Meta.

Record metadata : Type := Metadata {
  last_updated : str;
  total_printers : nat;
  fdm_count : nat;
  sla_count : nat;
  with_images : nat;
  brand_count : nat;
  brands : list str;
  sources : list (str * str)
}.

(** [p.get('image_url')] as a condition: a non-empty string. *)
Definition has_image (p : printer) : bool :=
  match image_url p with
  | Some (_ :: _) => true
  | _ => false
  end.

(** [sorted(set(...))]: whatever order the set is walked in, the result is
    the strictly increasing list of the distinct elements. *)
Fixpoint insert_brand (b : str) (l : list str) : list str :=
  match l with
  | [] => [b]
  | c :: l' =>
      match Str.compare b c with
      | Lt => b :: l
      | Eq => l
      | Gt => c :: insert_brand b l'
      end
  end.

Definition sorted_set (l : list str) : list str := fold_right insert_brand [] l.

(** [now] is the build time, [datetime.now(timezone.utc).isoformat()]. *)
Definition generate_metadata (now : str) (printers : list printer) : metadata :=
  let brand_list := sorted_set (map brand printers) in
  Metadata now
           (length printers)
           (length (filter (fun p => Str.eqb (technology p) (lit "FDM")) printers))
           (length (filter (fun p => Str.eqb (technology p) (lit "SLA")) printers))
           (length (filter has_image printers))
           (length brand_list)
           brand_list
           [ (lit "fdm", lit "https://github.com/SoftFever/OrcaSlicer");
             (lit "sla", lit "https://github.com/sn4k3/UVtools") ].

End Meta.

(** ** Further notions used in the statements *)

(** [t] occurs in [s]. *)
Definition substring (t s : str) : Prop := exists a b, s = a ++ t ++ b.

(** The shape of a record of each extractor. *)
Definition sla_shape (p : printer) : Prop :=
  technology p = lit "SLA" /\ image_url p = None /\ source p = lit "UVtools" /\
  existsb (Str.eqb (lower (model p))) Sla.BLACKLIST_MODELS = false.

Definition fdm_shape (up : Fdm.upstream) (p : printer) : Prop :=
  technology p = lit "FDM" /\ source p = lit "OrcaSlicer" /\
  In (brand p) (Fdm.get_brands up) /\
  image_url p = Fdm.find_image_url up (brand p) (model p) /\
  strip (model p) = model p /\
  Fdm.is_blacklisted (model p) = false.

(** What the loops keep true of their accumulator and [seen] set. *)
Definition sla_inv (st : Sla.state) : Prop :=
  (forall q, In q (fst st) -> In (unique_key (brand q) (model q)) (snd st)) /\
  NoDup (map sort_key (fst st)) /\
  Forall sla_shape (fst st).

Definition fdm_inv (up : Fdm.upstream) (st : Fdm.state) : Prop :=
  (forall q, In q (fst st) -> In (unique_key (brand q) (model q)) (snd st)) /\
  NoDup (map sort_key (fst st)) /\
  Forall (fdm_shape up) (fst st).

(** [t] is what is left of [s] after some prefix. *)
Definition suffix (t s : str) : Prop := exists a, s = a ++ t.

(** The record that [parse_machines] builds for each line of [two_mars]. *)
Definition mars_record (model_name : string) : printer :=
  Printer (lit "Elegoo") (lit model_name) (lit "SLA")
          (Volume (Float.of_decimal false 14343 (-2))
                  (Float.of_decimal false 896 (-1))
                  (mm 175))
          None (lit "UVtools").

(** What a match of a pattern is: the text [t] it consumes and the groups
    [g] it captures, in the order the groups close. *)
Fixpoint matches (r : Re.regex) (t : str) (g : list str) : Prop :=
  match r with
  | Re.Eps => t = [] /\ g = []
  | Re.Chr p => exists c, t = [c] /\ p c = true /\ g = []
  | Re.Star p => Forall (fun c => p c = true) t /\ g = []
  | Re.Opt r' => (t = [] /\ g = []) \/ matches r' t g
  | Re.Seq r1 r2 =>
      exists t1 t2 g1 g2,
        t = t1 ++ t2 /\ g = g1 ++ g2 /\ matches r1 t1 g1 /\ matches r2 t2 g2
  | Re.Group r' => exists g', g = g' ++ [t] /\ matches r' t g'
  end.

(** A non-empty text over a character class. *)
Definition over (p : ascii -> bool) (t : str) : Prop :=
  t <> [] /\ Forall (fun c => p c = true) t.

(** A decimal that [float] accepts among the texts over digits and dots:
    one dot at most and a digit. *)
Definition plain_decimal (t : str) : Prop :=
  exists whole frac,
    Forall (fun c => is_digit c = true) whole /\
    Forall (fun c => is_digit c = true) frac /\
    ((t = whole /\ whole <> []) \/
     (t = whole ++ "."%char :: frac /\ whole ++ frac <> [])).

(** A definition line whose display width has two dots. *)
Definition two_dots_line : str :=
  machine_line "Elegoo" "Saturn" "4098, 2560, 1.2.3f, 89.6f, 175f),".

(** The number of candidate files of an upstream. *)
Definition file_count (up : Fdm.upstream) : nat :=
  list_sum (map (fun b => length (Fdm.get_machine_files up b)) (Fdm.get_brands up)).

(** A JSON document that is no object. *)
Definition not_object (data : pyval) : Prop :=
  match data with
  | PDict _ => False
  | _ => True
  end.

(** The name once the brand prefix is cut off, before the nozzle patterns. *)
Definition without_brand (name brand_name : str) : str :=
  if starts_with (lower brand_name ++ lit " ") (lower name)
  then strip (skipn (length brand_name + 1) name)
  else name.

(** The strict order of the brand list. *)
Definition str_lt (a b : str) : Prop := Str.compare a b = Lt.

(** The key that the [seen] set holds for a record. *)
Definition record_key (p : printer) : str := unique_key (brand p) (model p).

(** The records whose key is not among [keys]. *)
Definition unseen (keys : list str) (l : list printer) : list printer :=
  filter (fun p => negb (existsb (Str.eqb (record_key p)) keys)) l.

(** The record that [parse_machines] builds for [tiny_line]. *)
Definition tiny_record : printer :=
  Printer (lit "Tiny") (lit "Nano") (lit "SLA")
          (Volume (Float.of_decimal false 96 (-1))
                  (Float.of_decimal false 54 (-1))
                  (mm 20))
          None (lit "UVtools").

(** The patterns of the program are rows of steps over character classes:
    exactly one character, any number of them, or at most one.  [atoms]
    reads the row off a pattern whose options are one-character options
    ([flat]). *)
Inductive atom : Type :=
| One (p : ascii -> bool)
| Many (p : ascii -> bool)
| Maybe (p : ascii -> bool).

Fixpoint atoms (r : Re.regex) : list atom :=
  match r with
  | Re.Eps => []
  | Re.Chr p => [One p]
  | Re.Star p => [Many p]
  | Re.Opt (Re.Chr p) => [Maybe p]
  | Re.Opt _ => []
  | Re.Seq r1 r2 => atoms r1 ++ atoms r2
  | Re.Group r' => atoms r'
  end.

Fixpoint flat (r : Re.regex) : bool :=
  match r with
  | Re.Opt (Re.Chr _) => true
  | Re.Opt _ => false
  | Re.Seq r1 r2 => flat r1 && flat r2
  | Re.Group r' => flat r'
  | _ => true
  end.

(** The texts of a row. *)
Fixpoint amatch (l : list atom) (t : str) : Prop :=
  match l with
  | [] => t = []
  | a :: k =>
      match a with
      | One p => exists c t', t = c :: t' /\ p c = true /\ amatch k t'
      | Many p =>
          exists t1 t2,
            t = t1 ++ t2 /\ Forall (fun c => p c = true) t1 /\ amatch k t2
      | Maybe p =>
          amatch k t \/ exists c t', t = c :: t' /\ p c = true /\ amatch k t'
      end
  end.

(** The rows that are left once a row has read the character [c]. *)
Fixpoint astep (c : ascii) (l : list atom) : list (list atom) :=
  match l with
  | [] => []
  | a :: k =>
      match a with
      | One p => if p c then [k] else []
      | Many p => (if p c then [l] else []) ++ astep c k
      | Maybe p => (if p c then [k] else []) ++ astep c k
      end
  end.

(** A row that the empty text satisfies. *)
Definition anull (l : list atom) : bool :=
  forallb (fun a => match a with One _ => false | _ => true end) l.

(** No row of [states] can read a non-empty prefix of a text that starts
    with [w] and be complete: reading [w] character by character, no row
    that is left is ever complete, until none is left. *)
Fixpoint blocked (states : list (list atom)) (w : str) : bool :=
  match w with
  | [] => false
  | c :: w' =>
      let states' := flat_map (astep c) states in
      forallb (fun l => negb (anull l)) states' &&
      match states' with
      | [] => true
      | _ :: _ => blocked states' w'
      end
  end.

Fixpoint tails {A : Type} (l : list A) : list (list A) :=
  match l with
  | [] => [[]]
  | _ :: l' => l :: tails l'
  end.

(** The end of a match attempt that must stay within the first [bound]
    characters. *)
Definition within (bound : nat) (_ : str) (n : nat) (caps : list str)
  : option (nat * list str) :=
  if n <=? bound then Some (n, caps) else None.

(** A machine file whose bed width is the string nan. *)
Definition nan_bed : Fdm.upstream :=
  Fdm.Upstream [lit "Creality"] (fun _ => [file_hyphen])
    (fun _ => Some (PDict [ (lit "printer_model", PStr (lit "Ender-3"));
                            (lit "printable_height", PInt 250);
                            (lit "bed_width", PStr (lit "nan")) ]))
    (fun _ _ => None).

(** Case analysis on the innermost scrutinee of a hypothesis. *)
Ltac break_match H :=
  repeat match type of H with
         | context [match ?c with _ => _ end] =>
             lazymatch c with
             | context [match _ with _ => _ end] => fail
             | _ => destruct c eqn:?
             end
         end.

(** * Properties *)

(** ** Strings and their order *)

Section StrFacts.

Lemma eqb_eq (a b : str) : Str.eqb a b = true <-> a = b.
Proof.
  unfold Str.eqb. destruct (list_eq_dec ascii_dec a b); split; congruence.
Qed.

Lemma eqb_refl (a : str) : Str.eqb a a = true.
Proof. now apply eqb_eq. Qed.

Lemma eqb_neq (a b : str) : Str.eqb a b = false <-> a <> b.
Proof.
  unfold Str.eqb. destruct (list_eq_dec ascii_dec a b); split; congruence.
Qed.

Lemma code_inj (a b : ascii) : code a = code b -> a = b.
Proof.
  unfold code. intros H.
  rewrite <- (ascii_N_embedding a), <- (ascii_N_embedding b). now rewrite H.
Qed.

Lemma compare_refl (a : str) : Str.compare a a = Eq.
Proof.
  induction a as [|c a IH]; simpl; [reflexivity|].
  now rewrite N.compare_refl.
Qed.

Lemma compare_eq (a b : str) : Str.compare a b = Eq -> a = b.
Proof.
  revert b. induction a as [|c a IH]; intros [|d b]; simpl; try discriminate.
  - reflexivity.
  - destruct (N.compare (code c) (code d)) eqn:E; try discriminate.
    intros H. apply N.compare_eq in E. apply code_inj in E.
    subst. f_equal. now apply IH.
Qed.

Lemma compare_antisym (a b : str) :
  Str.compare b a = CompOpp (Str.compare a b).
Proof.
  revert b. induction a as [|c a IH]; intros [|d b]; simpl; try reflexivity.
  rewrite (N.compare_antisym (code c) (code d)).
  destruct (N.compare (code c) (code d)); simpl; auto.
Qed.

Lemma compare_lt_trans (a b c : str) :
  Str.compare a b = Lt -> Str.compare b c = Lt -> Str.compare a c = Lt.
Proof.
  revert b c. induction a as [|x a IH]; intros [|y b] [|w c]; simpl;
    try discriminate; try reflexivity.
  destruct (N.compare (code x) (code y)) eqn:E1; try discriminate;
    destruct (N.compare (code y) (code w)) eqn:E2; try discriminate; intros H1 H2.
  - apply N.compare_eq in E1, E2. rewrite E1, E2, N.compare_refl. eauto.
  - apply N.compare_eq in E1. now rewrite E1, E2.
  - apply N.compare_eq in E2. now rewrite <- E2, E1.
  - rewrite N.compare_lt_iff in E1, E2.
    assert (E : N.compare (code x) (code w) = Lt)
      by (apply N.compare_lt_iff; lia).
    now rewrite E.
Qed.

Lemma key_compare_refl (a : str * str) : key_compare a a = Eq.
Proof. unfold key_compare. now rewrite !compare_refl. Qed.

Lemma key_compare_eq (a b : str * str) : key_compare a b = Eq -> a = b.
Proof.
  destruct a as [a1 a2], b as [b1 b2]. unfold key_compare. simpl.
  destruct (Str.compare a1 b1) eqn:E; try discriminate.
  intros H. apply compare_eq in E, H. now subst.
Qed.

Lemma key_compare_antisym (a b : str * str) :
  key_compare b a = CompOpp (key_compare a b).
Proof.
  unfold key_compare.
  rewrite (compare_antisym (fst a) (fst b)), (compare_antisym (snd a) (snd b)).
  destruct (Str.compare (fst a) (fst b)); reflexivity.
Qed.

Lemma key_compare_lt_trans (a b c : str * str) :
  key_compare a b = Lt -> key_compare b c = Lt -> key_compare a c = Lt.
Proof.
  destruct a as [a1 a2], b as [b1 b2], c as [c1 c2]. unfold key_compare. simpl.
  destruct (Str.compare a1 b1) eqn:E1; try discriminate;
    destruct (Str.compare b1 c1) eqn:E2; try discriminate; intros H1 H2.
  - apply compare_eq in E1, E2. subst. rewrite compare_refl.
    eapply compare_lt_trans; eauto.
  - apply compare_eq in E1. subst. now rewrite E2.
  - apply compare_eq in E2. subst. now rewrite E1.
  - now rewrite (compare_lt_trans _ _ _ E1 E2).
Qed.

Lemma key_leb_refl (a : str * str) : key_leb a a = true.
Proof. unfold key_leb. now rewrite key_compare_refl. Qed.

Lemma key_leb_total (a b : str * str) :
  key_leb a b = false -> key_leb b a = true.
Proof.
  unfold key_leb. rewrite (key_compare_antisym a b).
  destruct (key_compare a b); simpl; congruence.
Qed.

Lemma key_leb_antisym (a b : str * str) :
  key_leb a b = true -> key_leb b a = true -> a = b.
Proof.
  unfold key_leb. rewrite (key_compare_antisym a b).
  destruct (key_compare a b) eqn:E; simpl; try discriminate.
  intros _ _. now apply key_compare_eq.
Qed.

Lemma key_leb_trans (a b c : str * str) :
  key_leb a b = true -> key_leb b c = true -> key_leb a c = true.
Proof.
  unfold key_leb.
  destruct (key_compare a b) eqn:E1; try discriminate;
    destruct (key_compare b c) eqn:E2; try discriminate; intros _ _.
  - apply key_compare_eq in E1, E2. subst. now rewrite key_compare_refl.
  - apply key_compare_eq in E1. subst. now rewrite E2.
  - apply key_compare_eq in E2. subst. now rewrite E1.
  - now rewrite (key_compare_lt_trans _ _ _ E1 E2).
Qed.

End StrFacts.

(** ** The stable sort *)

Section SortFacts.

Lemma has_sort_key_true k p : has_sort_key k p = true <-> sort_key p = k.
Proof.
  unfold has_sort_key. rewrite andb_true_iff, !eqb_eq.
  destruct (sort_key p), k; simpl; split.
  - intros [-> ->]; reflexivity.
  - intros [= -> ->]; auto.
Qed.

Lemma has_sort_key_self p : has_sort_key (sort_key p) p = true.
Proof. now apply has_sort_key_true. Qed.

Lemma insert_sorted_perm p l : Permutation (insert_sorted p l) (p :: l).
Proof.
  induction l as [|q l IH]; simpl; [reflexivity|].
  destruct (key_leb (sort_key p) (sort_key q)); [reflexivity|].
  rewrite IH. apply perm_swap.
Qed.

Lemma sort_printers_perm l : Permutation (sort_printers l) l.
Proof.
  induction l as [|p l IH]; simpl; [reflexivity|].
  rewrite insert_sorted_perm. now constructor.
Qed.

Lemma in_sort_printers p l : In p (sort_printers l) <-> In p l.
Proof.
  split; apply Permutation_in;
    [apply sort_printers_perm | symmetry; apply sort_printers_perm].
Qed.

Lemma insert_sorted_sorted p l :
  StronglySorted key_le l -> StronglySorted key_le (insert_sorted p l).
Proof.
  induction 1 as [|q l Hs IH Hq]; simpl.
  - constructor; constructor.
  - destruct (key_leb (sort_key p) (sort_key q)) eqn:E.
    + constructor; [now constructor|].
      constructor; [exact E|].
      eapply Forall_impl; [|exact Hq].
      intros r Hr. unfold key_le in *. eapply key_leb_trans; eauto.
    + constructor; [exact IH|].
      apply key_leb_total in E.
      eapply Permutation_Forall; [symmetry; apply insert_sorted_perm|].
      now constructor.
Qed.

Lemma sort_printers_sorted l : StronglySorted key_le (sort_printers l).
Proof.
  induction l as [|p l IH]; simpl; [constructor|].
  now apply insert_sorted_sorted.
Qed.

(** Stability: records with one sort key keep their relative order. *)
Lemma filter_insert_sorted k p l :
  filter (has_sort_key k) (insert_sorted p l) =
  filter (has_sort_key k) (p :: l).
Proof.
  induction l as [|q l IH]; [reflexivity|].
  cbn [insert_sorted].
  destruct (key_leb (sort_key p) (sort_key q)) eqn:E; [reflexivity|].
  cbn [filter] in *. rewrite IH.
  destruct (has_sort_key k p) eqn:Hp, (has_sort_key k q) eqn:Hq; try reflexivity.
  apply has_sort_key_true in Hp, Hq.
  rewrite Hp, Hq, key_leb_refl in E. discriminate.
Qed.

Lemma filter_sort_printers k l :
  filter (has_sort_key k) (sort_printers l) = filter (has_sort_key k) l.
Proof.
  induction l as [|p l IH]; [reflexivity|].
  cbn [sort_printers fold_right]. fold (sort_printers l).
  rewrite filter_insert_sorted. cbn [filter]. now rewrite IH.
Qed.

(** A sorted list is determined by its classes of equal sort key. *)
Lemma sorted_classes_eq l1 l2 :
  StronglySorted key_le l1 -> StronglySorted key_le l2 ->
  (forall k, filter (has_sort_key k) l1 = filter (has_sort_key k) l2) ->
  l1 = l2.
Proof.
  intros H1. revert l2.
  induction H1 as [|p l1 Hs1 IH Hp]; intros l2 H2 Hf.
  - destruct l2 as [|q l2]; [reflexivity|].
    specialize (Hf (sort_key q)). cbn [filter] in Hf.
    rewrite has_sort_key_self in Hf. discriminate.
  - destruct H2 as [|q l2 Hs2 Hq].
    + specialize (Hf (sort_key p)). cbn [filter] in Hf.
      rewrite has_sort_key_self in Hf. discriminate.
    + assert (Hpq : key_le q p).
      { assert (Hin : In p (filter (has_sort_key (sort_key p)) (q :: l2))).
        { rewrite <- Hf. cbn [filter]. rewrite has_sort_key_self. now left. }
        apply filter_In in Hin. destruct Hin as [[->|Hin] _].
        - apply key_leb_refl.
        - rewrite Forall_forall in Hq. now apply Hq. }
      assert (Hqp : key_le p q).
      { assert (Hin : In q (filter (has_sort_key (sort_key q)) (p :: l1))).
        { rewrite Hf. cbn [filter]. rewrite has_sort_key_self. now left. }
        apply filter_In in Hin. destruct Hin as [[->|Hin] _].
        - apply key_leb_refl.
        - rewrite Forall_forall in Hp. now apply Hp. }
      assert (Hk : sort_key p = sort_key q) by now apply key_leb_antisym.
      assert (Heq : p = q).
      { specialize (Hf (sort_key p)). cbn [filter] in Hf.
        rewrite has_sort_key_self in Hf.
        rewrite Hk, has_sort_key_self in Hf. congruence. }
      subst q. f_equal. apply IH; [exact Hs2|].
      intros k. specialize (Hf k). cbn [filter] in Hf.
      destruct (has_sort_key k p); congruence.
Qed.

Lemma sort_printers_ext l1 l2 :
  (forall k, filter (has_sort_key k) l1 = filter (has_sort_key k) l2) ->
  sort_printers l1 = sort_printers l2.
Proof.
  intros H. apply sorted_classes_eq; try apply sort_printers_sorted.
  intros k. now rewrite !filter_sort_printers.
Qed.


End SortFacts.

(** ** The insertion-ordered dict *)

Section DictFacts.

Variable V : Type.
Implicit Types (d : list (str * V)) (k : str) (v : V).

Lemma in_keys_dict_set d k v x :
  In x (map fst (Build.dict_set d k v)) <-> x = k \/ In x (map fst d).
Proof.
  induction d as [|[k0 v0] d IH]; simpl.
  - intuition congruence.
  - destruct (Str.eqb k0 k) eqn:E; simpl.
    + apply eqb_eq in E. subst. intuition congruence.
    + rewrite IH. intuition congruence.
Qed.

Lemma dict_set_nodup d k v :
  NoDup (map fst d) -> NoDup (map fst (Build.dict_set d k v)).
Proof.
  induction d as [|[k0 v0] d IH]; simpl; intros H.
  - constructor; [intros []|constructor].
  - inversion H as [|? ? Hn Hd]; subst.
    destruct (Str.eqb k0 k) eqn:E; simpl.
    + now constructor.
    + constructor; [|now apply IH].
      rewrite in_keys_dict_set. intros [->|Hin]; [|contradiction].
      rewrite eqb_refl in E. discriminate.
Qed.

Lemma in_dict_set d k v e :
  In e (Build.dict_set d k v) -> e = (k, v) \/ In e d.
Proof.
  induction d as [|[k0 v0] d IH]; simpl.
  - intuition congruence.
  - destruct (Str.eqb k0 k) eqn:E; simpl.
    + apply eqb_eq in E. subst. intuition congruence.
    + intuition congruence.
Qed.

Lemma dict_get_dict_set d k v k' :
  dict_get (Build.dict_set d k v) k' =
  if Str.eqb k k' then Some v else dict_get d k'.
Proof.
  induction d as [|[k0 v0] d IH]; simpl.
  - reflexivity.
  - destruct (Str.eqb k0 k) eqn:E; simpl.
    + apply eqb_eq in E. subst k0. now destruct (Str.eqb k k').
    + rewrite IH. destruct (Str.eqb k0 k') eqn:E0; [|reflexivity].
      destruct (Str.eqb k k') eqn:E1; [|reflexivity].
      apply eqb_eq in E0, E1. subst. rewrite eqb_refl in E. discriminate.
Qed.

Lemma dict_get_in d k v : dict_get d k = Some v -> In (k, v) d.
Proof.
  induction d as [|[k0 v0] d IH]; simpl; [discriminate|].
  destruct (Str.eqb k0 k) eqn:E.
  - apply eqb_eq in E. intros [= ->]. subst. now left.
  - auto.
Qed.

Lemma in_dict_get d k v :
  NoDup (map fst d) -> In (k, v) d -> dict_get d k = Some v.
Proof.
  induction d as [|[k0 v0] d IH]; simpl; [intros _ []|].
  intros H Hin. inversion H as [|? ? Hn Hd]; subst.
  destruct Hin as [[= -> ->]|Hin].
  - now rewrite eqb_refl.
  - destruct (Str.eqb k0 k) eqn:E; [|auto].
    apply eqb_eq in E. subst. exfalso. apply Hn.
    now apply (in_map fst) in Hin.
Qed.

(** Values with distinct keys stay distinct under any function that
    determines the key. *)
Lemma nodup_values (K : Type) (g : V -> K) d :
  NoDup (map fst d) ->
  (forall e1 e2, In e1 d -> In e2 d -> g (snd e1) = g (snd e2) -> fst e1 = fst e2) ->
  NoDup (map g (map snd d)).
Proof.
  induction d as [|e d IH]; simpl; intros Hk Hg; [constructor|].
  inversion Hk as [|? ? Hn Hd]; subst. constructor.
  - rewrite map_map, in_map_iff. intros [e2 [Heq Hin]].
    apply Hn. rewrite (Hg e e2); auto. now apply in_map.
  - apply IH; auto.
Qed.

End DictFacts.


Lemma filter_perm (A : Type) (f : A -> bool) (l l' : list A) :
  Permutation l l' -> Permutation (filter f l) (filter f l').
Proof.
  induction 1 as [|a l l' _ IH|a b l|l l' l'' _ IH1 _ IH2]; simpl.
  - constructor.
  - destruct (f a); [now constructor | exact IH].
  - destruct (f a), (f b); try reflexivity. apply perm_swap.
  - now transitivity (filter f l').
Qed.

Lemma filter_or_length (A : Type) (f g : A -> bool) (l : list A) :
  (forall a, In a l -> f a = true -> g a = true -> False) ->
  length (filter (fun a => f a || g a) l) =
  length (filter f l) + length (filter g l).
Proof.
  induction l as [|a l IH]; intros H; [reflexivity|]. simpl.
  assert (IH' := IH (fun b Hb => H b (or_intror Hb))).
  destruct (f a) eqn:Ef, (g a) eqn:Eg; simpl; try lia.
  exfalso. apply (H a); auto. now left.
Qed.


(** ** The merge engine *)

Section MergeFacts.

Lemma app_suffix_inj (a b sfx : str) : a ++ sfx = b ++ sfx -> a = b.
Proof. apply app_inv_tail. Qed.

Lemma fdm_sla_suffix (a b : str) : a ++ lit "|fdm" <> b ++ lit "|sla".
Proof.
  change (lit "|fdm") with (lit "|fd" ++ lit "m").
  change (lit "|sla") with (lit "|sl" ++ lit "a").
  rewrite !app_assoc. intros H. apply app_inj_tail in H.
  destruct H as [_ H]. discriminate.
Qed.

Lemma add_all_cons s p l d :
  Build.add_all s (p :: l) d =
  Build.add_all s l (Build.dict_set d (Build.tech_key s p) p).
Proof. reflexivity. Qed.

Lemma add_all_nodup s l d :
  NoDup (map fst d) -> NoDup (map fst (Build.add_all s l d)).
Proof.
  revert d. induction l as [|p l IH]; intros d H; [exact H|].
  rewrite add_all_cons. apply IH. now apply dict_set_nodup.
Qed.

Lemma add_all_entries s l d e :
  In e (Build.add_all s l d) ->
  In e d \/ (In (snd e) l /\ fst e = Build.tech_key s (snd e)).
Proof.
  revert d. induction l as [|p l IH]; intros d H; [now left|].
  rewrite add_all_cons in H. apply IH in H.
  destruct H as [H|[H1 H2]].
  - apply in_dict_set in H. destruct H as [->|H]; [|now left].
    right. simpl. auto.
  - right. simpl. auto.
Qed.


Lemma dict_get_add_all s l d k :
  dict_get (Build.add_all s l d) k =
  fold_left (fun acc p => if Str.eqb (Build.tech_key s p) k then Some p else acc)
            l (dict_get d k).
Proof.
  revert d. induction l as [|p l IH]; intros d; [reflexivity|].
  rewrite add_all_cons, IH, dict_get_dict_set. reflexivity.
Qed.


(** Where every entry of the merged dict comes from. *)
Lemma merged_entries fdm sla e :
  In e (Build.merged fdm sla) ->
  (In (snd e) fdm /\ fst e = norm_key (snd e) ++ lit "|fdm") \/
  (In (snd e) sla /\ fst e = norm_key (snd e) ++ lit "|sla").
Proof.
  unfold Build.merged. intros H.
  apply add_all_entries in H. destruct H as [H|H]; [|now right].
  apply add_all_entries in H. destruct H as [[]|H]. now left.
Qed.

Lemma merged_nodup fdm sla : NoDup (map fst (Build.merged fdm sla)).
Proof.
  unfold Build.merged. do 2 apply add_all_nodup. constructor.
Qed.


Lemma in_merge_printers fdm sla p :
  In p (Build.merge_printers fdm sla) -> In p fdm \/ In p sla.
Proof.
  unfold Build.merge_printers. rewrite in_sort_printers, in_map_iff.
  intros [e [<- He]]. apply merged_entries in He. tauto.
Qed.

Lemma fold_last_some (A : Type) (f : A -> bool) (l : list A) (a : A) :
  exists b, fold_left (fun acc p => if f p then Some p else acc) l (Some a)
            = Some b.
Proof.
  revert a. induction l as [|x l IH]; intros a; simpl; [eauto|].
  destruct (f x); apply IH.
Qed.

Lemma fold_last_found (A : Type) (f : A -> bool) (l : list A) (o : option A) (a : A) :
  In a l -> f a = true ->
  exists b, fold_left (fun acc p => if f p then Some p else acc) l o = Some b.
Proof.
  revert o. induction l as [|x l IH]; intros o; simpl; [intros []|].
  intros [->|Hin] Hf.
  - rewrite Hf. apply fold_last_some.
  - now apply IH.
Qed.

Lemma fold_last_sound (A : Type) (f : A -> bool) (l : list A) (b : A) :
  fold_left (fun acc p => if f p then Some p else acc) l None = Some b ->
  In b l /\ f b = true.
Proof.
  assert (G : forall o,
    fold_left (fun acc p => if f p then Some p else acc) l o = Some b ->
    (In b l /\ f b = true) \/ o = Some b).
  { induction l as [|x l IH]; intros o; simpl; [now right|].
    intros H. apply IH in H. destruct H as [[H1 H2]|H]; [left; auto|].
    destruct (f x) eqn:E; [|now right].
    injection H as ->. left. auto. }
  intros H. apply G in H. destruct H as [H|H]; [exact H|discriminate].
Qed.

End MergeFacts.

Section MergeClaims.

Lemma eqb_app_suffix (a b sfx : str) : Str.eqb (a ++ sfx) (b ++ sfx) = Str.eqb a b.
Proof.
  apply eq_true_iff_eq. rewrite !eqb_eq. split.
  - apply app_suffix_inj.
  - now intros ->.
Qed.


Lemma eqb_sla_fdm (a b : str) : Str.eqb (a ++ lit "|sla") (b ++ lit "|fdm") = false.
Proof. apply eqb_neq. intros H. symmetry in H. revert H. apply fdm_sla_suffix. Qed.

Lemma fold_left_ext (A B : Type) (f g : A -> B -> A) (l : list B) (a : A) :
  (forall x y, f x y = g x y) -> fold_left f l a = fold_left g l a.
Proof.
  intros H. revert a. induction l as [|y l IH]; intros a; simpl; [reflexivity|].
  now rewrite H, IH.
Qed.

Lemma fold_left_keep (A B : Type) (f : A -> B -> A) (l : list B) (a : A) :
  (forall x y, f x y = x) -> fold_left f l a = a.
Proof.
  intros H. revert a. induction l as [|y l IH]; intros a; simpl; [reflexivity|].
  now rewrite H, IH.
Qed.


(** The merged dict holds, under the key of a list, the last record of that
    list with the normalized key. *)
Lemma merged_get_fdm fdm sla k :
  dict_get (Build.merged fdm sla) (k ++ lit "|fdm") = last_with_key k fdm.
Proof.
  unfold Build.merged. rewrite dict_get_add_all, fold_left_keep.
  - rewrite dict_get_add_all. unfold last_with_key. apply fold_left_ext.
    intros o p. unfold Build.tech_key, has_norm_key, norm_key.
    now rewrite eqb_app_suffix.
  - intros o q. unfold Build.tech_key. now rewrite eqb_sla_fdm.
Qed.


Lemma in_merged_values fdm sla k p :
  dict_get (Build.merged fdm sla) k = Some p ->
  In p (Build.merge_printers fdm sla).
Proof.
  intros H. apply dict_get_in in H.
  unfold Build.merge_printers. rewrite in_sort_printers.
  now apply (in_map snd) in H.
Qed.



End MergeClaims.

(** ** Claims on the merge engine *)

Section DedupClaim.

(** C2, as stated, fails: a record of the first list and a record of the
    second list with one normalized (brand, model) and one technology are both
    kept, because the key takes its last component from the list and not from
    the record. *)
Lemma merge_printers_repeats_triple :
  ~ NoDup (map norm_triple (Build.merge_printers [mars_a] [mars_b])).
Proof.
  intros H.
  assert (E : map norm_triple (Build.merge_printers [mars_a] [mars_b]) =
              [norm_triple mars_a; norm_triple mars_a]) by (vm_compute; reflexivity).
  rewrite E in H. inversion H as [|? ? Hn _]. apply Hn. now left.
Qed.

(** C2, amended: when the records of the first list carry the technology FDM
    and those of the second list SLA, as the extractors build them, no two
    records of the merged list share the normalized (brand, model,
    technology). *)
Theorem merge_printers_distinct_triples (fdm sla : list printer) :
  Forall (fun p => technology p = lit "FDM") fdm ->
  Forall (fun p => technology p = lit "SLA") sla ->
  NoDup (map norm_triple (Build.merge_printers fdm sla)).
Proof.
  intros Hf Hs. rewrite Forall_forall in Hf, Hs.
  unfold Build.merge_printers.
  eapply Permutation_NoDup.
  { apply Permutation_map. symmetry. apply sort_printers_perm. }
  apply nodup_values; [apply merged_nodup|].
  intros e1 e2 H1 H2 Ht.
  apply merged_entries in H1, H2.
  assert (Hk : norm_key (snd e1) = norm_key (snd e2)).
  { unfold norm_triple in Ht. injection Ht as Hb Hm _.
    unfold norm_key, Build.normalize_key. now rewrite Hb, Hm. }
  assert (Htech : technology (snd e1) = technology (snd e2)).
  { unfold norm_triple in Ht. now injection Ht. }
  destruct H1 as [[I1 ->]|[I1 ->]], H2 as [[I2 ->]|[I2 ->]];
    try (now rewrite Hk).
  - rewrite (Hf _ I1), (Hs _ I2) in Htech. discriminate.
  - rewrite (Hs _ I1), (Hf _ I2) in Htech. discriminate.
Qed.

Lemma merge_printers_distinct_triples_witness :
  NoDup (map norm_triple
           (Build.merge_printers
              [Printer (lit "Elegoo") (lit "Neptune 4") (lit "FDM")
                       (Volume (mm 225) (mm 225) (mm 265)) None (lit "OrcaSlicer")]
              [mars_b])).
Proof.
  apply merge_printers_distinct_triples;
    repeat constructor.
Defined.

End DedupClaim.

Section OriginClaim.



End OriginClaim.

Section OrderClaim.

Lemma dict_set_fresh (V : Type) (d : list (str * V)) k v :
  ~ In k (map fst d) -> Build.dict_set d k v = d ++ [(k, v)].
Proof.
  induction d as [|[k0 v0] d IH]; simpl; intros H; [reflexivity|].
  destruct (Str.eqb k0 k) eqn:E.
  - apply eqb_eq in E. exfalso. apply H. now left.
  - rewrite IH; [reflexivity|]. intros Hin. apply H. now right.
Qed.

Lemma add_all_fresh s l d :
  NoDup (map (Build.tech_key s) l) ->
  (forall p, In p l -> ~ In (Build.tech_key s p) (map fst d)) ->
  Build.add_all s l d = d ++ map (fun p => (Build.tech_key s p, p)) l.
Proof.
  revert d. induction l as [|p l IH]; intros d Hn Hd.
  - simpl. now rewrite app_nil_r.
  - rewrite add_all_cons. cbn [map] in *.
    inversion Hn as [|? ? Hp Hl]; subst.
    rewrite dict_set_fresh by (apply Hd; now left).
    rewrite IH; [now rewrite <- app_assoc|exact Hl|].
    intros q Hq. rewrite map_app, in_app_iff. simpl.
    intros [H|[H|[]]].
    + apply (Hd q); [now right|exact H].
    + apply Hp. rewrite H. now apply in_map.
Qed.

Lemma tech_keys_nodup s l :
  NoDup (map norm_key l) -> NoDup (map (Build.tech_key s) l).
Proof.
  induction l as [|p l IH]; simpl; intros H; [constructor|].
  inversion H as [|? ? Hp Hl]; subst. constructor; [|now apply IH].
  rewrite in_map_iff. intros [q [E Hq]]. apply Hp.
  unfold Build.tech_key in E. apply app_suffix_inj in E.
  fold (norm_key q) (norm_key p) in E. rewrite <- E. now apply in_map.
Qed.

(** Without a repeated normalized key inside a list, nothing is overwritten. *)
Lemma merged_values_fresh fdm sla :
  NoDup (map norm_key fdm) -> NoDup (map norm_key sla) ->
  map snd (Build.merged fdm sla) = fdm ++ sla.
Proof.
  intros Hf Hs. unfold Build.merged.
  rewrite (add_all_fresh (lit "|fdm") fdm []);
    [|now apply tech_keys_nodup|intros p _ []].
  rewrite add_all_fresh; [|now apply tech_keys_nodup|].
  - cbn [app]. rewrite map_app, !map_map. cbn [snd]. now rewrite !map_id.
  - intros q _. cbn [app]. rewrite map_map. cbn [fst]. rewrite in_map_iff.
    intros [p [E _]]. unfold Build.tech_key in E. revert E. apply fdm_sla_suffix.
Qed.

Lemma sort_key_norm_key p q : sort_key p = sort_key q -> norm_key p = norm_key q.
Proof.
  unfold sort_key, norm_key, Build.normalize_key, Build.brand_norm, Build.model_norm.
  now intros [= -> ->].
Qed.

Lemma class_at_most_one k l :
  NoDup (map norm_key l) -> length (filter (has_sort_key k) l) <= 1.
Proof.
  induction l as [|p l IH]; simpl; intros H; [lia|].
  inversion H as [|? ? Hp Hl]; subst.
  destruct (has_sort_key k p) eqn:E; [|now apply IH].
  destruct (filter (has_sort_key k) l) as [|q r] eqn:F; [simpl; lia|].
  exfalso. apply Hp.
  assert (Hq : In q (filter (has_sort_key k) l)) by (rewrite F; now left).
  apply filter_In in Hq. destruct Hq as [Hq1 Hq2].
  apply has_sort_key_true in E, Hq2.
  rewrite (@sort_key_norm_key p q) by congruence. now apply in_map.
Qed.

Lemma perm_short_eq (A : Type) (l l' : list A) :
  length l <= 1 -> Permutation l l' -> l = l'.
Proof.
  destruct l as [|a [|b l]]; simpl; intros Hl Hp; try lia.
  - apply Permutation_nil in Hp. now subst.
  - apply Permutation_length_1_inv in Hp. now subst.
Qed.

Lemma class_perm_eq k l l' :
  NoDup (map norm_key l) -> Permutation l l' ->
  filter (has_sort_key k) l = filter (has_sort_key k) l'.
Proof.
  intros Hn Hp. apply perm_short_eq.
  - now apply class_at_most_one.
  - now apply filter_perm.
Qed.

(** C8, as stated, fails on its second half: two files of one brand whose
    models differ by a hyphen pass the extractor's own duplicate check, share
    the merge key, and the one listed last reaches the final list. *)
Lemma final_list_depends_on_enumeration :
  Build.all_printers (creality [file_hyphen; file_space]) (Sla.Failed Sla.Timeout)
    = Ok [ender (lit "Ender 3") 235] /\
  Build.all_printers (creality [file_space; file_hyphen]) (Sla.Failed Sla.Timeout)
    = Ok [ender (lit "Ender-3") 220] /\
  ender (lit "Ender 3") 235 <> ender (lit "Ender-3") 220.
Proof.
  split; [vm_compute; reflexivity|].
  split; [vm_compute; reflexivity|].
  intros H. discriminate H.
Qed.

(** C8, amended: the merged list is sorted non-decreasingly under the
    case-insensitive (brand, model) order, and it is the same for every
    reordering of either input list in which no two records share a
    normalized key. *)
Theorem merge_printers_sorted (fdm sla : list printer) :
  StronglySorted key_le (Build.merge_printers fdm sla) /\
  (forall fdm' sla',
     NoDup (map norm_key fdm) -> NoDup (map norm_key sla) ->
     Permutation fdm fdm' -> Permutation sla sla' ->
     Build.merge_printers fdm' sla' = Build.merge_printers fdm sla).
Proof.
  split; [apply sort_printers_sorted|].
  intros fdm' sla' Hf Hs Pf Ps.
  assert (Hf' : NoDup (map norm_key fdm'))
    by (eapply Permutation_NoDup; [apply Permutation_map; exact Pf|exact Hf]).
  assert (Hs' : NoDup (map norm_key sla'))
    by (eapply Permutation_NoDup; [apply Permutation_map; exact Ps|exact Hs]).
  unfold Build.merge_printers. rewrite !merged_values_fresh by assumption.
  apply sort_printers_ext. intros k. rewrite !filter_app.
  now rewrite (class_perm_eq k Hf Pf), (class_perm_eq k Hs Ps).
Qed.

Lemma merge_printers_sorted_witness :
  Build.merge_printers [ender (lit "Voron") 350; ender (lit "Ender 3") 235] [mars_b]
  = Build.merge_printers [ender (lit "Ender 3") 235; ender (lit "Voron") 350] [mars_b].
Proof.
  apply (proj2 (merge_printers_sorted
                  [ender (lit "Ender 3") 235; ender (lit "Voron") 350] [mars_b])).
  - repeat constructor; simpl; intuition discriminate.
  - repeat constructor; simpl; intuition.
  - apply perm_swap.
  - apply Permutation_refl.
Defined.

End OrderClaim.

(** ** Claims on the extractors *)

Section ThresholdClaim.

Lemma SFcompare_antisym (a b : float) :
  SFcompare b a = option_map CompOpp (SFcompare a b).
Proof.
  destruct a as [s|s| |s m e], b as [t|t| |t n f]; simpl; try reflexivity;
    try (destruct s; reflexivity); try (destruct t; reflexivity);
    try (destruct s, t; reflexivity).
  destruct s, t; try reflexivity;
    rewrite (Z.compare_antisym e f); destruct (Z.compare e f); simpl;
    try reflexivity; fold (Pos.compare n m); fold (Pos.compare m n);
    rewrite (Pos.compare_antisym m n); now rewrite ?CompOpp_involutive.
Qed.

(** A float that is not below ten is a NaN or at least ten. *)
Lemma not_below_ten (v : float) :
  Float.ltb v Float.ten = false -> v <> Float.nan ->
  Float.leb Float.ten v = true.
Proof.
  unfold Float.ltb, Float.leb, SFltb, SFleb. intros H Hn.
  rewrite (SFcompare_antisym v Float.ten).
  destruct (SFcompare v Float.ten) as [c|] eqn:E.
  - destruct c; [reflexivity|discriminate H|reflexivity].
  - destruct v as [s|s| |s m e]; [| |now elim Hn|];
      cbv beta iota delta [SFcompare Float.ten] in E; discriminate E.
Qed.

Lemma fold_result_inv (A S : Type) (f : S -> A -> result S) (Inv : S -> Prop) :
  (forall s a s', Inv s -> f s a = Ok s' -> Inv s') ->
  forall l s s', Inv s -> Fdm.fold_result f l s = Ok s' -> Inv s'.
Proof.
  intros Hf. induction l as [|a l IH]; simpl; intros s s' Hs H.
  - now injection H as <-.
  - destruct (f s a) as [s1|e] eqn:E; simpl in H; [|discriminate].
    eapply IH; [|exact H]. eapply Hf; eauto.
Qed.

Lemma fdm_step_inv up b st fi st' :
  Forall (fun p => technology p = lit "FDM" /\ not_below_threshold p) (fst st) ->
  Fdm.step up b st fi = Ok st' ->
  Forall (fun p => technology p = lit "FDM" /\ not_below_threshold p) (fst st').
Proof.
  intros Hst H. unfold Fdm.step, bind in H. break_match H;
    try discriminate; try (injection H as <-; exact Hst).
  all: injection H as <-; cbn [fst]; apply Forall_app; split; [exact Hst|].
  all: constructor; [|constructor]; split; [reflexivity|].
  all: unfold not_below_threshold; cbn [vol]; assumption.
Qed.

Lemma extract_fdm_threshold up l :
  Fdm.extract_fdm_printers up = Ok l ->
  Forall (fun p => technology p = lit "FDM" /\ not_below_threshold p) l.
Proof.
  unfold Fdm.extract_fdm_printers, bind. intros H.
  destruct (Fdm.fold_result _ _ _) as [st|e] eqn:E; [|discriminate].
  injection H as <-.
  eapply (@fold_result_inv _ _ _
            (fun s : Fdm.state =>
               Forall (fun p => technology p = lit "FDM" /\ not_below_threshold p)
                      (fst s))); [| |exact E].
  - intros s b s' Hs Hb.
    eapply (@fold_result_inv _ _ _
              (fun s : Fdm.state =>
                 Forall (fun p => technology p = lit "FDM" /\ not_below_threshold p)
                        (fst s))); [| exact Hs | exact Hb].
    intros s0 fi s1 H0 H1. eapply fdm_step_inv; eauto.
  - constructor.
Qed.

Lemma sla_step_inv st m st' :
  Forall (fun p => technology p = lit "SLA") (fst st) ->
  Sla.step st m = Ok st' ->
  Forall (fun p => technology p = lit "SLA") (fst st').
Proof.
  intros Hst H. unfold Sla.step, bind in H. break_match H;
    try discriminate; try (injection H as <-; exact Hst).
  all: injection H as <-; cbn [fst]; apply Forall_app; split; [exact Hst|].
  all: now repeat constructor.
Qed.

Lemma extract_sla_technology o l :
  Sla.extract_sla_printers o = Ok l ->
  Forall (fun p => technology p = lit "SLA") l.
Proof.
  unfold Sla.extract_sla_printers. intros H.
  destruct (Sla.fetch_machine_cs o) as [|c cs]; [injection H as <-; constructor|].
  unfold Sla.parse_machines, bind in H.
  destruct (Fdm.fold_result _ _ _) as [st|e] eqn:E; [|discriminate].
  injection H as <-.
  eapply Permutation_Forall; [symmetry; apply sort_printers_perm|].
  eapply (@fold_result_inv _ _ _
            (fun s : Sla.state =>
               Forall (fun p => technology p = lit "SLA") (fst s)));
    [| |exact E]; [|constructor].
  intros s m s' Hs Hm. eapply sla_step_inv; eauto.
Qed.

(** C1, as stated, fails: the SLA extractor has no threshold, so a machine
    with a 9.6 mm display reaches the final list. *)
Lemma sla_record_below_threshold :
  exists p,
    Build.all_printers (creality []) (Sla.Response 200 tiny_line) = Ok [p] /\
    Float.ltb (x (vol p)) Float.ten = true.
Proof.
  eexists. split; [vm_compute; reflexivity|]. vm_compute. reflexivity.
Qed.

(** A NaN width is not below the threshold either: the FDM extractor keeps
    the record. *)
Example nan_width_passes_threshold :
  exists p,
    Build.all_printers nan_bed (Sla.Failed Sla.Timeout) = Ok [p] /\
    x (vol p) = Float.nan /\ technology p = lit "FDM".
Proof. eexists. repeat split; vm_compute; reflexivity. Qed.

(** C1, amended: every FDM record of the final list passed the threshold
    test of the FDM extractor, that is, its footprint x is not below 10 mm
    (it is at least 10 mm unless it is a NaN); records of the SLA extractor
    are not tested. *)
Theorem fdm_records_not_below_threshold up o l p :
  Build.all_printers up o = Ok l ->
  In p l -> technology p = lit "FDM" ->
  Float.ltb (x (vol p)) Float.ten = false /\
  (x (vol p) <> Float.nan -> Float.leb Float.ten (x (vol p)) = true).
Proof.
  unfold Build.all_printers, bind. intros H Hp Ht.
  destruct (Fdm.extract_fdm_printers up) as [fdm|e] eqn:Ef; [|discriminate].
  destruct (Sla.extract_sla_printers o) as [sla|e] eqn:Es; [|discriminate].
  injection H as <-.
  apply extract_fdm_threshold in Ef. apply extract_sla_technology in Es.
  rewrite Forall_forall in Ef, Es.
  assert (Hx : not_below_threshold p).
  { apply in_merge_printers in Hp. destruct Hp as [Hp|Hp].
    - now apply Ef.
    - apply Es in Hp. rewrite Hp in Ht. discriminate. }
  split; [exact Hx|]. now apply not_below_ten.
Qed.

Lemma fdm_records_not_below_threshold_witness :
  Float.ltb (x (vol (ender (lit "Ender-3") 220))) Float.ten = false /\
  (x (vol (ender (lit "Ender-3") 220)) <> Float.nan ->
   Float.leb Float.ten (x (vol (ender (lit "Ender-3") 220))) = true).
Proof.
  apply (@fdm_records_not_below_threshold
           (creality [file_hyphen]) (Sla.Failed Sla.Timeout)
           [ender (lit "Ender-3") 220]).
  - vm_compute. reflexivity.
  - now left.
  - reflexivity.
Defined.

End ThresholdClaim.

Section NameClaim.

(** C4, as stated, fails: an empty [printer_model] is present, so it wins
    over the non-empty [name]. *)
Lemma empty_model_field_wins :
  Fdm.raw_name_of empty_model_json (lit "Ender-3.json") = PStr [] /\
  first_non_empty_name empty_model_json (lit "Ender-3.json") = PStr (lit "Ender 3").
Proof. split; reflexivity. Qed.

(** C4, amended: the first PRESENT value wins: the value of [printer_model]
    when the key is present (empty or not), otherwise the value of [name] when
    that key is present, otherwise the file name with [.json] removed; this is
    the first non-empty value whenever no present value is empty. *)
Theorem raw_name_first_present (d : list (str * pyval)) (file_name : str) :
  (forall v, dict_get d (lit "printer_model") = Some v ->
             Fdm.raw_name_of d file_name = v) /\
  (dict_get d (lit "printer_model") = None ->
   forall v, dict_get d (lit "name") = Some v ->
             Fdm.raw_name_of d file_name = v) /\
  (dict_get d (lit "printer_model") = None ->
   dict_get d (lit "name") = None ->
   Fdm.raw_name_of d file_name = PStr (replace (lit ".json") [] file_name)) /\
  ((forall k v, dict_get d k = Some v -> falsy v = false) ->
   Fdm.raw_name_of d file_name = first_non_empty_name d file_name).
Proof.
  unfold Fdm.raw_name_of, first_non_empty_name, get_default.
  repeat split.
  - now intros v ->.
  - now intros -> v ->.
  - now intros -> ->.
  - intros H.
    destruct (dict_get d (lit "printer_model")) as [v|] eqn:E1.
    + now rewrite (H _ _ E1).
    + destruct (dict_get d (lit "name")) as [w|] eqn:E2; [|reflexivity].
      now rewrite (H _ _ E2).
Qed.

Lemma raw_name_first_present_witness :
  Fdm.raw_name_of empty_model_json (lit "Ender-3.json") = PStr [].
Proof.
  apply (proj1 (raw_name_first_present empty_model_json (lit "Ender-3.json"))).
  reflexivity.
Defined.

End NameClaim.

Section VolumeClaims.

Lemma coords_points area pts xs ys :
  map point_of area = map Some pts ->
  fold_left Fdm.add_point area (xs, ys) = (xs ++ map fst pts, ys ++ map snd pts).
Proof.
  revert pts xs ys. induction area as [|v area IH]; intros [|[a b] pts] xs ys H;
    try discriminate.
  - simpl. now rewrite !app_nil_r.
  - cbn [map] in H. injection H as Hv Hr. cbn [fold_left map fst snd].
    assert (E : Fdm.add_point (xs, ys) v = (xs ++ [a], ys ++ [b])).
    { unfold point_of in Hv. unfold Fdm.add_point.
      destruct v; try discriminate.
      destruct (contains (lit "x") s); [|discriminate].
      destruct (split "x" s) as [|p0 [|p1 r]]; try discriminate.
      destruct (Float.of_str p0); [|discriminate].
      destruct (Float.of_str p1); [|discriminate].
      now injection Hv as -> ->. }
    rewrite E, (IH _ _ _ Hr), <- !app_assoc. reflexivity.
Qed.

Lemma coords_unparseable area xs ys :
  Forall (fun v => point_of v = None) area ->
  snd (fold_left Fdm.add_point area (xs, ys)) = ys.
Proof.
  revert xs. induction area as [|v area IH]; intros xs H; [reflexivity|].
  inversion H as [|? ? Hv Hr]; subst. cbn [fold_left].
  assert (E : exists xs', Fdm.add_point (xs, ys) v = (xs', ys)).
  { unfold point_of in Hv. unfold Fdm.add_point.
    destruct v; eauto.
    destruct (contains (lit "x") s); eauto.
    destruct (split "x" s) as [|p0 [|p1 r]]; eauto.
    destruct (Float.of_str p0); eauto.
    destruct (Float.of_str p1); eauto. discriminate. }
  destruct E as [xs' ->]. now apply IH.
Qed.

Lemma polygon_footprint_points data area pts :
  dict_get data (lit "printable_area") = Some (PList area) ->
  map point_of area = map Some pts ->
  4 <= length area ->
  Fdm.polygon_footprint data = (Fdm.span (map fst pts), Fdm.span (map snd pts)).
Proof.
  intros Hd Hp Hl. unfold Fdm.polygon_footprint. rewrite Hd.
  apply Nat.leb_le in Hl as Hb. rewrite Hb.
  unfold Fdm.coords. rewrite (@coords_points _ _ [] [] Hp). cbn [app].
  assert (Hn : length pts = length area).
  { rewrite <- (length_map Some pts), <- Hp. apply length_map. }
  destruct pts as [|[a b] pts]; [simpl in Hn; lia|reflexivity].
Qed.

Lemma polygon_footprint_none data :
  match dict_get data (lit "printable_area") with
  | Some (PList area) =>
      length area < 4 \/ Forall (fun v => point_of v = None) area
  | _ => True
  end ->
  Fdm.polygon_footprint data = (zero, zero).
Proof.
  unfold Fdm.polygon_footprint.
  destruct (dict_get data (lit "printable_area")) as [[| | | | |area|]|];
    try reflexivity.
  intros [H|H].
  - apply Nat.leb_gt in H. now rewrite H.
  - destruct (4 <=? length area); [|reflexivity].
    unfold Fdm.coords.
    assert (E := @coords_unparseable _ [] [] H).
    destruct (fold_left Fdm.add_point area ([], [])) as [xs ys].
    simpl in E. subst ys. now destruct xs.
Qed.

(** C5, as stated, fails: a polygon of three 'WxH' strings is not used, and
    the footprint comes from the (absent) scalar fields. *)
Lemma triangle_polygon_ignored :
  map point_of (map (fun s => PStr (lit s)) triangle) = map Some (corners 3) /\
  Fdm.span (map fst (corners 3)) = mm 250 /\
  Fdm.span (map snd (corners 3)) = mm 210 /\
  Fdm.parse_volume (polygon_json triangle [(lit "printable_height", PInt 200)])
    = Ok (Volume zero zero (mm 200)).
Proof. repeat split; vm_compute; reflexivity. Qed.

(** C5, amended: when [printable_area] is a list of at least four 'WxH'
    strings whose rounded x span is not zero, [parse_volume] returns the
    bounding-box spans max - min of the x and of the y coordinates, each
    rounded to two decimals, and z from the height field; for the rectangle
    of the scenario this is x = 250 and y = 210. *)
Theorem parse_volume_polygon :
  (forall data area a b pts h,
     dict_get data (lit "printable_area") = Some (PList area) ->
     map point_of area = map Some ((a, b) :: pts) ->
     4 <= length area ->
     Float.eqb (Fdm.span (a :: map fst pts)) zero = false ->
     Fdm.height data = Ok h ->
     Fdm.parse_volume data =
     Ok (Volume
           (Float.round2 (Float.sub (Float.max_list a (map fst pts))
                                    (Float.min_list a (map fst pts))))
           (Float.round2 (Float.sub (Float.max_list b (map snd pts))
                                    (Float.min_list b (map snd pts))))
           h)) /\
  (forall extra h,
     Fdm.height (polygon_json rectangle extra) = Ok h ->
     Fdm.parse_volume (polygon_json rectangle extra)
     = Ok (Volume (mm 250) (mm 210) h)).
Proof.
  assert (G : forall data area a b pts h,
     dict_get data (lit "printable_area") = Some (PList area) ->
     map point_of area = map Some ((a, b) :: pts) ->
     4 <= length area ->
     Float.eqb (Fdm.span (a :: map fst pts)) zero = false ->
     Fdm.height data = Ok h ->
     Fdm.parse_volume data =
     Ok (Volume (Fdm.span (a :: map fst pts)) (Fdm.span (b :: map snd pts)) h)).
  { intros data area a b pts h Hd Hp Hl Hx Hh. unfold Fdm.parse_volume.
    rewrite (@polygon_footprint_points data _ _ Hd Hp Hl). cbn [map fst snd].
    rewrite Hx, Hh. reflexivity. }
  split; [exact G|].
  intros extra h Hh.
  rewrite (G (polygon_json rectangle extra)
             (map (fun s => PStr (lit s)) rectangle)
             zero zero (tl (corners 4)) h eq_refl);
    [vm_compute; reflexivity|vm_compute; reflexivity|simpl; lia
    |vm_compute; reflexivity|exact Hh].
Qed.

Lemma parse_volume_polygon_witness :
  Fdm.parse_volume (polygon_json rectangle [(lit "printable_height", PInt 200)])
  = Ok (Volume (mm 250) (mm 210) (mm 200)).
Proof.
  apply (proj2 parse_volume_polygon). reflexivity.
Defined.

(** C10: unless [printable_area] is a list of at least four entries of
    which one parses as 'WxH', the polygon is not used and the footprint is
    read from the scalar fields: x is [float] of the value stored under
    [bed_width] and y is [float] of the value stored under [bed_depth], each
    of them 0 when its key is absent; a stored value that [float] rejects
    raises, the width first. *)
Theorem parse_volume_scalar_fallback (data : list (str * pyval)) (h : float) :
  match dict_get data (lit "printable_area") with
  | Some (PList area) =>
      length area < 4 \/ Forall (fun v => point_of v = None) area
  | _ => True
  end ->
  Fdm.height data = Ok h ->
  (forall w d fw fd,
     dict_get data (lit "bed_width") = Some w -> py_float w = Ok fw ->
     dict_get data (lit "bed_depth") = Some d -> py_float d = Ok fd ->
     Fdm.parse_volume data = Ok (Volume fw fd h)) /\
  (forall w fw,
     dict_get data (lit "bed_width") = Some w -> py_float w = Ok fw ->
     dict_get data (lit "bed_depth") = None ->
     Fdm.parse_volume data = Ok (Volume fw zero h)) /\
  (forall d fd,
     dict_get data (lit "bed_width") = None ->
     dict_get data (lit "bed_depth") = Some d -> py_float d = Ok fd ->
     Fdm.parse_volume data = Ok (Volume zero fd h)) /\
  (dict_get data (lit "bed_width") = None ->
   dict_get data (lit "bed_depth") = None ->
   Fdm.parse_volume data = Ok (Volume zero zero h)) /\
  (forall w e,
     dict_get data (lit "bed_width") = Some w -> py_float w = Raise e ->
     Fdm.parse_volume data = Raise e) /\
  (forall d e,
     (forall w, dict_get data (lit "bed_width") = Some w ->
                exists fw, py_float w = Ok fw) ->
     dict_get data (lit "bed_depth") = Some d -> py_float d = Raise e ->
     Fdm.parse_volume data = Raise e).
Proof.
  intros H Hh. unfold Fdm.parse_volume.
  rewrite (@polygon_footprint_none data H).
  change (Float.eqb zero zero) with true. cbv iota.
  unfold get_default. rewrite Hh.
  split; [|split; [|split; [|split; [|split]]]].
  - intros w d fw fd Hw Fw Hd Fd. now rewrite Hw, Hd, Fw, Fd.
  - intros w fw Hw Fw Hd. now rewrite Hw, Hd, Fw.
  - intros d fd Hw Hd Fd. now rewrite Hw, Hd, Fd.
  - intros Hw Hd. now rewrite Hw, Hd.
  - intros w e Hw Fw. now rewrite Hw, Fw.
  - intros d e Hw Hd Fd. rewrite Hd, Fd.
    destruct (dict_get data (lit "bed_width")) as [w|]; [|reflexivity].
    destruct (Hw w eq_refl) as [fw ->]. reflexivity.
Qed.

Lemma parse_volume_scalar_fallback_witness :
  Fdm.parse_volume
    (polygon_json triangle [ (lit "printable_height", PInt 200);
                             (lit "bed_width", PInt 220);
                             (lit "bed_depth", PFloat (mm 210)) ])
  = Ok (Volume (mm 220) (mm 210) (mm 200)).
Proof.
  apply (proj1 (@parse_volume_scalar_fallback
                  (polygon_json triangle [ (lit "printable_height", PInt 200);
                                           (lit "bed_width", PInt 220);
                                           (lit "bed_depth", PFloat (mm 210)) ])
                  (mm 200) (or_introl (Nat.lt_succ_diag_r 3)) eq_refl))
    with (w := PInt 220) (d := PFloat (mm 210)); reflexivity.
Defined.

End VolumeClaims.

Section FetchClaim.

(** C7: when the document cannot be fetched (the transport raises, times
    out, or the status is an error status), [extract_sla_printers] returns the
    empty list and raises nothing. *)
Theorem extract_sla_printers_fetch_failure (o : Sla.http_outcome) :
  fetch_failed o -> Sla.extract_sla_printers o = Ok [].
Proof.
  destruct o as [e|status text]; simpl; intros H; [reflexivity|].
  unfold Sla.extract_sla_printers, Sla.fetch_machine_cs, Sla.raises_for_status.
  destruct H as [H1 H2].
  apply Z.leb_le in H1. apply Z.ltb_lt in H2. now rewrite H1, H2.
Qed.

Lemma extract_sla_printers_fetch_failure_witness :
  Sla.extract_sla_printers (Sla.Response 503 tiny_line) = Ok [] /\
  Sla.extract_sla_printers (Sla.Failed Sla.Timeout) = Ok [].
Proof.
  split.
  - apply extract_sla_printers_fetch_failure. simpl. lia.
  - apply extract_sla_printers_fetch_failure. exact I.
Defined.

End FetchClaim.

Section KeyClaim.

Lemma replace_char (c d : ascii) (s : str) :
  replace [c] [d] s = map (fun a => if Ascii.eqb c a then d else a) s.
Proof.
  unfold replace. induction s as [|a s IH]; [reflexivity|].
  cbn [replace_from starts_with map length Nat.sub app].
  rewrite andb_true_r. destruct (Ascii.eqb c a); now rewrite IH.
Qed.

Lemma lower_char_idem (c : ascii) : lower_char (lower_char c) = lower_char c.
Proof. destruct c as [[] [] [] [] [] [] [] []]; reflexivity. Qed.

Lemma is_space_lower_char (c : ascii) : is_space (lower_char c) = is_space c.
Proof. destruct c as [[] [] [] [] [] [] [] []]; reflexivity. Qed.

Lemma lower_idem (s : str) : lower (lower s) = lower s.
Proof.
  unfold lower. rewrite map_map. apply map_ext. apply lower_char_idem.
Qed.

Lemma drop_while_map (p : ascii -> bool) (f : ascii -> ascii) (s : str) :
  (forall c, p (f c) = p c) ->
  drop_while p (map f s) = map f (drop_while p s).
Proof.
  intros H. induction s as [|c s IH]; [reflexivity|].
  cbn [map drop_while]. rewrite H. now destruct (p c).
Qed.

Lemma strip_lower (s : str) : strip (lower s) = lower (strip s).
Proof.
  unfold strip, strip_with, lower.
  rewrite drop_while_map by apply is_space_lower_char.
  rewrite <- map_rev, drop_while_map by apply is_space_lower_char.
  now rewrite map_rev.
Qed.

Lemma drop_while_suffix (p : ascii -> bool) (s : str) :
  exists w, s = w ++ drop_while p s.
Proof.
  induction s as [|c s [w IH]]; [now exists []|].
  cbn [drop_while]. destruct (p c).
  - exists (c :: w). cbn [app]. now rewrite <- IH.
  - now exists [].
Qed.

Lemma drop_while_head (p : ascii -> bool) (s : str) c r :
  drop_while p s = c :: r -> p c = false.
Proof.
  induction s as [|a s IH]; [discriminate|].
  cbn [drop_while]. destruct (p a) eqn:E; [exact IH|].
  now intros [= <- _].
Qed.

Lemma drop_while_idem (p : ascii -> bool) (s : str) :
  drop_while p (drop_while p s) = drop_while p s.
Proof.
  destruct (drop_while p s) as [|c r] eqn:E; [reflexivity|].
  apply drop_while_head in E. cbn [drop_while]. now rewrite E.
Qed.

Lemma strip_idem (s : str) : strip (strip s) = strip s.
Proof.
  unfold strip, strip_with.
  set (u := drop_while is_space (rev (drop_while is_space s))).
  assert (Hu : drop_while is_space (rev u) = rev u).
  { destruct (drop_while_suffix is_space (rev (drop_while is_space s))) as [w Hw].
    fold u in Hw.
    destruct (rev u) as [|c t] eqn:Er; [reflexivity|].
    assert (Hs : drop_while is_space s = (c :: t) ++ rev w).
    { rewrite <- (rev_involutive (drop_while is_space s)), Hw, rev_app_distr.
      now rewrite Er. }
    apply drop_while_head in Hs. cbn [drop_while]. now rewrite Hs. }
  rewrite Hu, rev_involutive. unfold u. now rewrite drop_while_idem.
Qed.

Lemma brand_norm_chars (b : str) :
  Build.brand_norm b = map brand_char (strip (lower b)).
Proof. unfold Build.brand_norm. apply (replace_char " " "_"). Qed.

Lemma model_norm_chars (m : str) :
  Build.model_norm m = map model_char (strip (lower m)).
Proof.
  unfold Build.model_norm.
  change (lit "-") with ["-"%char]. change (lit "_") with ["_"%char].
  change (lit " ") with [" "%char].
  rewrite !replace_char, map_map. reflexivity.
Qed.

(** C3, as stated, fails: a doubled space, or a hyphen in the brand, changes
    the merge key; and the extractors deduplicate on the lower-cased pair
    only, which tells apart two spellings that the merge key identifies, so
    both reach the extractor's output. *)
Lemma dedup_keys_differ :
  Build.normalize_key (lit "Creality") (lit "Ender 3")
    <> Build.normalize_key (lit "Creality") (lit "Ender  3") /\
  Build.normalize_key (lit "Any-cubic") (lit "Photon")
    <> Build.normalize_key (lit "Any cubic") (lit "Photon") /\
  Build.normalize_key (lit "Elegoo") (lit "Mars 3")
    = Build.normalize_key (lit "Elegoo") (lit "Mars-3") /\
  unique_key (lit "Elegoo") (lit "Mars 3")
    <> unique_key (lit "Elegoo") (lit "Mars-3") /\
  exists r1 r2,
    Sla.parse_machines two_mars = Ok [r1; r2] /\ norm_key r1 = norm_key r2.
Proof.
  split; [intros H; vm_compute in H; discriminate H|].
  split; [intros H; vm_compute in H; discriminate H|].
  split; [vm_compute; reflexivity|].
  split; [intros H; vm_compute in H; discriminate H|].
  do 2 eexists. split; vm_compute; reflexivity.
Qed.

(** C3, amended: for brand and model strings of ASCII characters, the merge
    key is made of the lower-cased, stripped brand with every space turned
    into an underscore, and of the lower-cased, stripped model with every
    space and every hyphen turned into an underscore; so it ignores letter
    case, surrounding whitespace and, in the model, the difference between a
    space and a hyphen.  The key of the extractors' [seen] sets is the
    lower-cased pair and ignores letter case only. *)
Theorem normalize_key_classes (b m : str) :
  ascii_only b = true -> ascii_only m = true ->
  Build.normalize_key b m =
    map brand_char (strip (lower b)) ++ lit "|" ++ map model_char (strip (lower m)) /\
  (Build.normalize_key (lower b) (lower m) = Build.normalize_key b m /\
   unique_key (lower b) (lower m) = unique_key b m) /\
  Build.normalize_key (strip b) (strip m) = Build.normalize_key b m /\
  (forall m',
     ascii_only m' = true ->
     map model_char (strip (lower m)) = map model_char (strip (lower m')) ->
     Build.normalize_key b m = Build.normalize_key b m').
Proof.
  intros _ _.
  assert (G : forall b m,
     Build.normalize_key b m =
     map brand_char (strip (lower b)) ++ lit "|" ++ map model_char (strip (lower m))).
  { intros b0 m0. unfold Build.normalize_key.
    now rewrite brand_norm_chars, model_norm_chars. }
  split; [apply G|]. split; [|split].
  - split.
    + now rewrite !G, !lower_idem.
    + unfold unique_key. now rewrite !lower_idem.
  - rewrite !G, <- !strip_lower, !strip_idem. reflexivity.
  - intros m' _ H. now rewrite !G, H.
Qed.

Lemma normalize_key_classes_witness :
  Build.normalize_key (lit "Elegoo") (lit "Mars 3")
  = Build.normalize_key (lit "Elegoo") (lit "Mars-3").
Proof.
  apply (proj2 (proj2 (proj2 (@normalize_key_classes
                                (lit "Elegoo") (lit "Mars 3")
                                eq_refl eq_refl)))); reflexivity.
Defined.

End KeyClaim.

Section ScenarioClaim.

Lemma run_word_fail (R : Type) (w s : str) n caps
      (k : str -> nat -> list str -> option R) :
  starts_with w s = false -> Re.run (Re.word w) s n caps k = None.
Proof.
  revert s n. induction w as [|c w IH]; intros s n H; [discriminate H|].
  destruct s as [|a s]; [reflexivity|].
  cbn [starts_with] in H. unfold Re.word, Re.seq. cbn [map fold_right Re.run].
  unfold Re.chr at 1. cbn [Re.run].
  destruct (Ascii.eqb c a); [|reflexivity].
  apply IH. exact H.
Qed.

Lemma match_needs_new (s : str) :
  starts_with (lit "new") s = false -> Re.match_here Sla.pattern s = None.
Proof.
  intros H. unfold Re.match_here, Sla.pattern, Re.seq.
  cbn [fold_right Re.run]. now apply run_word_fail.
Qed.

Lemma findall_no_keyword (s : str) :
  contains (lit "new") s = false -> Re.findall_from Sla.pattern s 0 = [].
Proof.
  induction s as [|a s IH]; intros Hc.
  - reflexivity.
  - cbn [contains] in Hc. apply orb_false_iff in Hc. destruct Hc as [Hs Hc].
    cbn [Re.findall_from]. rewrite (match_needs_new _ Hs). now apply IH.
Qed.

Lemma findall_pass (r : Re.regex) (a s : str) :
  Re.findall_from r (a ++ s) (length a) = Re.findall_from r s 0.
Proof.
  induction a as [|c a IH]; [reflexivity|].
  cbn [app length Re.findall_from]. exact IH.
Qed.

End ScenarioClaim.

Section ScenarioTheorem.

Lemma findall_match (r : Re.regex) (c : ascii) (rest s : str) caps :
  Re.match_here r (c :: rest ++ s) = Some (S (length rest), caps) ->
  Re.findall_from r (c :: rest ++ s) 0 = caps :: Re.findall_from r s 0.
Proof.
  intros H. cbn [Re.findall_from]. rewrite H.
  cbn [Nat.sub]. rewrite Nat.sub_0_r. now rewrite findall_pass.
Qed.

Lemma photon_match (post : str) :
  Re.match_here Sla.pattern (photon_line ++ post) =
  Some (length photon_line,
        photon_groups).
Proof. vm_compute. reflexivity. Qed.

(** C6, as stated, fails: an earlier definition of the same machine in the
    document wins, and the record of the scenario line is not emitted. *)
Lemma earlier_definition_wins :
  exists p,
    Sla.parse_machines (photon_draft ++ [newline] ++ photon_line
                        ++ lit ", FlipDirection.Horizontally),") = Ok [p] /\
    p <> photon_m3.
Proof.
  eexists. split; [vm_compute; reflexivity|].
  intros H. vm_compute in H. discriminate H.
Qed.

End ScenarioTheorem.

(** * Further properties of the code *)

(** ** The SLA extractor *)

Section SlaInvariants.

Lemma unique_key_sort_key (p q : printer) :
  sort_key p = sort_key q ->
  unique_key (brand p) (model p) = unique_key (brand q) (model q).
Proof. unfold sort_key, unique_key. now intros [= -> ->]. Qed.

Lemma existsb_eqb_false (k : str) (l : list str) :
  existsb (Str.eqb k) l = false -> ~ In k l.
Proof.
  intros H Hin. assert (E : existsb (Str.eqb k) l = true).
  { apply existsb_exists. exists k. split; [exact Hin|apply eqb_refl]. }
  congruence.
Qed.

(** Records whose keys are all in [seen] stay distinct when a record with a
    new key is appended. *)
Lemma seen_append (l : list printer) (seen : list str) (p : printer) :
  (forall q, In q l -> In (unique_key (brand q) (model q)) seen) ->
  NoDup (map sort_key l) ->
  ~ In (unique_key (brand p) (model p)) seen ->
  (forall q, In q (l ++ [p]) ->
             In (unique_key (brand q) (model q))
                (unique_key (brand p) (model p) :: seen)) /\
  NoDup (map sort_key (l ++ [p])).
Proof.
  intros Hs Hn Hp. split.
  - intros q Hq. apply in_app_iff in Hq. destruct Hq as [Hq|[<-|[]]].
    + right. now apply Hs.
    + now left.
  - rewrite map_app. cbn [map].
    apply NoDup_app; [exact Hn|repeat constructor; intros []|].
    intros k Hk [<-|[]]. apply in_map_iff in Hk. destruct Hk as [q [E Hq]].
    apply Hp. rewrite <- (unique_key_sort_key E). now apply Hs.
Qed.

Lemma sla_step_keeps_inv st m st' :
  sla_inv st -> Sla.step st m = Ok st' -> sla_inv st'.
Proof.
  intros (Hs & Hn & Hf) H. unfold Sla.step, bind in H. break_match H;
    try discriminate; try (injection H as <-; now repeat split).
  all: injection H as <-; cbn [fst snd].
  all: match goal with
       | E : existsb (Str.eqb (unique_key ?b ?m)) _ = false |- _ =>
           apply existsb_eqb_false in E;
           destruct (@seen_append (fst st) (snd st)
                       (Printer b m (lit "SLA")
                                (Volume (Float.round2 a) (Float.round2 a0)
                                        (Float.round2 a1))
                                None (lit "UVtools")) Hs Hn E) as [G1 G2]
       end.
  all: repeat split; try assumption.
  all: apply Forall_app; split; [exact Hf|]; constructor; [|constructor].
  all: repeat split; assumption.
Qed.

Lemma parse_machines_inv text l :
  Sla.parse_machines text = Ok l ->
  NoDup (map sort_key l) /\ Forall sla_shape l.
Proof.
  unfold Sla.parse_machines, bind. intros H.
  destruct (Fdm.fold_result _ _ _) as [st|e] eqn:E; [|discriminate].
  injection H as <-.
  assert (I : sla_inv st).
  { eapply (@fold_result_inv _ _ _ sla_inv); [| |exact E].
    - intros s m s' Hs Hm. eapply sla_step_keeps_inv; eauto.
    - repeat split; [intros q []|constructor|constructor]. }
  destruct I as (_ & Hn & Hf). now split.
Qed.

End SlaInvariants.

Section SlaExtras.

(** X1: the records of [parse_machines] differ pairwise in the lower-cased
    (brand, model); each has technology SLA, no image, source UVtools, and a
    model name that is none of the placeholder names, whatever its case. *)
Theorem parse_machines_records (text : str) (l : list printer) :
  Sla.parse_machines text = Ok l ->
  NoDup (map sort_key l) /\
  Forall (fun p => technology p = lit "SLA" /\ image_url p = None /\
                   source p = lit "UVtools" /\
                   ~ In (lower (model p)) Sla.BLACKLIST_MODELS) l.
Proof.
  intros H. apply parse_machines_inv in H. destruct H as [Hn Hf].
  split; [exact Hn|]. eapply Forall_impl; [|exact Hf].
  intros p (Ht & Hi & Hs & Hb). repeat split; try assumption.
  now apply existsb_eqb_false.
Qed.

Lemma parse_machines_records_witness :
  NoDup (map sort_key [mars_record "Mars 3"; mars_record "Mars-3"]) /\
  Forall (fun p => technology p = lit "SLA" /\ image_url p = None /\
                   source p = lit "UVtools" /\
                   ~ In (lower (model p)) Sla.BLACKLIST_MODELS)
         [mars_record "Mars 3"; mars_record "Mars-3"].
Proof.
  apply (@parse_machines_records two_mars). vm_compute. reflexivity.
Defined.

(** X2: on a fetched, non-empty document [extract_sla_printers] returns the
    records of [parse_machines], reordered so that they are strictly
    increasing in the case-insensitive (brand, model) order; an exception of
    [parse_machines] is not caught. *)
Theorem extract_sla_printers_sorted (status : Z) (text : str) :
  Sla.raises_for_status status = false -> text <> [] ->
  (forall l, Sla.parse_machines text = Ok l ->
     exists l', Sla.extract_sla_printers (Sla.Response status text) = Ok l' /\
                Permutation l l' /\ StronglySorted key_le l' /\
                NoDup (map sort_key l')) /\
  (forall e, Sla.parse_machines text = Raise e ->
     Sla.extract_sla_printers (Sla.Response status text) = Raise e).
Proof.
  intros Hs Ht. unfold Sla.extract_sla_printers, Sla.fetch_machine_cs.
  rewrite Hs. destruct text as [|c text]; [congruence|]. split.
  - intros l Hl. rewrite Hl. cbn [bind]. eexists. split; [reflexivity|].
    split; [symmetry; apply sort_printers_perm|].
    split; [apply sort_printers_sorted|].
    apply parse_machines_inv in Hl. destruct Hl as [Hn _].
    eapply Permutation_NoDup; [|exact Hn].
    apply Permutation_map. symmetry. apply sort_printers_perm.
  - intros e He. now rewrite He.
Qed.

Lemma extract_sla_printers_sorted_witness :
  exists l', Sla.extract_sla_printers (Sla.Response 200 two_mars) = Ok l' /\
             Permutation [mars_record "Mars 3"; mars_record "Mars-3"] l' /\
             StronglySorted key_le l' /\ NoDup (map sort_key l').
Proof.
  apply (proj1 (@extract_sla_printers_sorted 200 two_mars eq_refl
                  ltac:(discriminate))).
  vm_compute. reflexivity.
Defined.

(** X3: a document without the keyword [new] holds no definition:
    [parse_machines] returns the empty list, and so does
    [extract_sla_printers] for every status. *)
Theorem no_keyword_no_record (status : Z) (text : str) :
  contains (lit "new") text = false ->
  Sla.parse_machines text = Ok [] /\
  Sla.extract_sla_printers (Sla.Response status text) = Ok [].
Proof.
  intros H.
  assert (E : Sla.parse_machines text = Ok []).
  { unfold Sla.parse_machines, Re.findall.
    now rewrite (findall_no_keyword text H). }
  split; [exact E|].
  unfold Sla.extract_sla_printers, Sla.fetch_machine_cs.
  destruct (Sla.raises_for_status status); [reflexivity|].
  destruct text as [|c text]; [reflexivity|]. now rewrite E.
Qed.

Lemma no_keyword_no_record_witness :
  Sla.parse_machines (lit "// no machines yet") = Ok [] /\
  Sla.extract_sla_printers (Sla.Response 200 (lit "// no machines yet")) = Ok [].
Proof.
  apply no_keyword_no_record. reflexivity.
Defined.

End SlaExtras.

(** ** Substrings *)

Section SubstringFacts.

Lemma starts_with_iff (p s : str) :
  starts_with p s = true <-> exists t, s = p ++ t.
Proof.
  revert s. induction p as [|a p IH]; intros s.
  - simpl. split; [intros _; now exists s|reflexivity].
  - destruct s as [|b s]; simpl.
    + split; [discriminate|intros [t H]; discriminate].
    + rewrite andb_true_iff, IH. split.
      * intros [E [t ->]]. apply Ascii.eqb_eq in E. subst. now exists t.
      * intros [t [= -> ->]]. split; [apply Ascii.eqb_refl|now exists t].
Qed.

Lemma contains_iff (t s : str) : contains t s = true <-> substring t s.
Proof.
  induction s as [|c s IH].
  - cbn [contains]. rewrite starts_with_iff. split.
    + intros [u H]. exists [], u. exact H.
    + intros [a [b H]]. destruct a; [|discriminate]. now exists b.
  - cbn [contains]. rewrite orb_true_iff, starts_with_iff, IH. split.
    + intros [[u H]|[a [b H]]].
      * exists [], u. exact H.
      * exists (c :: a), b. cbn [app]. now rewrite H.
    + intros [a [b H]]. destruct a as [|x a].
      * left. now exists b.
      * right. injection H as _ H. now exists a, b.
Qed.

Lemma substring_refl (s : str) : substring s s.
Proof. exists [], []. now rewrite app_nil_r. Qed.

Lemma substring_trans (a b c : str) :
  substring a b -> substring b c -> substring a c.
Proof.
  intros [x [y ->]] [u [v ->]]. exists (u ++ x), (y ++ v).
  now rewrite <- !app_assoc.
Qed.

Lemma substring_lower (t s : str) : substring t s -> substring (lower t) (lower s).
Proof.
  intros [a [b ->]]. exists (lower a), (lower b). unfold lower.
  now rewrite !map_app.
Qed.

Lemma suffix_substring (t s : str) : suffix t s -> substring t s.
Proof. intros [a ->]. exists a, []. now rewrite app_nil_r. Qed.

Lemma drop_while_is_suffix (p : ascii -> bool) (s : str) :
  suffix (drop_while p s) s.
Proof. destruct (drop_while_suffix p s) as [w H]. now exists w. Qed.

Lemma strip_substring (s : str) : substring (strip s) s.
Proof.
  unfold strip, strip_with.
  destruct (drop_while_suffix is_space s) as [w Hw].
  destruct (drop_while_suffix is_space (rev (drop_while is_space s))) as [v Hv].
  exists w, (rev v). rewrite Hw at 1. f_equal.
  rewrite <- (rev_involutive (drop_while is_space s)), Hv at 1.
  now rewrite rev_app_distr.
Qed.

Lemma skipn_substring (n : nat) (s : str) : substring (skipn n s) s.
Proof.
  exists (firstn n s), []. now rewrite app_nil_r, firstn_skipn.
Qed.

Lemma contains_substring (kw t s : str) :
  substring t s -> contains kw t = true -> contains kw s = true.
Proof.
  rewrite !contains_iff. intros H1 H2. eapply substring_trans; eauto.
Qed.

Lemma contains_not_substring (kw t s : str) :
  substring t s -> contains kw s = false -> contains kw t = false.
Proof.
  intros H Hs. destruct (contains kw t) eqn:E; [|reflexivity].
  now rewrite (contains_substring kw H E) in Hs.
Qed.

(** The blacklist test is a substring test on the lower-cased name. *)
Lemma is_blacklisted_substring (t s : str) :
  substring (lower t) (lower s) ->
  Fdm.is_blacklisted t = true -> Fdm.is_blacklisted s = true.
Proof.
  unfold Fdm.is_blacklisted. intros H Ht.
  apply existsb_exists in Ht. destruct Ht as [kw [Hin Hkw]].
  apply existsb_exists. exists kw. split; [exact Hin|].
  eapply contains_substring; eauto.
Qed.

Lemma without_brand_substring (name b : str) :
  substring (without_brand name b) name.
Proof.
  unfold without_brand. destruct (starts_with _ _).
  - eapply substring_trans; [apply strip_substring|apply skipn_substring].
  - apply substring_refl.
Qed.

End SubstringFacts.

(** ** What a match of the engine consumes *)

Section RunFacts.

Variable R : Type.

Lemma suffix_refl (s : str) : suffix s s.
Proof. now exists []. Qed.

Lemma suffix_cons (c : ascii) (t s : str) : suffix t s -> suffix t (c :: s).
Proof. intros [a ->]. now exists (c :: a). Qed.

Lemma suffix_trans (a b c : str) : suffix a b -> suffix b c -> suffix a c.
Proof. intros [x ->] [y ->]. exists (y ++ x). now rewrite app_assoc. Qed.

Lemma star_suffix (p : ascii -> bool) (s : str) n
      (k : str -> nat -> option R) (x : R) :
  Re.star p s n k = Some x ->
  exists s' n', suffix s' s /\ k s' n' = Some x.
Proof.
  revert n. induction s as [|c s IH]; intros n H; cbn [Re.star] in H.
  - exists [], n. split; [apply suffix_refl|exact H].
  - destruct (p c).
    + destruct (Re.star p s (S n) k) as [r|] eqn:E.
      * injection H as ->. destruct (IH _ E) as (s' & n' & Hs & Hk).
        exists s', n'. split; [now apply suffix_cons|exact Hk].
      * exists (c :: s), n. split; [apply suffix_refl|exact H].
    + exists (c :: s), n. split; [apply suffix_refl|exact H].
Qed.

(** The continuation of a successful match runs on a suffix of the text. *)
Lemma run_suffix (r : Re.regex) (s : str) n caps
      (k : str -> nat -> list str -> option R) (x : R) :
  Re.run r s n caps k = Some x ->
  exists s' n' caps', suffix s' s /\ k s' n' caps' = Some x.
Proof.
  revert s n caps k. induction r as [|p|p|r IH|r1 IH1 r2 IH2|r IH];
    intros s n caps k H; cbn [Re.run] in H.
  - exists s, n, caps. split; [apply suffix_refl|exact H].
  - destruct s as [|c s]; [discriminate|]. destruct (p c); [|discriminate].
    exists s, (S n), caps. split; [apply suffix_cons, suffix_refl|exact H].
  - apply star_suffix in H. destruct H as (s' & n' & Hs & Hk).
    now exists s', n', caps.
  - destruct (Re.run r s n caps k) as [y|] eqn:E.
    + injection H as ->. now apply IH in E.
    + exists s, n, caps. split; [apply suffix_refl|exact H].
  - apply IH1 in H. destruct H as (s1 & n1 & c1 & Hs1 & H).
    apply IH2 in H. destruct H as (s2 & n2 & c2 & Hs2 & H).
    exists s2, n2, c2. split; [eapply suffix_trans; eauto|exact H].
  - apply IH in H. destruct H as (s1 & n1 & c1 & Hs1 & H). eauto.
Qed.

Lemma run_word_i_fail (w s : str) n caps
      (k : str -> nat -> list str -> option R) :
  starts_with w (lower s) = false -> Re.run (Re.word_i w) s n caps k = None.
Proof.
  revert s n. induction w as [|c w IH]; intros s n H; [discriminate H|].
  destruct s as [|a s]; [reflexivity|].
  cbn [lower map starts_with] in H. fold (lower s) in H.
  unfold Re.word_i, Re.seq. cbn [map fold_right Re.run].
  unfold Re.chr_i at 1. cbn [Re.run].
  rewrite Ascii.eqb_sym in H.
  destruct (Ascii.eqb (lower_char a) c); [|reflexivity].
  apply IH. exact H.
Qed.

(** A match of a pattern that has the word [w] after some prefix needs [w]
    in the lower-cased text. *)
Lemma run_then_word (r rest : Re.regex) (w s : str) n caps
      (k : str -> nat -> list str -> option R) (x : R) :
  Re.run (Re.Seq r (Re.Seq (Re.word_i w) rest)) s n caps k = Some x ->
  contains w (lower s) = true.
Proof.
  intros H. cbn [Re.run] in H. apply run_suffix in H.
  destruct H as (s1 & n1 & c1 & Hs & H).
  destruct (starts_with w (lower s1)) eqn:E.
  - apply contains_iff. apply starts_with_iff in E. destruct E as [t E].
    apply suffix_substring, substring_lower in Hs.
    eapply substring_trans; [|exact Hs].
    exists [], t. exact E.
  - rewrite run_word_i_fail in H by exact E. discriminate H.
Qed.

End RunFacts.

(** ** The model name *)

Section ModelNameFacts.

Lemma run_seq_word (R : Type) (before rest : list Re.regex) (w s : str) n caps
      (k : str -> nat -> list str -> option R) (x : R) :
  Re.run (Re.seq (before ++ Re.word_i w :: rest)) s n caps k = Some x ->
  contains w (lower s) = true.
Proof.
  revert s n caps. induction before as [|r before IH]; intros s n caps H.
  - cbn [app] in H. unfold Re.seq in H. cbn [fold_right] in H.
    fold (Re.seq rest) in H.
    apply (@run_then_word R Re.Eps (Re.seq rest) w s n caps k x).
    cbn [Re.run]. cbn [Re.run] in H. exact H.
  - cbn [app] in H. unfold Re.seq in H. cbn [fold_right Re.run] in H.
    fold (Re.seq (before ++ Re.word_i w :: rest)) in H.
    apply run_suffix in H. destruct H as (s1 & n1 & c1 & Hs & H).
    apply IH in H. eapply contains_substring; [|exact H].
    now apply substring_lower, suffix_substring.
Qed.

Lemma nozzle_spec_needs_word (s : str) :
  contains (lit "nozzle") (lower s) = false ->
  Re.match_here Fdm.nozzle_spec s = None.
Proof.
  intros H. destruct (Re.match_here Fdm.nozzle_spec s) as [x|] eqn:E;
    [|reflexivity].
  unfold Re.match_here in E.
  change Fdm.nozzle_spec with
    (Re.seq ([ Re.plus is_space; Re.plus is_digit;
               Re.Opt (Re.Group (Re.Seq (Re.chr ".") (Re.plus is_digit)));
               Re.ws; Re.Opt (Re.Group (Re.word_i (lit "mm"))); Re.ws ]
             ++ Re.word_i (lit "nozzle") :: [])) in E.
  apply run_seq_word in E. congruence.
Qed.

Lemma nozzle_paren_needs_word (s : str) :
  contains (lit "nozzle") (lower s) = false ->
  Re.match_here Fdm.nozzle_paren s = None.
Proof.
  intros H. destruct (Re.match_here Fdm.nozzle_paren s) as [x|] eqn:E;
    [|reflexivity].
  unfold Re.match_here in E.
  change Fdm.nozzle_paren with
    (Re.seq ([ Re.ws; Re.chr "("; Re.Star Re.cls_dot ]
             ++ Re.word_i (lit "nozzle") :: [ Re.Star Re.cls_dot; Re.chr ")" ]))
    in E.
  apply run_seq_word in E. congruence.
Qed.

Lemma delete_all_no_match (r : Re.regex) (s : str) :
  (forall t, suffix t s -> Re.match_here r t = None) ->
  Re.delete_all r s = s.
Proof.
  unfold Re.delete_all. induction s as [|c s IH]; intros H; [reflexivity|].
  cbn [Re.delete_from]. rewrite (H (c :: s) (suffix_refl _)).
  f_equal. apply IH. intros t Ht. apply H. now apply suffix_cons.
Qed.

Lemma delete_all_without_word (r : Re.regex) (s : str) :
  (forall t, contains (lit "nozzle") (lower t) = false ->
             Re.match_here r t = None) ->
  contains (lit "nozzle") (lower s) = false ->
  Re.delete_all r s = s.
Proof.
  intros Hr Hs. apply delete_all_no_match. intros t Ht. apply Hr.
  eapply contains_not_substring; [|exact Hs].
  now apply substring_lower, suffix_substring.
Qed.

Lemma base_model_name_without_word (name b : str) :
  contains (lit "nozzle") (lower name) = false ->
  Fdm.get_base_model_name name b = strip (without_brand name b).
Proof.
  intros H. unfold Fdm.get_base_model_name. fold (without_brand name b).
  assert (Hw : contains (lit "nozzle") (lower (without_brand name b)) = false).
  { eapply contains_not_substring; [|exact H].
    apply substring_lower, without_brand_substring. }
  rewrite (@delete_all_without_word _ _ nozzle_spec_needs_word Hw).
  now rewrite (@delete_all_without_word _ _ nozzle_paren_needs_word Hw).
Qed.

Lemma not_blacklisted_no_nozzle (name : str) :
  Fdm.is_blacklisted name = false ->
  contains (lit "nozzle") (lower name) = false.
Proof.
  unfold Fdm.is_blacklisted. intros H.
  destruct (contains (lit "nozzle") (lower name)) eqn:E; [|reflexivity].
  assert (T : existsb (fun kw => contains kw (lower name))
                      Fdm.BLACKLIST_KEYWORDS = true).
  { apply existsb_exists. exists (lit "nozzle"). split; [|exact E].
    unfold Fdm.BLACKLIST_KEYWORDS. simpl. tauto. }
  congruence.
Qed.

Lemma base_model_name_stripped (name b : str) :
  strip (Fdm.get_base_model_name name b) = Fdm.get_base_model_name name b.
Proof. unfold Fdm.get_base_model_name. apply strip_idem. Qed.

Lemma base_model_name_clean (name b : str) :
  Fdm.is_blacklisted name = false ->
  Fdm.get_base_model_name name b = strip (without_brand name b) /\
  Fdm.is_blacklisted (Fdm.get_base_model_name name b) = false.
Proof.
  intros H.
  assert (E := @base_model_name_without_word name b (@not_blacklisted_no_nozzle _ H)).
  split; [exact E|].
  destruct (Fdm.is_blacklisted (Fdm.get_base_model_name name b)) eqn:B;
    [|reflexivity].
  rewrite <- H. symmetry.
  eapply is_blacklisted_substring; [|exact B].
  apply substring_lower. rewrite E.
  eapply substring_trans; [apply strip_substring|apply without_brand_substring].
Qed.

(** X4: the blacklist holds the word nozzle, so a name that passes
    [is_blacklisted] matches neither nozzle pattern:
    [get_base_model_name] only cuts the brand prefix and strips, and its
    result passes the blacklist too. *)
Theorem nozzle_patterns_idle (name b : str) :
  Fdm.is_blacklisted name = false ->
  Fdm.get_base_model_name name b = strip (without_brand name b) /\
  Fdm.is_blacklisted (Fdm.get_base_model_name name b) = false /\
  strip (Fdm.get_base_model_name name b) = Fdm.get_base_model_name name b.
Proof.
  intros H. destruct (@base_model_name_clean name b H) as [E B].
  repeat split; [exact E|exact B|apply base_model_name_stripped].
Qed.

Lemma nozzle_patterns_idle_witness :
  Fdm.get_base_model_name (lit "creality  Ender 3 V2 ") (lit "Creality")
    = strip (without_brand (lit "creality  Ender 3 V2 ") (lit "Creality")) /\
  Fdm.is_blacklisted
    (Fdm.get_base_model_name (lit "creality  Ender 3 V2 ") (lit "Creality")) = false /\
  strip (Fdm.get_base_model_name (lit "creality  Ender 3 V2 ") (lit "Creality"))
    = Fdm.get_base_model_name (lit "creality  Ender 3 V2 ") (lit "Creality").
Proof.
  apply nozzle_patterns_idle. vm_compute. reflexivity.
Defined.

(** X5: the blacklist test ignores letter case and is kept by every longer
    name: a name that holds, in any case, a blacklisted name is blacklisted. *)
Theorem is_blacklisted_embedding (t t' a b : str) :
  lower t' = lower t -> Fdm.is_blacklisted t = true ->
  Fdm.is_blacklisted (a ++ t' ++ b) = true.
Proof.
  intros E H. eapply is_blacklisted_substring; [|exact H].
  rewrite <- E. apply substring_lower. now exists a, b.
Qed.

Lemma is_blacklisted_embedding_witness :
  Fdm.is_blacklisted (lit "Prusa " ++ lit "HotEnd" ++ lit " V6") = true.
Proof.
  apply (@is_blacklisted_embedding (lit "hotend")); reflexivity.
Defined.

End ModelNameFacts.

(** ** The FDM extractor *)

Section FdmExtras.

Lemma fold_result_inv_in (A S : Type) (f : S -> A -> result S) (Inv : S -> Prop)
      (l : list A) :
  (forall s a s', In a l -> Inv s -> f s a = Ok s' -> Inv s') ->
  forall s s', Inv s -> Fdm.fold_result f l s = Ok s' -> Inv s'.
Proof.
  induction l as [|a l IH]; simpl; intros Hf s s' Hs H.
  - now injection H as <-.
  - destruct (f s a) as [s1|e] eqn:E; simpl in H; [|discriminate].
    eapply IH; [|eapply Hf; eauto|exact H].
    intros s0 a0 s0' Hin. apply Hf. now right.
Qed.

Lemma fdm_step_keeps_inv up b st fi st' :
  In b (Fdm.get_brands up) ->
  fdm_inv up st -> Fdm.step up b st fi = Ok st' -> fdm_inv up st'.
Proof.
  intros Hb (Hs & Hn & Hf) H. unfold Fdm.step, bind in H. break_match H;
    try discriminate; try (injection H as <-; now repeat split).
  all: injection H as <-; cbn [fst snd].
  all: try (repeat split; [intros q Hq; right; now apply Hs|exact Hn|exact Hf]).
  all: match goal with
       | E : existsb (Str.eqb (unique_key ?b0 ?m)) _ = false,
         B : Fdm.is_blacklisted ?raw = false,
         V : Fdm.parse_volume _ = Ok ?v |- _ =>
           apply existsb_eqb_false in E;
           destruct (@seen_append (fst st) (snd st)
                       (Printer b0 m (lit "FDM") v (Fdm.find_image_url up b0 m)
                                (lit "OrcaSlicer")) Hs Hn E) as [G1 G2];
           destruct (@base_model_name_clean raw b0 B) as [_ G3]
       end.
  all: repeat split; try assumption.
  all: apply Forall_app; split; [exact Hf|]; constructor; [|constructor].
  all: unfold fdm_shape; cbn [technology source brand model image_url].
  all: repeat split; try assumption; apply base_model_name_stripped.
Qed.

Lemma extract_fdm_inv up l :
  Fdm.extract_fdm_printers up = Ok l ->
  NoDup (map sort_key l) /\ Forall (fdm_shape up) l.
Proof.
  unfold Fdm.extract_fdm_printers, bind. intros H.
  destruct (Fdm.fold_result _ _ _) as [st|e] eqn:E; [|discriminate].
  injection H as <-.
  assert (I : fdm_inv up st).
  { eapply (@fold_result_inv_in _ _ _ (fdm_inv up)); [| |exact E].
    - intros s b s' Hb Hs Hf.
      eapply (@fold_result_inv _ _ _ (fdm_inv up)); [|exact Hs|exact Hf].
      intros s0 fi s1 H0 H1. eapply fdm_step_keeps_inv; eauto.
    - repeat split; [intros q []|constructor|constructor]. }
  destruct I as (_ & Hn & Hf). now split.
Qed.

(** X6: the records of [extract_fdm_printers] differ pairwise in the
    lower-cased (brand, model); each has technology FDM and source
    OrcaSlicer, a brand of the brand listing, the image that
    [find_image_url] reports for its brand and model, and a model name
    without surrounding whitespace that passes the blacklist. *)
Theorem extract_fdm_printers_records (up : Fdm.upstream) (l : list printer) :
  Fdm.extract_fdm_printers up = Ok l ->
  NoDup (map sort_key l) /\
  Forall (fun p =>
            technology p = lit "FDM" /\ source p = lit "OrcaSlicer" /\
            In (brand p) (Fdm.get_brands up) /\
            image_url p = Fdm.find_image_url up (brand p) (model p) /\
            strip (model p) = model p /\
            Fdm.is_blacklisted (model p) = false) l.
Proof.
  intros H. apply extract_fdm_inv in H. exact H.
Qed.

Lemma extract_fdm_printers_records_witness :
  NoDup (map sort_key [ender (lit "Ender-3") 220; ender (lit "Ender 3") 235]) /\
  Forall (fun p =>
            technology p = lit "FDM" /\ source p = lit "OrcaSlicer" /\
            In (brand p) (Fdm.get_brands (creality [file_hyphen; file_space])) /\
            image_url p = Fdm.find_image_url (creality [file_hyphen; file_space])
                                             (brand p) (model p) /\
            strip (model p) = model p /\
            Fdm.is_blacklisted (model p) = false)
         [ender (lit "Ender-3") 220; ender (lit "Ender 3") 235].
Proof.
  apply extract_fdm_printers_records. vm_compute. reflexivity.
Defined.

(** X7: when no machine file can be downloaded and parsed, the extractor
    returns the empty list and raises nothing, whatever the listings hold. *)
Theorem extract_fdm_printers_no_download (up : Fdm.upstream) :
  (forall url, Fdm.parse_machine_json up url = None) ->
  Fdm.extract_fdm_printers up = Ok [].
Proof.
  intros Hd.
  assert (Hstep : forall b st fi, Fdm.step up b st fi = Ok st).
  { intros b st fi. unfold Fdm.step.
    destruct (Fdm.fi_download_url fi) as [[|c url]|]; try reflexivity.
    now rewrite Hd. }
  assert (Hfiles : forall b files st,
             Fdm.fold_result (Fdm.step up b) files st = Ok st).
  { intros b files. induction files as [|fi files IH]; intros st;
      [reflexivity|]. cbn [Fdm.fold_result]. rewrite Hstep. apply IH. }
  assert (Hbrands : forall bs st,
             Fdm.fold_result
               (fun st b => Fdm.fold_result (Fdm.step up b)
                                            (Fdm.get_machine_files up b) st)
               bs st = Ok st).
  { induction bs as [|b bs IH]; intros st; [reflexivity|].
    cbn [Fdm.fold_result]. rewrite Hfiles. apply IH. }
  unfold Fdm.extract_fdm_printers. now rewrite Hbrands.
Qed.

Lemma extract_fdm_printers_no_download_witness :
  Fdm.extract_fdm_printers
    (Fdm.Upstream [lit "Creality"] (fun _ => [file_hyphen; file_space])
                  (fun _ => None) (fun _ _ => None)) = Ok [].
Proof.
  apply extract_fdm_printers_no_download. reflexivity.
Defined.

End FdmExtras.

(** ** The image probe *)

Section ProbeExtras.

Lemma replace_single (c : ascii) (new s : str) :
  replace [c] new s = flat_map (fun a => if Ascii.eqb c a then new else [a]) s.
Proof.
  unfold replace. induction s as [|a s IH]; [reflexivity|].
  cbn [replace_from starts_with flat_map length Nat.sub].
  rewrite andb_true_r. destruct (Ascii.eqb c a); now rewrite IH.
Qed.

Lemma quote_spaces_app (a b : str) :
  Probe.quote_spaces (a ++ b) = Probe.quote_spaces a ++ Probe.quote_spaces b.
Proof.
  unfold Probe.quote_spaces. change (lit " ") with [" "%char].
  rewrite !replace_single. apply flat_map_app.
Qed.

Lemma quote_spaces_no_space (u : str) : ~ In " "%char (Probe.quote_spaces u).
Proof.
  unfold Probe.quote_spaces. change (lit " ") with [" "%char].
  rewrite replace_single, in_flat_map. intros [a [_ Ha]].
  destruct (Ascii.eqb " " a) eqn:E.
  - simpl in Ha. intuition discriminate.
  - destruct Ha as [Ha|[]]. subst a. discriminate E.
Qed.

Lemma starts_with_app (p t : str) : starts_with p (p ++ t) = true.
Proof. apply starts_with_iff. now exists t. Qed.

Lemma ends_with_app (p t : str) : ends_with p (t ++ p) = true.
Proof. unfold ends_with. rewrite rev_app_distr. apply starts_with_app. Qed.

Lemma candidate_shape (b m c : str) :
  In c (Probe.candidates b m) ->
  exists middle, c = Probe.GITHUB_RAW_BASE ++ middle ++ lit "_cover.png".
Proof.
  unfold Probe.candidates. intros [<-|[<-|[]]].
  - exists (lit "/" ++ Probe.PROFILES_PATH ++ lit "/" ++ b ++ lit "/" ++ b
            ++ lit " " ++ m).
    now rewrite <- !app_assoc.
  - exists (lit "/" ++ Probe.PROFILES_PATH ++ lit "/" ++ b ++ lit "/"
            ++ replace (lit " ") (lit "_") (b ++ lit " " ++ m)).
    now rewrite <- !app_assoc.
Qed.

Lemma quoted_candidate_shape (b m c : str) :
  In c (Probe.candidates b m) ->
  starts_with Probe.GITHUB_RAW_BASE (Probe.quote_spaces c) = true /\
  ends_with (lit "_cover.png") (Probe.quote_spaces c) = true.
Proof.
  intros H. apply candidate_shape in H. destruct H as [middle ->].
  rewrite !quote_spaces_app.
  change (Probe.quote_spaces Probe.GITHUB_RAW_BASE) with Probe.GITHUB_RAW_BASE.
  change (Probe.quote_spaces (lit "_cover.png")) with (lit "_cover.png").
  split; [apply starts_with_app|].
  rewrite app_assoc. apply ends_with_app.
Qed.

Lemma probe_some (head : str -> option Z) (urls : list str) (u : str) :
  Probe.probe head urls = Some u ->
  exists c, In c urls /\ u = Probe.quote_spaces c /\ head u = Some 200%Z.
Proof.
  induction urls as [|c urls IH]; cbn [Probe.probe]; [discriminate|].
  destruct (head (Probe.quote_spaces c)) as [status|] eqn:E.
  - destruct (Z.eqb_spec status 200) as [->|Hne].
    + intros [= <-]. exists c. repeat split; [now left|exact E].
    + intros H. destruct (IH H) as (c' & Hin & Hu & Hh).
      exists c'. repeat split; [now right|exact Hu|exact Hh].
  - intros H. destruct (IH H) as (c' & Hin & Hu & Hh).
    exists c'. repeat split; [now right|exact Hu|exact Hh].
Qed.

Lemma probe_none (head : str -> option Z) (urls : list str) :
  Probe.probe head urls = None <->
  forall c, In c urls -> head (Probe.quote_spaces c) <> Some 200%Z.
Proof.
  induction urls as [|c urls IH]; cbn [Probe.probe].
  - split; [intros _ c []|reflexivity].
  - destruct (head (Probe.quote_spaces c)) as [status|] eqn:E.
    + destruct (Z.eqb_spec status 200) as [->|Hne].
      * split; [discriminate|]. intros H. exfalso.
        apply (H c); [now left|exact E].
      * rewrite IH. split.
        -- intros H c' [<-|Hin]; [rewrite E; congruence|now apply H].
        -- intros H c' Hin. apply H. now right.
    + rewrite IH. split.
      * intros H c' [<-|Hin]; [rewrite E; discriminate|now apply H].
      * intros H c' Hin. apply H. now right.
Qed.

(** X8: [find_image_url] returns a URL only if the HEAD request on it
    answered 200; that URL holds no space, starts with the raw base URL and
    ends in [_cover.png]; the first candidate wins when it answers 200; and
    the result is [None] exactly when no candidate answers 200, a raised
    request counting as no answer. *)
Theorem find_image_url_result (head : str -> option Z) (b m : str) :
  (forall u, Probe.find_image_url head b m = Some u ->
     head u = Some 200%Z /\ ~ In " "%char u /\
     starts_with Probe.GITHUB_RAW_BASE u = true /\
     ends_with (lit "_cover.png") u = true) /\
  (forall c rest, Probe.candidates b m = c :: rest ->
     head (Probe.quote_spaces c) = Some 200%Z ->
     Probe.find_image_url head b m = Some (Probe.quote_spaces c)) /\
  (Probe.find_image_url head b m = None <->
   forall c, In c (Probe.candidates b m) ->
             head (Probe.quote_spaces c) <> Some 200%Z).
Proof.
  unfold Probe.find_image_url. split; [|split].
  - intros u H. apply probe_some in H. destruct H as (c & Hin & -> & Hh).
    destruct (quoted_candidate_shape Hin) as [H1 H2].
    repeat split; try assumption. apply quote_spaces_no_space.
  - intros c rest -> H. cbn [Probe.probe]. now rewrite H.
  - apply probe_none.
Qed.

Lemma find_image_url_result_witness :
  ~ In " "%char
      (lit "https://raw.githubusercontent.com/SoftFever/OrcaSlicer/main/resources/profiles/Bambu%20Lab/Bambu%20Lab%20X1%20Carbon_cover.png") /\
  starts_with Probe.GITHUB_RAW_BASE
      (lit "https://raw.githubusercontent.com/SoftFever/OrcaSlicer/main/resources/profiles/Bambu%20Lab/Bambu%20Lab%20X1%20Carbon_cover.png") = true.
Proof.
  destruct (proj1 (find_image_url_result (fun _ => Some 200%Z)
                     (lit "Bambu Lab") (lit "X1 Carbon"))
                  (lit "https://raw.githubusercontent.com/SoftFever/OrcaSlicer/main/resources/profiles/Bambu%20Lab/Bambu%20Lab%20X1%20Carbon_cover.png")
                  eq_refl) as (_ & H1 & H2 & _).
  exact (conj H1 H2).
Defined.

End ProbeExtras.

(** ** The alphabet of the merge key *)

Section KeyAlphabet.

Lemma brand_char_lower (c : ascii) :
  brand_char (lower_char c) <> " "%char /\
  is_upper (brand_char (lower_char c)) = false.
Proof.
  destruct c as [[] [] [] [] [] [] [] []]; split;
    solve [reflexivity | discriminate].
Qed.

Lemma model_char_lower (c : ascii) :
  model_char (lower_char c) <> " "%char /\
  model_char (lower_char c) <> "-"%char /\
  is_upper (model_char (lower_char c)) = false.
Proof.
  destruct c as [[] [] [] [] [] [] [] []]; repeat split;
    solve [reflexivity | discriminate].
Qed.

(** X9: a merge key holds no space and no upper-case letter, and its model
    part holds no hyphen either. *)
Theorem normalize_key_alphabet (b m : str) :
  Forall (fun c => c <> " "%char /\ is_upper c = false)
         (Build.normalize_key b m) /\
  ~ In "-"%char (Build.model_norm m).
Proof.
  unfold Build.normalize_key.
  rewrite brand_norm_chars, model_norm_chars, !strip_lower.
  unfold lower. rewrite !map_map. split.
  - rewrite !Forall_app. repeat split.
    + apply Forall_forall. intros c Hc. apply in_map_iff in Hc.
      destruct Hc as [a [<- _]]. apply brand_char_lower.
    + repeat constructor; discriminate.
    + apply Forall_forall. intros c Hc. apply in_map_iff in Hc.
      destruct Hc as [a [<- _]]. destruct (model_char_lower a) as (H1 & _ & H3).
      now split.
  - intros Hc. apply in_map_iff in Hc. destruct Hc as [a [E _]].
    destruct (model_char_lower a) as (_ & H2 & _). congruence.
Qed.

End KeyAlphabet.

(** ** More on the merge *)

Section MergeExtras.

Lemma dict_set_length (V : Type) (d : list (str * V)) k v :
  length (Build.dict_set d k v) <= S (length d).
Proof.
  induction d as [|[k0 v0] d IH]; simpl; [lia|].
  destruct (Str.eqb k0 k); simpl; lia.
Qed.

Lemma add_all_length s l d :
  length (Build.add_all s l d) <= length d + length l.
Proof.
  revert d. induction l as [|p l IH]; intros d; [simpl; lia|].
  rewrite add_all_cons. specialize (IH (Build.dict_set d (Build.tech_key s p) p)).
  assert (H := dict_set_length d (Build.tech_key s p) p). simpl. lia.
Qed.

(** X10: [merge_printers] returns records of its inputs only, never more
    than it was given, and all of them, reordered, when no list repeats a
    normalized key. *)
Theorem merge_printers_keeps_inputs (fdm sla : list printer) :
  (forall p, In p (Build.merge_printers fdm sla) -> In p fdm \/ In p sla) /\
  length (Build.merge_printers fdm sla) <= length fdm + length sla /\
  (NoDup (map norm_key fdm) -> NoDup (map norm_key sla) ->
   Permutation (Build.merge_printers fdm sla) (fdm ++ sla)).
Proof.
  split; [|split].
  - intros p. apply in_merge_printers.
  - unfold Build.merge_printers.
    rewrite (Permutation_length (sort_printers_perm _)), length_map.
    unfold Build.merged.
    assert (H1 := add_all_length (lit "|sla") sla
                    (Build.add_all (lit "|fdm") fdm [])).
    assert (H2 := add_all_length (lit "|fdm") fdm []). cbn [length] in H2. lia.
  - intros Hf Hs. unfold Build.merge_printers.
    rewrite sort_printers_perm. now rewrite merged_values_fresh.
Qed.

Lemma merge_printers_keeps_inputs_witness :
  Permutation (Build.merge_printers [ender (lit "Voron") 350] [mars_b])
              ([ender (lit "Voron") 350] ++ [mars_b]).
Proof.
  apply (proj2 (proj2 (merge_printers_keeps_inputs
                         [ender (lit "Voron") 350] [mars_b])));
    repeat constructor; intros [].
Defined.

Lemma merged_single_keys (l : list printer) (e : str * printer) :
  In e (Build.merged l []) -> fst e = norm_key (snd e) ++ lit "|fdm".
Proof.
  intros H. apply merged_entries in H. destruct H as [[_ H]|[[] _]]. exact H.
Qed.

(** X11: merging one source alone leaves one record per normalized key, and
    for each key it is the last record of the list with that key (the later
    write wins). *)
Theorem merge_single_source (l : list printer) :
  NoDup (map norm_key (Build.merge_printers l [])) /\
  (forall q, In q (Build.merge_printers l []) ->
             last_with_key (norm_key q) l = Some q) /\
  (forall p, In p l ->
     exists q, In q (Build.merge_printers l []) /\ norm_key q = norm_key p).
Proof.
  split; [|split].
  - unfold Build.merge_printers.
    eapply Permutation_NoDup.
    { apply Permutation_map. symmetry. apply sort_printers_perm. }
    apply nodup_values; [apply merged_nodup|].
    intros e1 e2 H1 H2 E.
    rewrite (merged_single_keys _ _ H1), (merged_single_keys _ _ H2).
    now rewrite E.
  - intros q Hq. unfold Build.merge_printers in Hq.
    rewrite in_sort_printers, in_map_iff in Hq.
    destruct Hq as [[k q'] [E He]]. cbn [snd] in E. subst q'.
    assert (Hk := merged_single_keys _ _ He). cbn [fst snd] in Hk. subst k.
    rewrite <- (merged_get_fdm l [] (norm_key q)).
    apply in_dict_get; [apply merged_nodup|exact He].
  - intros p Hp.
    destruct (fold_last_found (has_norm_key (norm_key p)) l None p Hp)
      as [q Hq]; [apply eqb_refl|].
    fold (last_with_key (norm_key p) l) in Hq. exists q. split.
    + apply (in_merged_values l [] (norm_key p ++ lit "|fdm")).
      now rewrite merged_get_fdm.
    + apply fold_last_sound in Hq. destruct Hq as [_ Hq].
      now apply eqb_eq in Hq.
Qed.

Lemma merge_single_source_witness :
  exists q, In q (Build.merge_printers
                    [ender (lit "Ender-3") 220; ender (lit "Ender 3") 235] []) /\
            norm_key q = norm_key (ender (lit "Ender-3") 220).
Proof.
  apply (proj2 (proj2 (merge_single_source
                         [ender (lit "Ender-3") 220; ender (lit "Ender 3") 235]))).
  now left.
Defined.

End MergeExtras.

(** ** The metadata *)

Section MetaExtras.

Lemma in_insert_brand (b x : str) (l : list str) :
  In x (Meta.insert_brand b l) <-> x = b \/ In x l.
Proof.
  induction l as [|c l IH]; cbn [Meta.insert_brand].
  - simpl. intuition congruence.
  - destruct (Str.compare b c) eqn:E.
    + apply compare_eq in E. subst c. simpl. intuition congruence.
    + simpl. intuition congruence.
    + cbn [In]. rewrite IH. intuition congruence.
Qed.

Lemma insert_brand_sorted (b : str) (l : list str) :
  StronglySorted str_lt l -> StronglySorted str_lt (Meta.insert_brand b l).
Proof.
  induction 1 as [|c l Hs IH Hc]; cbn [Meta.insert_brand].
  - repeat constructor.
  - destruct (Str.compare b c) eqn:E.
    + now constructor.
    + constructor; [now constructor|]. constructor; [exact E|].
      eapply Forall_impl; [|exact Hc]. intros d Hd.
      eapply compare_lt_trans; eauto.
    + constructor; [exact IH|].
      apply Forall_forall. intros d Hd. apply in_insert_brand in Hd.
      destruct Hd as [->|Hd].
      * unfold str_lt. rewrite (compare_antisym b c), E. reflexivity.
      * rewrite Forall_forall in Hc. now apply Hc.
Qed.

Lemma insert_brand_length (b : str) (l : list str) :
  length (Meta.insert_brand b l) <= S (length l).
Proof.
  induction l as [|c l IH]; cbn [Meta.insert_brand]; [simpl; lia|].
  destruct (Str.compare b c); simpl; lia.
Qed.

Lemma in_sorted_set (x : str) (l : list str) : In x (Meta.sorted_set l) <-> In x l.
Proof.
  induction l as [|b l IH]; [reflexivity|].
  cbn [Meta.sorted_set fold_right]. fold (Meta.sorted_set l).
  rewrite in_insert_brand, IH. simpl. intuition congruence.
Qed.

Lemma sorted_set_sorted (l : list str) : StronglySorted str_lt (Meta.sorted_set l).
Proof.
  induction l as [|b l IH]; [constructor|].
  cbn [Meta.sorted_set fold_right]. now apply insert_brand_sorted.
Qed.

Lemma sorted_set_length (l : list str) : length (Meta.sorted_set l) <= length l.
Proof.
  induction l as [|b l IH]; [simpl; lia|].
  cbn [Meta.sorted_set fold_right]. fold (Meta.sorted_set l).
  assert (H := insert_brand_length b (Meta.sorted_set l)). simpl. lia.
Qed.

Lemma str_lt_irrefl (a : str) : ~ str_lt a a.
Proof. unfold str_lt. now rewrite compare_refl. Qed.

(** A strictly increasing list is determined by its elements. *)
Lemma strictly_sorted_unique (l1 l2 : list str) :
  StronglySorted str_lt l1 -> StronglySorted str_lt l2 ->
  (forall x, In x l1 <-> In x l2) -> l1 = l2.
Proof.
  intros H1. revert l2. induction H1 as [|a l1 Hs1 IH Ha]; intros l2 H2 Hm.
  - destruct l2 as [|b l2]; [reflexivity|].
    exfalso. apply (Hm b). now left.
  - destruct H2 as [|b l2 Hs2 Hb].
    + exfalso. apply (Hm a). now left.
    + rewrite Forall_forall in Ha, Hb.
      assert (E : a = b).
      { destruct (proj1 (Hm a) (or_introl eq_refl)) as [E|Hin]; [now symmetry|].
        destruct (proj2 (Hm b) (or_introl eq_refl)) as [E|Hin']; [exact E|].
        exfalso. apply (@str_lt_irrefl a).
        eapply compare_lt_trans; [apply Ha; exact Hin'|apply Hb; exact Hin]. }
      subst b. f_equal. apply IH; [exact Hs2|].
      intros x. split; intros Hx.
      * destruct (proj1 (Hm x) (or_intror Hx)) as [<-|H]; [|exact H].
        exfalso. apply (@str_lt_irrefl a). now apply Ha.
      * destruct (proj2 (Hm x) (or_intror Hx)) as [<-|H]; [|exact H].
        exfalso. apply (@str_lt_irrefl a). now apply Hb.
Qed.

Lemma filter_length_le (A : Type) (f : A -> bool) (l : list A) :
  length (filter f l) <= length l.
Proof.
  induction l as [|a l IH]; simpl; [lia|]. destruct (f a); simpl; lia.
Qed.

Lemma filter_length_mono (A : Type) (f g : A -> bool) (l : list A) :
  (forall a, In a l -> f a = true -> g a = true) ->
  length (filter f l) <= length (filter g l).
Proof.
  induction l as [|a l IH]; intros H; [simpl; lia|]. simpl.
  assert (IH' := IH (fun b Hb => H b (or_intror Hb))).
  destruct (f a) eqn:Ef.
  - rewrite (H a (or_introl eq_refl) Ef). simpl. lia.
  - destruct (g a); simpl; lia.
Qed.

Lemma filter_length_split (A : Type) (f g : A -> bool) (l : list A) :
  (forall a, In a l -> f a = negb (g a)) ->
  length (filter f l) + length (filter g l) = length l.
Proof.
  induction l as [|a l IH]; intros H; [reflexivity|]. simpl.
  assert (IH' := IH (fun b Hb => H b (or_intror Hb))).
  rewrite (H a (or_introl eq_refl)). destruct (g a); simpl; lia.
Qed.

(** X12: the brand list of the metadata is strictly increasing in the
    code-point order, holds exactly the brands of the records as they are
    stored, and [brand_count] is its length, at most [total_printers]. *)
Theorem metadata_brands (now : str) (l : list printer) :
  StronglySorted str_lt (Meta.brands (Meta.generate_metadata now l)) /\
  (forall b, In b (Meta.brands (Meta.generate_metadata now l)) <->
             exists p, In p l /\ brand p = b) /\
  Meta.brand_count (Meta.generate_metadata now l)
    = length (Meta.brands (Meta.generate_metadata now l)) /\
  Meta.brand_count (Meta.generate_metadata now l)
    <= Meta.total_printers (Meta.generate_metadata now l).
Proof.
  cbn [Meta.generate_metadata Meta.brands Meta.brand_count Meta.total_printers].
  split; [apply sorted_set_sorted|]. split; [|split].
  - intros b. rewrite in_sorted_set, in_map_iff. split.
    + intros [p [E H]]. now exists p.
    + intros [p [H E]]. now exists p.
  - reflexivity.
  - rewrite <- (length_map brand l). apply sorted_set_length.
Qed.

(** X13: apart from the time stamp it is given, the metadata does not
    depend on the order of the records. *)
Theorem metadata_order_independent (now : str) (l l' : list printer) :
  Permutation l l' ->
  Meta.generate_metadata now l = Meta.generate_metadata now l'.
Proof.
  intros H. unfold Meta.generate_metadata.
  rewrite (Permutation_length H).
  rewrite !(Permutation_length (filter_perm _ H)).
  assert (E : Meta.sorted_set (map brand l) = Meta.sorted_set (map brand l')).
  { apply strictly_sorted_unique; try apply sorted_set_sorted.
    intros x. rewrite !in_sorted_set.
    split; apply Permutation_in; [|symmetry]; now apply Permutation_map. }
  now rewrite E.
Qed.

Lemma metadata_order_independent_witness :
  Meta.generate_metadata (lit "2026-01-01T00:00:00+00:00") [mars_a; mars_b]
  = Meta.generate_metadata (lit "2026-01-01T00:00:00+00:00") [mars_b; mars_a].
Proof.
  apply metadata_order_independent. apply perm_swap.
Defined.

Lemma extract_sla_shape o l :
  Sla.extract_sla_printers o = Ok l -> Forall sla_shape l.
Proof.
  unfold Sla.extract_sla_printers. intros H.
  destruct (Sla.fetch_machine_cs o) as [|c cs]; [injection H as <-; constructor|].
  destruct (Sla.parse_machines (c :: cs)) as [ps|e] eqn:E; [|discriminate].
  cbn [bind] in H. injection H as <-.
  eapply Permutation_Forall; [symmetry; apply sort_printers_perm|].
  now apply parse_machines_inv in E.
Qed.

(** X14: for every list the two technology counts together do not exceed
    the total; on the list that the build saves they add up to the total,
    and no more records have an image than there are FDM records. *)
Theorem metadata_counts (now : str) (l : list printer) :
  Meta.fdm_count (Meta.generate_metadata now l)
    + Meta.sla_count (Meta.generate_metadata now l)
    <= Meta.total_printers (Meta.generate_metadata now l) /\
  Meta.with_images (Meta.generate_metadata now l)
    <= Meta.total_printers (Meta.generate_metadata now l) /\
  (forall up o, Build.all_printers up o = Ok l ->
     Meta.fdm_count (Meta.generate_metadata now l)
       + Meta.sla_count (Meta.generate_metadata now l)
       = Meta.total_printers (Meta.generate_metadata now l) /\
     Meta.with_images (Meta.generate_metadata now l)
       <= Meta.fdm_count (Meta.generate_metadata now l)).
Proof.
  cbn [Meta.generate_metadata Meta.fdm_count Meta.sla_count
       Meta.with_images Meta.total_printers].
  split; [|split].
  - rewrite <- filter_or_length.
    + apply filter_length_le.
    + intros p _ H1 H2. apply eqb_eq in H1, H2. rewrite H1 in H2. discriminate.
  - apply filter_length_le.
  - intros up o H. unfold Build.all_printers, bind in H.
    destruct (Fdm.extract_fdm_printers up) as [fdm|e] eqn:Ef; [|discriminate].
    destruct (Sla.extract_sla_printers o) as [sla|e] eqn:Es; [|discriminate].
    injection H as <-.
    apply extract_fdm_threshold in Ef. apply extract_sla_shape in Es.
    rewrite Forall_forall in Ef, Es.
    assert (Hp : forall p, In p (Build.merge_printers fdm sla) ->
               (technology p = lit "FDM") \/
               (technology p = lit "SLA" /\ image_url p = None)).
    { intros p Hp. apply in_merge_printers in Hp. destruct Hp as [Hp|Hp].
      - left. now apply Ef.
      - right. destruct (Es p Hp) as (H1 & H2 & _). now split. }
    split.
    + apply filter_length_split. intros p Hin.
      destruct (Hp p Hin) as [->|[-> _]]; reflexivity.
    + apply filter_length_mono. intros p Hin Hi.
      destruct (Hp p Hin) as [->|[_ Hn]]; [reflexivity|].
      unfold Meta.has_image in Hi. rewrite Hn in Hi. discriminate.
Qed.

Lemma metadata_counts_witness :
  Meta.fdm_count (Meta.generate_metadata [] [ender (lit "Ender-3") 220])
    + Meta.sla_count (Meta.generate_metadata [] [ender (lit "Ender-3") 220])
    = Meta.total_printers (Meta.generate_metadata [] [ender (lit "Ender-3") 220]) /\
  Meta.with_images (Meta.generate_metadata [] [ender (lit "Ender-3") 220])
    <= Meta.fdm_count (Meta.generate_metadata [] [ender (lit "Ender-3") 220]).
Proof.
  apply (proj2 (proj2 (metadata_counts [] [ender (lit "Ender-3") 220]))
               (creality [file_hyphen]) (Sla.Failed Sla.Timeout)).
  vm_compute. reflexivity.
Defined.

End MetaExtras.

(** ** Soundness of the matcher *)

Section MatchFacts.

Variable R : Type.

Lemma star_sound (p : ascii -> bool) (s : str) n
      (k : str -> nat -> option R) (x : R) :
  Re.star p s n k = Some x ->
  exists t s', s = t ++ s' /\ Forall (fun c => p c = true) t /\
               k s' (n + length t) = Some x.
Proof.
  revert n. induction s as [|c s IH]; intros n H; cbn [Re.star] in H.
  - exists [], []. cbn [length]. rewrite Nat.add_0_r. now repeat split.
  - destruct (p c) eqn:Pc.
    + destruct (Re.star p s (S n) k) as [r|] eqn:E.
      * injection H as ->. destruct (IH _ E) as (t & s' & -> & Ft & Hk).
        exists (c :: t), s'. cbn [length app].
        rewrite Nat.add_succ_r. repeat split; [now constructor|exact Hk].
      * exists [], (c :: s). cbn [length]. rewrite Nat.add_0_r.
        now repeat split.
    + exists [], (c :: s). cbn [length]. rewrite Nat.add_0_r.
      now repeat split.
Qed.

(** A successful run consumed a text that the pattern matches, and handed
    the rest, with the groups it captured, to its continuation. *)
Lemma run_sound (r : Re.regex) (s : str) n caps
      (k : str -> nat -> list str -> option R) (x : R) :
  Re.run r s n caps k = Some x ->
  exists t g s', s = t ++ s' /\ matches r t g /\
                 k s' (n + length t) (caps ++ g) = Some x.
Proof.
  revert s n caps k. induction r as [|p|p|r IH|r1 IH1 r2 IH2|r IH];
    intros s n caps k H; cbn [Re.run] in H.
  - exists [], [], s. cbn [length matches]. rewrite Nat.add_0_r, app_nil_r.
    now repeat split.
  - destruct s as [|c s]; [discriminate|].
    destruct (p c) eqn:Pc; [|discriminate].
    exists [c], [], s. cbn [length matches]. rewrite Nat.add_1_r, app_nil_r.
    repeat split; [|exact H]. now exists c.
  - apply star_sound in H. destruct H as (t & s' & -> & Ft & Hk).
    exists t, [], s'. cbn [matches]. rewrite app_nil_r. now repeat split.
  - destruct (Re.run r s n caps k) as [y|] eqn:E.
    + injection H as ->. apply IH in E.
      destruct E as (t & g & s' & -> & Hm & Hk).
      exists t, g, s'. cbn [matches]. repeat split; [now right|exact Hk].
    + exists [], [], s. cbn [length matches]. rewrite Nat.add_0_r, app_nil_r.
      repeat split; [now left|exact H].
  - apply IH1 in H. destruct H as (t1 & g1 & s1 & -> & Hm1 & H).
    apply IH2 in H. destruct H as (t2 & g2 & s2 & -> & Hm2 & H).
    exists (t1 ++ t2), (g1 ++ g2), s2. cbn [matches]. split; [|split].
    + now rewrite app_assoc.
    + now exists t1, t2, g1, g2.
    + rewrite length_app, Nat.add_assoc, (app_assoc caps g1 g2). exact H.
  - apply IH in H. destruct H as (t & g & s' & -> & Hm & H).
    exists t, (g ++ [t]), s'. cbn [matches].
    replace (n + length t - n) with (length t) in H by lia.
    rewrite firstn_app, firstn_all, Nat.sub_diag in H. cbn [firstn] in H.
    rewrite app_nil_r, <- app_assoc in H.
    repeat split; [|exact H]. now exists g.
Qed.

End MatchFacts.

Section FindallFacts.

Lemma match_here_sound (r : Re.regex) (s : str) n caps :
  Re.match_here r s = Some (n, caps) ->
  exists t s', s = t ++ s' /\ matches r t caps /\ n = length t.
Proof.
  unfold Re.match_here. intros H. apply run_sound in H.
  destruct H as (t & g & s' & -> & Hm & [= <- <-]). now exists t, s'.
Qed.

(** Every element of [findall] is the group list of a match. *)
Lemma findall_sound (r : Re.regex) (s : str) (skip : nat) (m : list str) :
  In m (Re.findall_from r s skip) -> exists t, matches r t m.
Proof.
  revert skip. induction s as [|c s IH]; intros skip H;
    cbn [Re.findall_from] in H.
  - destruct skip; [|destruct H].
    destruct (Re.match_here r []) as [[n caps]|] eqn:E; [|destruct H].
    destruct H as [<-|[]]. apply match_here_sound in E.
    destruct E as (t & _ & _ & Hm & _). now exists t.
  - destruct skip as [|skip]; [|now apply IH in H].
    destruct (Re.match_here r (c :: s)) as [[n caps]|] eqn:E;
      [|now apply IH in H].
    destruct H as [<-|H]; [|now apply IH in H].
    apply match_here_sound in E. destruct E as (t & _ & _ & Hm & _).
    now exists t.
Qed.

End FindallFacts.

(** ** The groups of the machine pattern *)

Section PatternGroups.

Lemma matches_seq_cons (r : Re.regex) (rs : list Re.regex) t g :
  matches (Re.seq (r :: rs)) t g ->
  exists t1 t2 g1 g2,
    t = t1 ++ t2 /\ g = g1 ++ g2 /\ matches r t1 g1 /\ matches (Re.seq rs) t2 g2.
Proof. intros H. exact H. Qed.

Lemma matches_seq_nil t g : matches (Re.seq []) t g -> g = [].
Proof. now intros [_ ->]. Qed.

Lemma matches_chr c t g : matches (Re.chr c) t g -> g = [].
Proof. now intros (x & _ & _ & ->). Qed.

Lemma matches_ws t g : matches Re.ws t g -> g = [].
Proof. now intros [_ ->]. Qed.

Lemma matches_word w t g : matches (Re.word w) t g -> g = [].
Proof.
  revert t g. induction w as [|c w IH]; intros t g H.
  - now apply matches_seq_nil in H.
  - apply (@matches_seq_cons (Re.chr c) (map Re.chr w)) in H.
    destruct H as (t1 & t2 & g1 & g2 & _ & -> & H1 & H2).
    apply matches_chr in H1. apply IH in H2. now subst.
Qed.

Lemma matches_opt_chr c t g : matches (Re.Opt (Re.chr c)) t g -> g = [].
Proof. intros [[_ ->]|H]; [reflexivity|now apply matches_chr in H]. Qed.

Lemma matches_group_plus p t g :
  matches (Re.Group (Re.plus p)) t g -> g = [t] /\ over p t.
Proof.
  intros (g' & -> & t1 & t2 & g1 & g2 & -> & -> & H1 & H2).
  destruct H1 as (c & -> & Pc & ->). destruct H2 as [F ->].
  split; [reflexivity|]. split; [discriminate|]. now constructor.
Qed.

Lemma matches_comma t g :
  matches (Re.seq [Re.ws; Re.chr ","; Re.ws]) t g -> g = [].
Proof.
  intros H.
  apply matches_seq_cons in H; destruct H as (? & ? & ? & ? & _ & -> & M1 & H).
  apply matches_seq_cons in H; destruct H as (? & ? & ? & ? & _ & -> & M2 & H).
  apply matches_seq_cons in H; destruct H as (? & ? & ? & ? & _ & -> & M3 & H).
  apply matches_ws in M1, M3. apply matches_chr in M2.
  apply matches_seq_nil in H. now subst.
Qed.

Lemma matches_num t g :
  matches (Re.Seq (Re.Group (Re.plus Re.cls_num)) (Re.Opt (Re.chr "f"))) t g ->
  exists w, g = [w] /\ over Re.cls_num w.
Proof.
  intros (t1 & t2 & g1 & g2 & _ & -> & H1 & H2).
  apply matches_group_plus in H1. destruct H1 as [-> Ho].
  apply matches_opt_chr in H2. subst. now exists t1.
Qed.

Ltac peel H M :=
  apply matches_seq_cons in H;
  destruct H as (? & ? & ? & ? & _ & -> & M & H).

(** A match of the machine pattern has seven groups: a brand of word
    characters, a model without a double quote, two digit runs and three
    runs of digits and dots, none of them empty. *)
Lemma pattern_groups t m :
  matches Sla.pattern t m ->
  exists b mdl rx ry w h z,
    m = [b; mdl; rx; ry; w; h; z] /\
    over Re.cls_w b /\ over Re.cls_not_quote mdl /\
    over is_digit rx /\ over is_digit ry /\
    over Re.cls_num w /\ over Re.cls_num h /\ over Re.cls_num z.
Proof.
  unfold Sla.pattern. cbv zeta. intros H.
  peel H M1. peel H M2. peel H M3. peel H M4. peel H M5. peel H M6.
  peel H M7. peel H M8. peel H M9. peel H M10. peel H M11. peel H M12.
  peel H M13. peel H M14. peel H M15. peel H M16. peel H M17. peel H M18.
  peel H M19. peel H M20. peel H M21. apply matches_seq_nil in H.
  apply matches_word in M1, M5. apply matches_ws in M2, M4.
  apply matches_chr in M3, M6, M9, M11.
  apply matches_comma in M8, M12, M14, M16, M18, M20.
  apply matches_group_plus in M7, M10, M13, M15.
  apply matches_num in M17, M19, M21.
  destruct M7 as [-> O7], M10 as [-> O10], M13 as [-> O13], M15 as [-> O15].
  destruct M17 as (w & -> & O17), M19 as (h & -> & O19), M21 as (z & -> & O21).
  subst. cbn [app]. do 7 eexists. split; [reflexivity|].
  repeat (split; [assumption|]). assumption.
Qed.

Lemma findall_pattern_groups text m :
  In m (Re.findall Sla.pattern text) ->
  exists b mdl rx ry w h z,
    m = [b; mdl; rx; ry; w; h; z] /\
    over Re.cls_w b /\ over Re.cls_not_quote mdl /\
    over is_digit rx /\ over is_digit ry /\
    over Re.cls_num w /\ over Re.cls_num h /\ over Re.cls_num z.
Proof.
  intros H. apply findall_sound in H. destruct H as [t H].
  now apply pattern_groups in H.
Qed.

End PatternGroups.

(** ** Decimals that [float] accepts *)

Section DecimalFacts.

Lemma num_char (c : ascii) :
  Re.cls_num c = true ->
  Float.is_c_space c = false /\ Ascii.eqb "_" c = false /\
  Float.sign (c :: []) = (false, [c]) /\ lower_char c = c /\
  c <> "i"%char /\ c <> "n"%char /\
  (is_digit c = false -> c = "."%char).
Proof.
  destruct c as [[] [] [] [] [] [] [] []]; intros H; try discriminate H;
    repeat split; try discriminate; try reflexivity; intros E; discriminate E.
Qed.

Lemma sign_num (c : ascii) (t : str) :
  Re.cls_num c = true -> Float.sign (c :: t) = (false, c :: t).
Proof.
  destruct c as [[] [] [] [] [] [] [] []]; intros H; try discriminate H;
    reflexivity.
Qed.

Lemma strip_with_clean (p : ascii -> bool) (s : str) :
  Forall (fun c => p c = false) s -> strip_with p s = s.
Proof.
  intros H.
  assert (D : forall t, Forall (fun c => p c = false) t -> drop_while p t = t).
  { intros [|c t] Ht; [reflexivity|]. inversion Ht as [|? ? Hc _]; subst.
    cbn [drop_while]. now rewrite Hc. }
  unfold strip_with. rewrite (D s H), D, rev_involutive; [reflexivity|].
  now apply Forall_rev.
Qed.

Lemma digits_run (ds rest : str) (acc : Z) (n : nat) :
  Forall (fun c => is_digit c = true) ds ->
  (rest = [] \/ exists c r, rest = c :: r /\ is_digit c = false) ->
  exists acc', Float.digits (ds ++ rest) acc n = (acc', n + length ds, rest).
Proof.
  intros Hd Hr. revert acc n. induction Hd as [|c ds Hc Hd IH]; intros acc n.
  - cbn [app length]. rewrite Nat.add_0_r.
    destruct Hr as [->|(c & r & -> & Hc)]; cbn [Float.digits].
    + now exists acc.
    + rewrite Hc. now exists acc.
  - cbn [app length Float.digits]. rewrite Hc.
    destruct (IH (10 * acc + Float.digit_val c)%Z (S n)) as [acc' E].
    exists acc'. rewrite E. f_equal. f_equal. lia.
Qed.

Lemma plain_over_num (t : str) :
  plain_decimal t -> t <> [] /\ Forall (fun c => Re.cls_num c = true) t.
Proof.
  intros (whole & frac & Hw & Hf & H).
  assert (D : forall l, Forall (fun c => is_digit c = true) l ->
                        Forall (fun c => Re.cls_num c = true) l).
  { intros l Hl. eapply Forall_impl; [|exact Hl].
    intros c Hc. unfold Re.cls_num. now rewrite Hc. }
  destruct H as [[-> Hn]|[-> Hn]].
  - split; [exact Hn|now apply D].
  - split; [now destruct whole|].
    apply Forall_app. split; [now apply D|]. constructor; [reflexivity|now apply D].
Qed.

Lemma parse_decimal_plain (t : str) :
  plain_decimal t -> exists f, Float.parse_decimal t = Some f.
Proof.
  intros P. destruct (@plain_over_num t P) as [Hne Hnum].
  destruct P as (whole & frac & Hw & Hf & H).
  unfold Float.parse_decimal.
  destruct t as [|c t]; [congruence|].
  inversion Hnum as [|? ? Hc _]; subst. rewrite (@sign_num c t Hc).
  destruct H as [[E Hn]|[E Hn]]; rewrite E.
  - destruct (@digits_run whole [] 0%Z 0 Hw (or_introl eq_refl)) as [ip D].
    rewrite app_nil_r in D. rewrite D. cbn [Nat.add].
    rewrite Nat.add_0_r.
    destruct (length whole) eqn:L; [now destruct whole|]. cbn [Nat.eqb]. eauto.
  - destruct (@digits_run whole ("."%char :: frac) 0%Z 0 Hw) as [ip D].
    { right. now exists "."%char, frac. }
    rewrite D.
    destruct (@digits_run frac [] ip 0 Hf (or_introl eq_refl)) as [m D'].
    rewrite app_nil_r in D'. rewrite D'. cbn [Nat.add].
    destruct (length whole + length frac) eqn:L.
    + exfalso. apply Hn. destruct whole, frac; simpl in L; try lia. reflexivity.
    + cbn [Nat.eqb]. eauto.
Qed.

(** [float] accepts every plain decimal. *)
Lemma of_str_plain (t : str) :
  plain_decimal t -> exists f, Float.of_str t = Ok f.
Proof.
  intros P. destruct (@plain_over_num t P) as [Hne Hnum].
  destruct (@parse_decimal_plain t P) as [f Hf].
  unfold Float.of_str.
  rewrite strip_with_clean.
  2:{ eapply Forall_impl; [|exact Hnum]. intros c Hc. now apply num_char in Hc. }
  assert (U : existsb (Ascii.eqb "_") t = false).
  { destruct (existsb (Ascii.eqb "_") t) eqn:E; [|reflexivity].
    apply existsb_exists in E. destruct E as [c [Hin Hc]].
    rewrite Forall_forall in Hnum. apply Hnum, num_char in Hin.
    destruct Hin as (_ & H2 & _). congruence. }
  rewrite U.
  assert (N : Float.parse_inf_nan t = None).
  { unfold Float.parse_inf_nan. destruct t as [|c t]; [congruence|].
    inversion Hnum as [|? ? Hc _]; subst. rewrite (@sign_num c t Hc).
    destruct (@num_char c Hc) as (_ & _ & _ & Hl & Hi & Hn & _).
    cbn [lower map]. rewrite Hl.
    assert (E1 : Str.eqb (c :: map lower_char t) (lit "inf") = false)
      by (apply eqb_neq; intros [= -> _]; congruence).
    assert (E2 : Str.eqb (c :: map lower_char t) (lit "infinity") = false)
      by (apply eqb_neq; intros [= -> _]; congruence).
    assert (E3 : Str.eqb (c :: map lower_char t) (lit "nan") = false)
      by (apply eqb_neq; intros [= -> _]; congruence).
    now rewrite E1, E2, E3. }
  rewrite N, Hf. now exists f.
Qed.

End DecimalFacts.

(** ** Names and totality of [parse_machines] *)

Section ParseMachinesExtras.

Lemma sla_step_names text st m st' :
  In m (Re.findall Sla.pattern text) ->
  Forall (fun p => over Re.cls_w (brand p) /\ over Re.cls_not_quote (model p))
         (fst st) ->
  Sla.step st m = Ok st' ->
  Forall (fun p => over Re.cls_w (brand p) /\ over Re.cls_not_quote (model p))
         (fst st').
Proof.
  intros Hm Hst H. apply findall_pattern_groups in Hm.
  destruct Hm as (b & mdl & rx & ry & w & h & z & -> & Ob & Om & _).
  cbn [Sla.step] in H. unfold bind in H. break_match H;
    try discriminate; try (injection H as <-; exact Hst).
  injection H as <-. cbn [fst]. apply Forall_app. split; [exact Hst|].
  constructor; [|constructor]. now split.
Qed.

(** X15: in every record of [parse_machines] the brand is a non-empty run
    of letters, digits and underscores, and the model is non-empty and holds
    no double quote. *)
Theorem parse_machines_names (text : str) (l : list printer) :
  Sla.parse_machines text = Ok l ->
  Forall (fun p => over Re.cls_w (brand p) /\ model p <> [] /\
                   ~ In Re.dquote (model p)) l.
Proof.
  unfold Sla.parse_machines, bind. intros H.
  destruct (Fdm.fold_result _ _ _) as [st|e] eqn:E; [|discriminate].
  injection H as <-.
  assert (I : Forall (fun p => over Re.cls_w (brand p) /\
                               over Re.cls_not_quote (model p)) (fst st)).
  { eapply (@fold_result_inv_in _ _ _
              (fun s : Sla.state =>
                 Forall (fun p => over Re.cls_w (brand p) /\
                                  over Re.cls_not_quote (model p)) (fst s)));
      [| |exact E]; [|constructor].
    intros s m s' Hm Hs Hstep. eapply sla_step_names; eauto. }
  eapply Forall_impl; [|exact I].
  intros p [Hb [Hn Hq]]. split; [exact Hb|]. split; [exact Hn|].
  intros Hin. rewrite Forall_forall in Hq. apply Hq in Hin.
  unfold Re.cls_not_quote in Hin. now rewrite Ascii.eqb_refl in Hin.
Qed.

Lemma parse_machines_names_witness :
  Forall (fun p => over Re.cls_w (brand p) /\ model p <> [] /\
                   ~ In Re.dquote (model p))
         [mars_record "Mars 3"; mars_record "Mars-3"].
Proof.
  apply (@parse_machines_names two_mars). vm_compute. reflexivity.
Defined.

Lemma fold_result_total (A S : Type) (f : S -> A -> result S) (l : list A) :
  (forall a s, In a l -> exists s', f s a = Ok s') ->
  forall s, exists s', Fdm.fold_result f l s = Ok s'.
Proof.
  induction l as [|a l IH]; intros H s; cbn [Fdm.fold_result].
  - now exists s.
  - destruct (H a s (or_introl eq_refl)) as [s1 E]. rewrite E. cbn [bind].
    apply IH. intros b s0 Hb. apply H. now right.
Qed.

(** X16: [parse_machines] raises nothing when each of the three decimal
    groups of every match is a plain decimal, that is, has one dot at most
    and a digit. *)
Theorem parse_machines_total (text : str) :
  (forall m, In m (Re.findall Sla.pattern text) ->
             Forall plain_decimal (skipn 4 m)) ->
  exists l, Sla.parse_machines text = Ok l.
Proof.
  intros H. unfold Sla.parse_machines.
  destruct (@fold_result_total _ _ Sla.step (Re.findall Sla.pattern text))
    with (s := ([], []) : Sla.state) as [st E].
  - intros m st Hm. specialize (H m Hm).
    apply findall_pattern_groups in Hm.
    destruct Hm as (b & mdl & rx & ry & w & h & z & -> & _).
    cbn [skipn] in H.
    inversion H as [|? ? Pw H1]; subst. inversion H1 as [|? ? Ph H2]; subst.
    inversion H2 as [|? ? Pz _]; subst.
    apply of_str_plain in Pw, Ph, Pz.
    destruct Pw as [fw Ew], Ph as [fh Eh], Pz as [fz Ez].
    cbn [Sla.step]. rewrite Ew, Eh, Ez. cbn [bind].
    destruct (existsb _ Sla.BLACKLIST_MODELS); [eauto|].
    destruct (existsb _ (snd st)); eauto.
  - rewrite E. cbn [bind]. eauto.
Qed.

Lemma parse_machines_total_witness :
  exists l, Sla.parse_machines tiny_line = Ok l.
Proof.
  apply parse_machines_total. intros m Hm.
  assert (E : Re.findall Sla.pattern tiny_line
              = [[lit "Tiny"; lit "Nano"; lit "480"; lit "320";
                  lit "9.6"; lit "5.4"; lit "20"]]) by (vm_compute; reflexivity).
  rewrite E in Hm. destruct Hm as [<-|[]]. cbn [skipn].
  constructor; [|constructor; [|constructor; [|constructor]]].
  - exists (lit "9"), (lit "6").
    split; [repeat constructor|]. split; [repeat constructor|].
    right. split; [reflexivity|discriminate].
  - exists (lit "5"), (lit "4").
    split; [repeat constructor|]. split; [repeat constructor|].
    right. split; [reflexivity|discriminate].
  - exists (lit "20"), [].
    split; [repeat constructor|]. split; [constructor|].
    left. split; [reflexivity|discriminate].
Defined.

End ParseMachinesExtras.

(** ** Exceptions and bounds *)

Section ErrorExtras.

Lemma of_str_raises (t : str) (e : exn) :
  Float.of_str t = Raise e -> e = ValueError.
Proof.
  unfold Float.of_str. intros H. break_match H; congruence.
Qed.

Lemma sla_step_raises st m e : Sla.step st m = Raise e -> e = ValueError.
Proof.
  unfold Sla.step, bind. intros H. break_match H; try discriminate;
    try (injection H as <-; reflexivity);
    repeat match goal with
           | E : Float.of_str _ = Raise _ |- _ => apply of_str_raises in E
           end; congruence.
Qed.

Lemma fold_result_raises (A S : Type) (f : S -> A -> result S) (P : exn -> Prop)
      (l : list A) :
  (forall s a e, f s a = Raise e -> P e) ->
  forall s e, Fdm.fold_result f l s = Raise e -> P e.
Proof.
  intros Hf. induction l as [|a l IH]; intros s e H; cbn [Fdm.fold_result] in H.
  - discriminate.
  - destruct (f s a) as [s1|e1] eqn:E; cbn [bind] in H.
    + eapply IH; eauto.
    + injection H as <-. eapply Hf; eauto.
Qed.

(** X17: the only exception [parse_machines] raises is [ValueError], and
    nothing catches it: once the FDM extraction has succeeded, the build of
    the printer list raises it too. *)
Theorem sla_value_error_aborts (text : str) (e : exn) :
  Sla.parse_machines text = Raise e ->
  e = ValueError /\
  (forall up status fdm,
     Sla.raises_for_status status = false ->
     Fdm.extract_fdm_printers up = Ok fdm ->
     Build.all_printers up (Sla.Response status text) = Raise ValueError).
Proof.
  intros H.
  assert (E : e = ValueError).
  { unfold Sla.parse_machines, bind in H.
    destruct (Fdm.fold_result _ _ _) as [st|e1] eqn:F; [discriminate|].
    injection H as <-.
    eapply (@fold_result_raises _ _ Sla.step (fun x => x = ValueError));
      [|exact F].
    intros s a e0. apply sla_step_raises. }
  subst e. split; [reflexivity|].
  intros up status fdm Hs Hf. unfold Build.all_printers. rewrite Hf.
  cbn [bind]. unfold Sla.extract_sla_printers, Sla.fetch_machine_cs.
  rewrite Hs. destruct text as [|c text]; [discriminate H|].
  now rewrite H.
Qed.

Lemma sla_value_error_aborts_witness :
  Build.all_printers (creality [file_hyphen]) (Sla.Response 200 two_dots_line)
  = Raise ValueError.
Proof.
  apply (proj2 (@sla_value_error_aborts two_dots_line ValueError eq_refl)
               (creality [file_hyphen]) 200%Z [ender (lit "Ender-3") 220]);
    reflexivity.
Defined.

(** X18: a downloaded JSON document that is no object never yields a
    record: the file is skipped, or the loop raises [TypeError] or
    [AttributeError]. *)
Theorem non_object_json_no_record up b st fi url data :
  Fdm.fi_download_url fi = Some url ->
  Fdm.parse_machine_json up url = Some data ->
  not_object data ->
  Fdm.step up b st fi = Ok st \/
  Fdm.step up b st fi = Raise TypeError \/
  Fdm.step up b st fi = Raise AttributeError.
Proof.
  intros Hu Hd Hn. unfold Fdm.step. rewrite Hu.
  destruct url as [|c url]; [now left|]. rewrite Hd.
  destruct (falsy data); [now left|].
  destruct data as [|x|z|f|s|l|d]; try (now destruct Hn);
    cbn [Fdm.has_key bind]; auto.
  - destruct (contains (lit "printable_area") s); cbn [bind negb]; auto.
    destruct (contains (lit "printable_height") s); cbn [bind negb]; auto.
  - destruct (existsb _ l); cbn [bind negb]; auto.
    destruct (existsb _ l); cbn [bind negb]; auto.
Qed.

Lemma non_object_json_no_record_witness :
  Fdm.step (Fdm.Upstream [lit "Creality"] (fun _ => [file_hyphen])
                         (fun _ => Some (PList [PStr (lit "printable_area")]))
                         (fun _ _ => None))
           (lit "Creality") ([], []) file_hyphen = Ok ([], []) \/
  Fdm.step (Fdm.Upstream [lit "Creality"] (fun _ => [file_hyphen])
                         (fun _ => Some (PList [PStr (lit "printable_area")]))
                         (fun _ _ => None))
           (lit "Creality") ([], []) file_hyphen = Raise TypeError \/
  Fdm.step (Fdm.Upstream [lit "Creality"] (fun _ => [file_hyphen])
                         (fun _ => Some (PList [PStr (lit "printable_area")]))
                         (fun _ _ => None))
           (lit "Creality") ([], []) file_hyphen = Raise AttributeError.
Proof.
  apply (@non_object_json_no_record _ _ _ _ (lit "raw/Ender-3.json")
           (PList [PStr (lit "printable_area")])); [reflexivity|reflexivity|exact I].
Defined.

Lemma fdm_step_length up b st fi st' :
  Fdm.step up b st fi = Ok st' -> length (fst st') <= S (length (fst st)).
Proof.
  intros H. unfold Fdm.step, bind in H. break_match H;
    try discriminate; try (injection H as <-; cbn [fst]; lia).
  all: injection H as <-; cbn [fst]; rewrite length_app; cbn [length]; lia.
Qed.

Lemma fold_files_length up b files st st' :
  Fdm.fold_result (Fdm.step up b) files st = Ok st' ->
  length (fst st') <= length (fst st) + length files.
Proof.
  revert st. induction files as [|fi files IH]; intros st H;
    cbn [Fdm.fold_result] in H.
  - injection H as <-. cbn [length]. lia.
  - destruct (Fdm.step up b st fi) as [s1|e] eqn:E; cbn [bind] in H;
      [|discriminate].
    apply fdm_step_length in E. apply IH in H. cbn [length]. lia.
Qed.

(** X19: the extractor emits at most one record per candidate file. *)
Theorem extract_fdm_printers_bound (up : Fdm.upstream) (l : list printer) :
  Fdm.extract_fdm_printers up = Ok l -> length l <= file_count up.
Proof.
  unfold Fdm.extract_fdm_printers, file_count, bind. intros H.
  destruct (Fdm.fold_result _ _ _) as [st|e] eqn:E; [|discriminate].
  injection H as <-.
  assert (G : forall bs s s',
             Fdm.fold_result
               (fun st b => Fdm.fold_result (Fdm.step up b)
                                            (Fdm.get_machine_files up b) st)
               bs s = Ok s' ->
             length (fst s') <=
             length (fst s)
             + list_sum (map (fun b => length (Fdm.get_machine_files up b)) bs)).
  { induction bs as [|b bs IH]; intros s s' H; cbn [Fdm.fold_result] in H.
    - injection H as <-. cbn [map list_sum fold_right]. lia.
    - destruct (Fdm.fold_result (Fdm.step up b) _ s) as [s1|e] eqn:F;
        cbn [bind] in H; [|discriminate].
      apply fold_files_length in F. apply IH in H.
      cbn [map list_sum fold_right].
      fold (list_sum (map (fun b => length (Fdm.get_machine_files up b)) bs)).
      lia. }
  apply G in E. cbn [fst length] in E. lia.
Qed.

Lemma extract_fdm_printers_bound_witness :
  length [ender (lit "Ender-3") 220; ender (lit "Ender 3") 235]
  <= file_count (creality [file_hyphen; file_space]).
Proof.
  apply extract_fdm_printers_bound. vm_compute. reflexivity.
Defined.

End ErrorExtras.

(** ** The saved list *)

Section PipelineExtras.

Lemma merged_distinct_triples (fdm sla : list printer) :
  Forall (fun p => technology p = lit "FDM") fdm ->
  Forall (fun p => technology p = lit "SLA") sla ->
  NoDup (map norm_triple (map snd (Build.merged fdm sla))).
Proof.
  intros Hf Hs. rewrite Forall_forall in Hf, Hs.
  apply nodup_values; [apply merged_nodup|].
  intros e1 e2 H1 H2 Ht.
  apply merged_entries in H1, H2.
  unfold norm_triple in Ht. injection Ht as Hb Hm Htech.
  assert (Hk : norm_key (snd e1) = norm_key (snd e2))
    by (unfold norm_key, Build.normalize_key; now rewrite Hb, Hm).
  destruct H1 as [[I1 ->]|[I1 ->]], H2 as [[I2 ->]|[I2 ->]];
    try (now rewrite Hk).
  - rewrite (Hf _ I1), (Hs _ I2) in Htech. discriminate.
  - rewrite (Hs _ I1), (Hf _ I2) in Htech. discriminate.
Qed.

(** X20: the list that the build saves is sorted in the case-insensitive
    (brand, model) order, no two of its records share the normalized
    (brand, model, technology), and each record is an FDM record of
    OrcaSlicer that passed the threshold test or an SLA record of UVtools
    without an image. *)
Theorem all_printers_invariants up o (l : list printer) :
  Build.all_printers up o = Ok l ->
  StronglySorted key_le l /\
  NoDup (map norm_triple l) /\
  Forall (fun p =>
            (technology p = lit "FDM" /\ source p = lit "OrcaSlicer" /\
             not_below_threshold p) \/
            (technology p = lit "SLA" /\ source p = lit "UVtools" /\
             image_url p = None)) l.
Proof.
  unfold Build.all_printers, bind. intros H.
  destruct (Fdm.extract_fdm_printers up) as [fdm|e] eqn:Ef; [|discriminate].
  destruct (Sla.extract_sla_printers o) as [sla|e] eqn:Es; [|discriminate].
  injection H as <-.
  assert (Ht := extract_fdm_threshold _ Ef).
  apply extract_fdm_inv in Ef. destruct Ef as [_ Ef].
  apply extract_sla_shape in Es.
  split; [apply sort_printers_sorted|]. split.
  - unfold Build.merge_printers.
    eapply Permutation_NoDup.
    { apply Permutation_map. symmetry. apply sort_printers_perm. }
    apply merged_distinct_triples.
    + eapply Forall_impl; [|exact Ht]. now intros p [H _].
    + eapply Forall_impl; [|exact Es]. now intros p [H _].
  - rewrite Forall_forall in *. intros p Hp.
    apply in_merge_printers in Hp. destruct Hp as [Hp|Hp].
    + left. destruct (Ht p Hp) as [H1 H2].
      destruct (Ef p Hp) as (_ & H3 & _). now repeat split.
    + right. destruct (Es p Hp) as (H1 & H2 & H3 & _). now repeat split.
Qed.

Lemma all_printers_invariants_witness :
  StronglySorted key_le [ender (lit "Ender 3") 235] /\
  NoDup (map norm_triple [ender (lit "Ender 3") 235]) /\
  Forall (fun p =>
            (technology p = lit "FDM" /\ source p = lit "OrcaSlicer" /\
             not_below_threshold p) \/
            (technology p = lit "SLA" /\ source p = lit "UVtools" /\
             image_url p = None)) [ender (lit "Ender 3") 235].
Proof.
  apply (@all_printers_invariants (creality [file_hyphen; file_space])
           (Sla.Failed Sla.Timeout)).
  vm_compute. reflexivity.
Defined.

End PipelineExtras.

(** * The scenario line in a longer document *)

Section RowFacts.

Lemma amatch_step (c : ascii) (l : list atom) (t : str) :
  amatch l (c :: t) -> exists l', In l' (astep c l) /\ amatch l' t.
Proof.
  induction l as [|a k IH]; cbn [amatch astep]; [discriminate|].
  destruct a as [p|p|p].
  - intros (c0 & t' & [= <- <-] & Pc & H). rewrite Pc.
    exists k. split; [now left|exact H].
  - intros (t1 & t2 & E & F & H). destruct t1 as [|c1 t1].
    + cbn [app] in E. subst t2. destruct (IH H) as (l' & Hin & Hl').
      exists l'. split; [|exact Hl']. apply in_or_app. now right.
    + cbn [app] in E. injection E as <- ->.
      inversion F as [|? ? Pc F']; subst. rewrite Pc.
      exists (Many p :: k). split; [now left|].
      cbn [amatch]. now exists t1, t2.
  - intros [H|(c0 & t' & [= <- <-] & Pc & H)].
    + destruct (IH H) as (l' & Hin & Hl').
      exists l'. split; [|exact Hl']. apply in_or_app. now right.
    + rewrite Pc. exists k. split; [now left|exact H].
Qed.

Lemma amatch_nil (l : list atom) : amatch l [] -> anull l = true.
Proof.
  induction l as [|a k IH]; [reflexivity|]. cbn [amatch anull forallb].
  destruct a as [p|p|p].
  - intros (c & t' & E & _). discriminate E.
  - intros (t1 & t2 & E & _ & H). symmetry in E.
    apply app_eq_nil in E. destruct E as [_ ->]. now apply IH.
  - intros [H|(c & t' & E & _)]; [now apply IH|discriminate E].
Qed.

Lemma tails_self (A : Type) (l : list A) : In l (tails l).
Proof. destruct l; now left. Qed.

Lemma astep_tails (c : ascii) (l l' : list atom) :
  In l' (astep c l) -> In l' (tails l).
Proof.
  induction l as [|a k IH]; [intros []|]. cbn [astep tails].
  destruct a as [p|p|p].
  - destruct (p c); [|intros []]. intros [<-|[]]. right. apply tails_self.
  - intros H. apply in_app_or in H. destruct H as [H|H].
    + destruct (p c); [|destruct H]. destruct H as [<-|[]]. now left.
    + right. now apply IH.
  - intros H. apply in_app_or in H. destruct H as [H|H].
    + destruct (p c); [|destruct H]. destruct H as [<-|[]].
      right. apply tails_self.
    + right. now apply IH.
Qed.

Lemma tails_trans (A : Type) (l l' l'' : list A) :
  In l' (tails l) -> In l'' (tails l') -> In l'' (tails l).
Proof.
  induction l as [|a k IH]; cbn [tails].
  - intros [<-|[]] H. exact H.
  - intros [<-|H] H'; [exact H'|]. right. now apply IH.
Qed.

(** Whatever a row has read, what is left of it is one of its tails. *)
Lemma amatch_split (s v : str) (l : list atom) :
  amatch l (s ++ v) -> exists l', In l' (tails l) /\ amatch l' v.
Proof.
  revert l. induction s as [|c s IH]; intros l H.
  - exists l. split; [apply tails_self|exact H].
  - cbn [app] in H. apply amatch_step in H. destruct H as (l1 & Hin & H).
    destruct (IH _ H) as (l' & Hin' & Hl'). exists l'. split; [|exact Hl'].
    eapply tails_trans; [|exact Hin']. eapply astep_tails. exact Hin.
Qed.

Lemma blocked_sound (w : str) :
  forall (states : list (list atom)) (l : list atom) (v r1 r2 : str),
    blocked states w = true -> In l states -> v <> [] ->
    v ++ r1 = w ++ r2 -> ~ amatch l v.
Proof.
  induction w as [|c w IH]; intros states l v r1 r2 Hb Hin Hv E Hm;
    [discriminate Hb|].
  destruct v as [|c' v]; [now apply Hv|].
  cbn [app] in E. injection E as -> E.
  cbn [blocked] in Hb. apply andb_true_iff in Hb. destruct Hb as [Hn Hb].
  apply amatch_step in Hm. destruct Hm as (l' & Hl' & Hm).
  assert (Hin' : In l' (flat_map (astep c) states)).
  { apply in_flat_map. now exists l. }
  rewrite forallb_forall in Hn. specialize (Hn _ Hin').
  destruct v as [|c2 v].
  - apply amatch_nil in Hm. rewrite Hm in Hn. discriminate Hn.
  - destruct (flat_map (astep c) states) as [|l0 rest] eqn:Ef;
      [destruct Hin'|].
    apply (IH _ l' (c2 :: v) r1 r2 Hb Hin'); [discriminate|exact E|exact Hm].
Qed.

(** A match of a flat pattern is a text of its row. *)
Lemma matches_amatch (r : Re.regex) :
  flat r = true ->
  forall t1 g k t2, matches r t1 g -> amatch k t2 ->
                    amatch (atoms r ++ k) (t1 ++ t2).
Proof.
  induction r as [|p|p|r IH|r1 IH1 r2 IH2|r IH]; intros Hf t1 g k t2 Hm Hk.
  - destruct Hm as [-> _]. exact Hk.
  - destruct Hm as (c & -> & Pc & _). cbn [atoms app amatch].
    now exists c, t2.
  - destruct Hm as [F _]. cbn [atoms app amatch]. now exists t1, t2.
  - destruct r as [|p|p|r|ra rb|r]; try discriminate Hf.
    cbn [atoms app amatch]. destruct Hm as [[-> _]|(c & -> & Pc & _)].
    + now left.
    + right. now exists c, t2.
  - cbn [flat] in Hf. apply andb_true_iff in Hf. destruct Hf as [F1 F2].
    destruct Hm as (ta & tb & ga & gb & -> & _ & Ha & Hb).
    cbn [atoms]. rewrite <- !app_assoc.
    apply (IH1 F1 ta ga); [exact Ha|]. now apply (IH2 F2 tb gb).
  - destruct Hm as (g' & _ & Hm). cbn [atoms]. now apply (IH Hf t1 g').
Qed.

(** No match of the machine pattern starts before the scenario line and
    ends inside it or after it. *)
Lemma no_crossing (s v r1 r2 : str) (gs : list str) :
  s <> [] -> v <> [] -> v ++ r1 = photon_line ++ r2 ->
  ~ matches Sla.pattern (s ++ v) gs.
Proof.
  intros Hs Hv E Hm.
  assert (Ha : amatch (atoms Sla.pattern) (s ++ v)).
  { rewrite <- (app_nil_r (atoms Sla.pattern)), <- (app_nil_r (s ++ v)).
    now apply (@matches_amatch Sla.pattern eq_refl (s ++ v) gs [] []). }
  destruct s as [|c s]; [now apply Hs|].
  assert (Ep : atoms Sla.pattern
               = One (Ascii.eqb "n") :: tl (atoms Sla.pattern)) by reflexivity.
  rewrite Ep in Ha. cbn [app amatch] in Ha.
  destruct Ha as (c0 & t' & [= <- <-] & _ & Ha).
  apply amatch_split in Ha. destruct Ha as (l' & Hin & Ha).
  revert Ha.
  apply (@blocked_sound photon_line (tails (tl (atoms Sla.pattern)))
           l' v r1 r2); [vm_compute; reflexivity|exact Hin|exact Hv|exact E].
Qed.

End RowFacts.

Section MonoFacts.

Variable R : Type.

Lemma star_none_mono (p : ascii -> bool) (s : str) n
      (k k' : str -> nat -> option R) :
  (forall x m, k x m = None -> k' x m = None) ->
  Re.star p s n k = None -> Re.star p s n k' = None.
Proof.
  intros Hk. revert n. induction s as [|c s IH]; intros n H;
    cbn [Re.star] in *; [now apply Hk|].
  destruct (p c); [|now apply Hk].
  destruct (Re.star p s (S n) k) eqn:E; [discriminate H|].
  rewrite (IH _ E). now apply Hk.
Qed.

(** A continuation that fails wherever another one does cannot turn a
    failed run into a match. *)
Lemma run_none_mono (r : Re.regex) :
  forall (s : str) n caps (k k' : str -> nat -> list str -> option R),
    (forall x m c, k x m c = None -> k' x m c = None) ->
    Re.run r s n caps k = None -> Re.run r s n caps k' = None.
Proof.
  induction r as [|p|p|r IH|r1 IH1 r2 IH2|r IH]; intros s n caps k k' Hk H;
    cbn [Re.run] in *.
  - now apply Hk.
  - destruct s as [|c s]; [reflexivity|]. destruct (p c); [|reflexivity].
    now apply Hk.
  - eapply star_none_mono; [|exact H]. intros x m. apply Hk.
  - destruct (Re.run r s n caps k) eqn:E; [discriminate H|].
    rewrite (IH _ _ _ _ _ Hk E). now apply Hk.
  - eapply IH1; [|exact H]. intros x m c. now apply IH2.
  - eapply IH; [|exact H]. intros x m c. apply Hk.
Qed.

Lemma star_some_mono (p : ascii -> bool) (s : str) n
      (k k' : str -> nat -> option R) (res : R) :
  (forall x m, k x m = Some res -> k' x m = Some res) ->
  (forall x m, k x m = None -> k' x m = None) ->
  Re.star p s n k = Some res -> Re.star p s n k' = Some res.
Proof.
  intros Hs Hn. revert n. induction s as [|c s IH]; intros n H;
    cbn [Re.star] in *; [now apply Hs|].
  destruct (p c); [|now apply Hs].
  destruct (Re.star p s (S n) k) eqn:E.
  - injection H as ->. now rewrite (IH _ E).
  - rewrite (@star_none_mono p s (S n) k k' Hn E). now apply Hs.
Qed.

(** A match is kept by a continuation that accepts it and fails wherever
    the first one does. *)
Lemma run_some_mono (r : Re.regex) (res : R) :
  forall (s : str) n caps (k k' : str -> nat -> list str -> option R),
    (forall x m c, k x m c = Some res -> k' x m c = Some res) ->
    (forall x m c, k x m c = None -> k' x m c = None) ->
    Re.run r s n caps k = Some res -> Re.run r s n caps k' = Some res.
Proof.
  induction r as [|p|p|r IH|r1 IH1 r2 IH2|r IH];
    intros s n caps k k' Hs Hn H; cbn [Re.run] in *.
  - now apply Hs.
  - destruct s as [|c s]; [discriminate H|].
    destruct (p c); [|discriminate H]. now apply Hs.
  - eapply star_some_mono; [| |exact H]; intros x m; [apply Hs|apply Hn].
  - destruct (Re.run r s n caps k) eqn:E.
    + injection H as ->. now rewrite (IH _ _ _ _ _ Hs Hn E).
    + rewrite (@run_none_mono r s n caps k k' Hn E). now apply Hs.
  - eapply IH1; [| |exact H]; intros x m c.
    + now apply IH2.
    + now apply run_none_mono.
  - eapply IH; [| |exact H]; intros x m c; [apply Hs|apply Hn].
Qed.

(** A run fails when its continuation fails on everything it can be handed. *)
Lemma star_beyond (p : ascii -> bool) (s : str) n (k : str -> nat -> option R) :
  (forall y m, length y <= length s -> m + length y = n + length s ->
               k y m = None) ->
  Re.star p s n k = None.
Proof.
  intros Hk. destruct (Re.star p s n k) as [x|] eqn:E; [|reflexivity].
  apply star_sound in E. destruct E as (t0 & s' & -> & _ & E).
  rewrite Hk in E; [discriminate E| |]; rewrite length_app; lia.
Qed.

Lemma run_beyond (r : Re.regex) (s : str) n caps
      (k : str -> nat -> list str -> option R) :
  (forall y m c, length y <= length s -> m + length y = n + length s ->
                 k y m c = None) ->
  Re.run r s n caps k = None.
Proof.
  intros Hk. destruct (Re.run r s n caps k) as [x|] eqn:E; [|reflexivity].
  apply run_sound in E. destruct E as (t0 & g & s' & -> & _ & E).
  rewrite Hk in E; [discriminate E| |]; rewrite length_app; lia.
Qed.

(** Appending a text [t] changes nothing when the continuation fails on
    every end inside [t]. *)
Variable t : str.

Lemma star_stable (p : ascii -> bool) (s : str) :
  forall n (K k : str -> nat -> option R),
    (forall s' m, m + length s' = n + length s -> K (s' ++ t) m = k s' m) ->
    (forall y m, m + length y = n + length s + length t ->
                 length y < length t -> K y m = None) ->
    Re.star p (s ++ t) n K = Re.star p s n k.
Proof.
  induction s as [|c s IH]; intros n K k Ha Hc.
  - cbn [app Re.star]. rewrite <- (Ha [] n eq_refl). cbn [app].
    destruct t as [|c t'] eqn:Et; [reflexivity|]. cbn [Re.star].
    destruct (p c); [|reflexivity].
    rewrite star_beyond; [reflexivity|].
    intros y m Hy Hm. apply Hc; cbn [length] in *; lia.
  - assert (Hk := Ha (c :: s) n eq_refl). cbn [app] in Hk.
    cbn [app Re.star]. rewrite Hk.
    destruct (p c); [|reflexivity].
    rewrite (IH (S n) K k); [reflexivity| |].
    + intros s' m Hm. apply Ha. cbn [length]. lia.
    + intros y m Hm Hy. apply Hc; [cbn [length]; lia|exact Hy].
Qed.

Lemma run_stable (r : Re.regex) :
  forall (s : str) n caps (K k : str -> nat -> list str -> option R),
    (forall s' m c, m + length s' = n + length s ->
                    K (s' ++ t) m c = k s' m c) ->
    (forall y m c, m + length y = n + length s + length t ->
                   length y < length t -> K y m c = None) ->
    Re.run r (s ++ t) n caps K = Re.run r s n caps k.
Proof.
  induction r as [|p|p|r IH|r1 IH1 r2 IH2|r IH]; intros s n caps K k Ha Hc;
    cbn [Re.run].
  - now apply Ha.
  - destruct s as [|c s].
    + cbn [app]. destruct t as [|c t'] eqn:Et; [reflexivity|].
      destruct (p c); [|reflexivity]. apply Hc; cbn [length]; lia.
    + cbn [app]. destruct (p c); [|reflexivity]. apply Ha. cbn [length]. lia.
  - apply star_stable.
    + intros s' m Hm. now apply Ha.
    + intros y m Hm Hy. now apply Hc.
  - rewrite (IH s n caps K k Ha Hc). now rewrite Ha.
  - apply IH1.
    + intros s' m c Hm. apply IH2.
      * intros s'' m' c' Hm'. apply Ha. lia.
      * intros y m' c' Hm' Hy. apply Hc; [lia|exact Hy].
    + intros y m c Hm Hy. apply run_beyond.
      intros y' m' c' Hy' Hm'. apply Hc; lia.
  - apply IH.
    + intros s' m c Hm. rewrite Ha by exact Hm.
      rewrite firstn_app.
      replace (m - n - length s) with 0 by lia. cbn [firstn].
      now rewrite app_nil_r.
    + intros y m c Hm Hy. now apply Hc.
Qed.

End MonoFacts.

Section ScenarioDocument.

Lemma match_here_within (r : Re.regex) (s : str) (bound : nat) :
  (forall n caps, Re.match_here r s = Some (n, caps) -> n <= bound) ->
  Re.run r s 0 [] (within bound) = Re.match_here r s.
Proof.
  intros Hb. unfold Re.match_here in *.
  destruct (Re.run r s 0 [] (fun _ n caps => Some (n, caps)))
    as [[n caps]|] eqn:E.
  - apply (@run_some_mono _ r (n, caps) s 0 []
             (fun _ n caps => Some (n, caps)) (within bound)); [| |exact E].
    + intros x m c [= -> ->]. unfold within.
      specialize (Hb n caps eq_refl). apply Nat.leb_le in Hb. now rewrite Hb.
    + intros x m c H. discriminate H.
  - apply (@run_none_mono _ r s 0 []
             (fun _ n caps => Some (n, caps)) (within bound)); [|exact E].
    intros x m c H. discriminate H.
Qed.

Lemma app_longer (A : Type) (a b c d : list A) :
  a ++ b = c ++ d -> length a < length c ->
  exists v, v <> [] /\ c = a ++ v /\ b = v ++ d.
Proof.
  revert c. induction a as [|x a IH]; intros c E Hl.
  - exists c. cbn [app] in *. repeat split; [|now symmetry].
    intros ->. cbn [length] in Hl. lia.
  - destruct c as [|y c]; [cbn [length] in Hl; lia|].
    cbn [app] in E. injection E as <- E. cbn [length] in Hl.
    destruct (IH c E) as (v & Hv & -> & ->); [lia|]. now exists v.
Qed.

(** Before the scenario line every match attempt gives what it gives on the
    text before the line alone. *)
Lemma match_here_stable (c : ascii) (s post : str) :
  Re.match_here Sla.pattern ((c :: s) ++ photon_line ++ post)
  = Re.match_here Sla.pattern (c :: s).
Proof.
  rewrite <- (@match_here_within Sla.pattern ((c :: s) ++ photon_line ++ post)
                (length (c :: s))).
  - unfold Re.match_here. apply run_stable.
    + intros s' m caps Hm. unfold within.
      assert (H : m <= length (c :: s)) by lia.
      apply Nat.leb_le in H. now rewrite H.
    + intros y m caps Hm Hy. unfold within.
      assert (H : length (c :: s) < m) by lia.
      apply Nat.leb_gt in H. now rewrite H.
  - intros n caps H. apply match_here_sound in H.
    destruct H as (t0 & rest & E & Hm & ->).
    destruct (Nat.le_gt_cases (length t0) (length (c :: s))) as [Hle|Hgt];
      [exact Hle|exfalso].
    destruct (app_longer _ _ _ _ E Hgt) as (v & Hv & -> & Et).
    apply (@no_crossing (c :: s) v rest post caps);
      [discriminate|exact Hv|now symmetry|exact Hm].
Qed.

(** Scanning a text and then a further text [t], when no attempt inside the
    first text is changed by [t]. *)
Lemma findall_app (r : Re.regex) (t pre : str) :
  Re.match_here r [] = None ->
  (forall c s, Re.match_here r ((c :: s) ++ t) = Re.match_here r (c :: s)) ->
  forall skip, skip <= length pre ->
    Re.findall_from r (pre ++ t) skip =
    Re.findall_from r pre skip ++ Re.findall_from r t 0.
Proof.
  intros Hn Hst. induction pre as [|c pre IH]; intros skip Hs.
  - cbn [length] in Hs. replace skip with 0 by lia.
    cbn [app Re.findall_from]. now rewrite Hn.
  - assert (E := Hst c pre). cbn [app] in E.
    cbn [app Re.findall_from length] in *.
    destruct skip as [|k]; [|apply IH; lia].
    rewrite E.
    destruct (Re.match_here r (c :: pre)) as [[n caps]|] eqn:M.
    + cbn [app]. f_equal. apply IH.
      apply match_here_sound in M. destruct M as (t0 & s' & E0 & _ & ->).
      apply (f_equal (@length ascii)) in E0.
      rewrite length_app in E0. cbn [length] in E0. lia.
    + apply IH. lia.
Qed.

(** The matches of a document that holds the scenario line: those of the
    text before the line, then the line, then those of the text after it. *)
Lemma findall_document (pre post : str) :
  Re.findall Sla.pattern (pre ++ photon_line ++ post) =
  Re.findall Sla.pattern pre ++ photon_groups :: Re.findall Sla.pattern post.
Proof.
  unfold Re.findall.
  rewrite (@findall_app Sla.pattern (photon_line ++ post) pre);
    [|reflexivity|intros c s; apply match_here_stable|lia].
  apply (f_equal (fun x => Re.findall_from Sla.pattern pre 0 ++ x)).
  assert (M := photon_match post).
  change (photon_line ++ post) with ("n"%char :: tl photon_line ++ post) in *.
  change (length photon_line) with (S (length (tl photon_line))) in M.
  exact (@findall_match _ _ _ _ _ M).
Qed.

Lemma fold_result_app (A S : Type) (f : S -> A -> result S) (l1 l2 : list A) :
  forall s,
    Fdm.fold_result f (l1 ++ l2) s =
    (s1 <- Fdm.fold_result f l1 s ;; Fdm.fold_result f l2 s1).
Proof.
  induction l1 as [|a l1 IH]; intros s; cbn [app Fdm.fold_result bind];
    [reflexivity|].
  destruct (f s a); cbn [bind]; [apply IH|reflexivity].
Qed.

(** The loop only appends records, and [seen] holds keys of records only. *)
Lemma sla_step_seen st m st' :
  Sla.step st m = Ok st' ->
  (forall k, In k (snd st) -> In k (map record_key (fst st))) ->
  (forall k, In k (snd st') -> In k (map record_key (fst st'))) /\
  exists l', fst st' = fst st ++ l'.
Proof.
  intros H Hs. unfold Sla.step, bind in H. break_match H;
    try discriminate;
    try (injection H as <-; split; [exact Hs|exists []; now rewrite app_nil_r]).
  all: injection H as <-; cbn [fst snd]; split; [|eauto].
  all: intros k [<-|Hk]; rewrite map_app; apply in_or_app;
    [right; now left|left; now apply Hs].
Qed.

Lemma sla_fold_seen (ms : list (list str)) :
  forall st st',
    Fdm.fold_result Sla.step ms st = Ok st' ->
    (forall k, In k (snd st) -> In k (map record_key (fst st))) ->
    (forall k, In k (snd st') -> In k (map record_key (fst st'))) /\
    exists l', fst st' = fst st ++ l'.
Proof.
  induction ms as [|m ms IH]; intros st st' H Hs; cbn [Fdm.fold_result] in H.
  - injection H as <-. split; [exact Hs|]. exists []. now rewrite app_nil_r.
  - unfold bind in H. destruct (Sla.step st m) as [st1|e] eqn:E;
      [|discriminate H].
    destruct (sla_step_seen _ _ E Hs) as [Hs1 [l1 E1]].
    destruct (IH _ _ H Hs1) as [Hs' [l' E']].
    split; [exact Hs'|]. exists (l1 ++ l'). now rewrite E', E1, app_assoc.
Qed.

Lemma photon_step (l : list printer) (seen : list str) :
  ~ In (record_key photon_m3) seen ->
  Sla.step (l, seen) photon_groups
  = Ok (l ++ [photon_m3], record_key photon_m3 :: seen).
Proof.
  intros H.
  assert (E : existsb (Str.eqb (record_key photon_m3)) seen = false).
  { destruct (existsb (Str.eqb (record_key photon_m3)) seen) eqn:E;
      [|reflexivity].
    apply existsb_exists in E. destruct E as (k & Hk & E).
    apply eqb_eq in E. subst k. now destruct H. }
  unfold Sla.step, photon_groups. cbn [fst snd].
  change (existsb (Str.eqb (lower (lit "Photon M3"))) Sla.BLACKLIST_MODELS)
    with false. cbv iota.
  change (unique_key (lit "Anycubic") (lit "Photon M3"))
    with (record_key photon_m3).
  rewrite E. vm_compute. reflexivity.
Qed.

Lemma existsb_eqb_in (k : str) (l : list str) :
  existsb (Str.eqb k) l = true <-> In k l.
Proof.
  rewrite existsb_exists. split.
  - intros (x & Hx & E). apply eqb_eq in E. now subst x.
  - intros H. exists k. split; [exact H|apply eqb_refl].
Qed.

Lemma photon_step_seen (st : Sla.state) :
  In (record_key photon_m3) (snd st) -> Sla.step st photon_groups = Ok st.
Proof.
  intros H. apply existsb_eqb_in in H.
  unfold Sla.step, photon_groups.
  change (existsb (Str.eqb (lower (lit "Photon M3"))) Sla.BLACKLIST_MODELS)
    with false. cbv iota.
  change (unique_key (lit "Anycubic") (lit "Photon M3"))
    with (record_key photon_m3).
  now rewrite H.
Qed.

Lemma unseen_ext (keys keys' : list str) (l : list printer) :
  (forall k, In k keys <-> In k keys') -> unseen keys l = unseen keys' l.
Proof.
  intros H. unfold unseen. apply filter_ext. intros p. f_equal.
  destruct (existsb (Str.eqb (record_key p)) keys) eqn:E.
  - symmetry. apply existsb_eqb_in, H, existsb_eqb_in, E.
  - destruct (existsb (Str.eqb (record_key p)) keys') eqn:E'; [|reflexivity].
    apply existsb_eqb_in, H, existsb_eqb_in in E'. congruence.
Qed.

(** The loop started with keys seen and records emitted already: it emits
    what the loop started afresh emits, minus the records whose key was seen. *)
Lemma sla_step_from (keys : list str) (before : list printer) m
      (a a' b : Sla.state) :
  Sla.step a m = Ok a' ->
  (forall k, In k (snd b) <-> In k (snd a) \/ In k keys) ->
  fst b = before ++ unseen keys (fst a) ->
  exists b',
    Sla.step b m = Ok b' /\
    (forall k, In k (snd b') <-> In k (snd a') \/ In k keys) /\
    fst b' = before ++ unseen keys (fst a').
Proof.
  intros H Hs Hl.
  destruct m as [|br [|mdl [|rx [|ry [|w [|h [|z [|? ?]]]]]]]];
    try discriminate H.
  cbn [Sla.step] in *.
  destruct (existsb (Str.eqb (lower mdl)) Sla.BLACKLIST_MODELS).
  { injection H as <-. now exists b. }
  destruct (existsb (Str.eqb (unique_key br mdl)) (snd a)) eqn:Ea.
  { injection H as <-. apply existsb_eqb_in in Ea.
    assert (Eb : existsb (Str.eqb (unique_key br mdl)) (snd b) = true).
    { apply existsb_eqb_in, Hs. now left. }
    rewrite Eb. now exists b. }
  unfold bind in *.
  destruct (Float.of_str w) as [vx|e]; [|discriminate H].
  destruct (Float.of_str h) as [vy|e]; [|discriminate H].
  destruct (Float.of_str z) as [vz|e]; [|discriminate H].
  injection H as <-. cbn [fst snd].
  assert (Na : ~ In (unique_key br mdl) (snd a)).
  { intros Hin. apply existsb_eqb_in in Hin. congruence. }
  unfold unseen, record_key in *. rewrite filter_app.
  cbn [filter brand model].
  destruct (existsb (Str.eqb (unique_key br mdl)) (snd b)) eqn:Eb.
  - exists b. split; [reflexivity|].
    apply existsb_eqb_in in Eb. apply Hs in Eb as Hk.
    destruct Hk as [Hk|Hk]; [now destruct Na|].
    apply existsb_eqb_in in Hk as Ek. rewrite Ek. cbn [negb].
    rewrite app_nil_r. split; [|exact Hl].
    intros k. rewrite Hs. cbn [In]. split; [tauto|].
    intros [[<-|H]|H]; tauto.
  - eexists. split; [reflexivity|]. cbn [fst snd].
    assert (Nk : existsb (Str.eqb (unique_key br mdl)) keys = false).
    { destruct (existsb (Str.eqb (unique_key br mdl)) keys) eqn:Ek;
        [|reflexivity].
      apply existsb_eqb_in in Ek.
      assert (Hin : In (unique_key br mdl) (snd b)) by (apply Hs; now right).
      apply existsb_eqb_in in Hin. congruence. }
    rewrite Nk. cbn [negb]. split.
    + intros k. cbn [In]. rewrite Hs. tauto.
    + rewrite Hl. now rewrite <- app_assoc.
Qed.

Lemma sla_fold_from (keys : list str) (before : list printer)
      (ms : list (list str)) :
  forall a a' b,
    Fdm.fold_result Sla.step ms a = Ok a' ->
    (forall k, In k (snd b) <-> In k (snd a) \/ In k keys) ->
    fst b = before ++ unseen keys (fst a) ->
    exists b',
      Fdm.fold_result Sla.step ms b = Ok b' /\
      fst b' = before ++ unseen keys (fst a').
Proof.
  induction ms as [|m ms IH]; intros a a' b H Hs Hl;
    cbn [Fdm.fold_result] in *.
  - injection H as <-. now exists b.
  - unfold bind in *. destruct (Sla.step a m) as [a1|e] eqn:E;
      [|discriminate H].
    destruct (@sla_step_from keys before m a a1 b E Hs Hl)
      as (b1 & -> & Hs1 & Hl1).
    now apply (IH a1 a' b1).
Qed.

(** What [parse_machines] makes of a text that follows a state of the
    loop. *)
Lemma sla_fold_later (keys : list str) (before later : list printer)
      (text : str) :
  Sla.parse_machines text = Ok later ->
  exists st,
    Fdm.fold_result Sla.step (Re.findall Sla.pattern text) (before, keys)
    = Ok st /\
    fst st = before ++ unseen keys later.
Proof.
  unfold Sla.parse_machines, bind. intros H.
  destruct (Fdm.fold_result Sla.step _ ([], [])) as [a'|e] eqn:E;
    [|discriminate H].
  injection H as <-.
  apply (@sla_fold_from keys before _ ([], []) a' (before, keys) E).
  - intros k. cbn [snd In]. tauto.
  - cbn [fst]. unfold unseen. cbn [filter]. now rewrite app_nil_r.
Qed.

(** C6, amended: in every document of ASCII characters that holds the
    scenario line up to its seventh value, whatever precedes and follows it,
    the line is read as the record of the scenario unless a record of the
    text before the line has the same lower-cased brand and model already.
    With [l0] the records of the text before the line: if none of them has
    that key, the records of the document are [l0], then the record of the
    scenario, then records of later definitions, which are those of the
    text after the line whose key is new when that text is read without an
    exception; if one of them has that key, the line adds no record. *)
Theorem photon_m3_scenario (pre post : str) (l0 : list printer) :
  ascii_only pre = true -> ascii_only post = true ->
  Sla.parse_machines pre = Ok l0 ->
  (~ In (record_key photon_m3) (map record_key l0) ->
   (forall l, Sla.parse_machines (pre ++ photon_line ++ post) = Ok l ->
              exists l1, l = l0 ++ photon_m3 :: l1) /\
   (forall l2, Sla.parse_machines post = Ok l2 ->
      Sla.parse_machines (pre ++ photon_line ++ post)
      = Ok (l0 ++ photon_m3
               :: unseen (record_key photon_m3 :: map record_key l0) l2))) /\
  (In (record_key photon_m3) (map record_key l0) ->
   forall l2, Sla.parse_machines post = Ok l2 ->
     Sla.parse_machines (pre ++ photon_line ++ post)
     = Ok (l0 ++ unseen (map record_key l0) l2)).
Proof.
  intros _ _ H0.
  assert (D : Sla.parse_machines (pre ++ photon_line ++ post) =
              (st0 <- Fdm.fold_result Sla.step (Re.findall Sla.pattern pre)
                                      ([], []) ;;
               st1 <- Sla.step st0 photon_groups ;;
               st <- Fdm.fold_result Sla.step (Re.findall Sla.pattern post)
                                     st1 ;;
               Ok (fst st))).
  { unfold Sla.parse_machines.
    rewrite findall_document, fold_result_app.
    destruct (Fdm.fold_result Sla.step (Re.findall Sla.pattern pre) _)
      as [st0|e]; [|reflexivity].
    cbn [bind Fdm.fold_result].
    now destruct (Sla.step st0 photon_groups). }
  rewrite D. clear D. unfold Sla.parse_machines in H0.
  destruct (Fdm.fold_result Sla.step (Re.findall Sla.pattern pre) ([], []))
    as [[l seen]|e] eqn:E0; [|discriminate H0].
  cbn [bind fst] in H0. injection H0 as ->.
  destruct (@sla_fold_seen _ _ _ E0) as [Hs _]; [intros k []|].
  cbn [fst snd] in Hs.
  assert (Hr : forall k, In k (map record_key l0) -> In k seen).
  { assert (I : sla_inv (l0, seen)).
    { eapply (@fold_result_inv _ _ _ sla_inv); [| |exact E0].
      - intros s m s' Hi Hm. eapply sla_step_keeps_inv; eauto.
      - repeat split; [intros q []|constructor|constructor]. }
    destruct I as (Hq & _). intros k Hk. apply in_map_iff in Hk.
    destruct Hk as (q & <- & Hq'). now apply (Hq q). }
  cbn [bind]. split.
  - intros Hk.
    rewrite photon_step by (intros H; now apply Hk, Hs). cbn [bind]. split.
    + intros l H.
      destruct (Fdm.fold_result Sla.step (Re.findall Sla.pattern post) _)
        as [st|e] eqn:E1; [|discriminate H].
      cbn [bind] in H. injection H as <-.
      destruct (@sla_fold_seen _ _ _ E1) as [_ [l1 E]].
      * cbn [fst snd]. intros k [<-|Hin]; rewrite map_app; apply in_or_app;
          [right; now left|left; now apply Hs].
      * exists l1. rewrite E. cbn [fst]. now rewrite <- app_assoc.
    + intros l2 H2.
      destruct (@sla_fold_later (record_key photon_m3 :: seen)
                  (l0 ++ [photon_m3]) l2 post H2) as (st & -> & E).
      cbn [bind]. rewrite E, <- app_assoc. cbn [app]. do 3 f_equal.
      apply unseen_ext. intros k. cbn [In]. split.
      * intros [H|H]; [now left|right; now apply Hs].
      * intros [H|H]; [now left|right; now apply Hr].
  - intros Hk l2 H2.
    rewrite photon_step_seen by (now apply Hr). cbn [bind].
    destruct (@sla_fold_later seen l0 l2 post H2) as (st & -> & E).
    cbn [bind]. rewrite E. do 2 f_equal.
    apply unseen_ext. intros k. split; [apply Hs|apply Hr].
Qed.

Lemma photon_m3_scenario_witness :
  Sla.parse_machines
    ((two_mars ++ [newline]) ++ photon_line
     ++ lit ", FlipDirection.Horizontally)," ++ [newline] ++ photon_draft
     ++ [newline] ++ tiny_line)
  = Ok [mars_record "Mars 3"; mars_record "Mars-3"; photon_m3; tiny_record].
Proof.
  refine (eq_trans
            (proj2 (proj1 (@photon_m3_scenario
                             (two_mars ++ [newline])
                             (lit ", FlipDirection.Horizontally),"
                                  ++ [newline] ++ photon_draft
                                  ++ [newline] ++ tiny_line)
                             [mars_record "Mars 3"; mars_record "Mars-3"]
                             eq_refl eq_refl eq_refl)
                          _) _ _) _).
  - intros H. vm_compute in H. destruct H as [H|[H|[]]]; discriminate H.
  - vm_compute. reflexivity.
  - vm_compute. reflexivity.
Defined.

End ScenarioDocument.
